(** * Realization association and source processing of [openquake.commonlib.source]

    A shallow embedding of the classes [LtRealization], [TrtModel],
    [RlzsAssoc], [CompositionInfo], [CompositeSourceModel] and
    [SourceProcessor], followed by the properties established about them.

    Conventions of the embedding.
    - Python integers are [Z]; Python floating point numbers (weights,
      magnitudes, aggregated values) are exact rationals [Qc], so rounding is
      not part of the model.
    - A method that mutates [self] and may raise is a function from the state
      before the call to the state after it, paired with an outcome; where
      the objects built by a call are lost when it raises, the outcome alone
      is given.
    - The logic tree, hazardlib, the clock and the task manager are not part
      of this module: they are the type classes [LogicTree] and [HazardLib],
      and the properties hold for every instance.
    - Dictionaries are [gmap]s; [collections.OrderedDict] is an association
      list in insertion order; objects that are shared and mutated
      (realizations) live in a store and are referred to by reference. *)

From Stdlib Require Import ZArith QArith Qcanon String Ascii List.
From Stdlib Require Import Sorting.Permutation Sorting.Sorted Lia.
From stdpp Require Import base option list gmap strings pretty sorting numbers.

Local Open Scope string_scope.
Local Open Scope Z_scope.
Local Open Scope list_scope.

(** ** Exceptions and outcomes *)

Inductive exn : Type :=
| AssertionError
| ValueError
| KeyError
| AttributeError.

Inductive result (A : Type) : Type :=
| Ok (a : A)
| Raise (e : exn).

Arguments Ok {A} a.
Arguments Raise {A} e.

Definition raises {A : Type} (r : result A) : Prop :=
  match r with Ok _ => False | Raise _ => True end.

(** The value of an outcome, when there is one. *)
Definition result_value {A : Type} (r : result A) : option A :=
  match r with Ok a => Some a | Raise _ => None end.

(** Whether an outcome is a value. *)
Definition returns {A : Type} (r : result A) : bool :=
  match r with Ok _ => true | Raise _ => false end.

Definition bind_result {A B : Type} (r : result A) (k : A -> result B)
  : result B :=
  match r with Ok a => k a | Raise e => Raise e end.

(** ** Sources (work items) *)

(** The part of a hazardlib source object that this module reads:
    [source_id], the class name, [tectonic_region_type],
    [get_min_max_mag()], [count_ruptures()], the optional attribute
    [trt_model_id] (missing on source nodes) and [weight]. *)
Record Source : Type := {
  source_id : string;
  source_class : string;
  tectonic_region_type : string;
  get_min_max_mag : Qc * Qc;
  count_ruptures : Z;
  trt_model_id : option Z;
  src_weight : Qc
}.

(** ** TrtModel *)

Record TrtModel : Type := {
  tm_trt : string;
  tm_sources : list Source;
  tm_num_ruptures : Z;
  tm_min_mag : option Qc;
  tm_max_mag : option Qc;
  tm_gsims : list string;
  tm_id : Z
}.

Definition set_tm_sources (l : list Source) (tm : TrtModel) : TrtModel :=
  {| tm_trt := tm_trt tm; tm_sources := l;
     tm_num_ruptures := tm_num_ruptures tm; tm_min_mag := tm_min_mag tm;
     tm_max_mag := tm_max_mag tm; tm_gsims := tm_gsims tm;
     tm_id := tm_id tm |}.

Definition set_tm_min_mag (m : option Qc) (tm : TrtModel) : TrtModel :=
  {| tm_trt := tm_trt tm; tm_sources := tm_sources tm;
     tm_num_ruptures := tm_num_ruptures tm; tm_min_mag := m;
     tm_max_mag := tm_max_mag tm; tm_gsims := tm_gsims tm;
     tm_id := tm_id tm |}.

Definition set_tm_max_mag (m : option Qc) (tm : TrtModel) : TrtModel :=
  {| tm_trt := tm_trt tm; tm_sources := tm_sources tm;
     tm_num_ruptures := tm_num_ruptures tm; tm_min_mag := tm_min_mag tm;
     tm_max_mag := m; tm_gsims := tm_gsims tm;
     tm_id := tm_id tm |}.

Definition set_tm_gsims (g : list string) (tm : TrtModel) : TrtModel :=
  {| tm_trt := tm_trt tm; tm_sources := tm_sources tm;
     tm_num_ruptures := tm_num_ruptures tm; tm_min_mag := tm_min_mag tm;
     tm_max_mag := tm_max_mag tm; tm_gsims := g;
     tm_id := tm_id tm |}.

Definition set_tm_num_ruptures (n : Z) (tm : TrtModel) : TrtModel :=
  {| tm_trt := tm_trt tm; tm_sources := tm_sources tm;
     tm_num_ruptures := n; tm_min_mag := tm_min_mag tm;
     tm_max_mag := tm_max_mag tm; tm_gsims := tm_gsims tm;
     tm_id := tm_id tm |}.

(** [TrtModel.update]: the assertion comes first, so a failing call has
    changed nothing; then the source is appended and the two bounds are
    moved when they are unset or when the source lies outside them. *)
Definition TrtModel_update (self : TrtModel) (src : Source)
  : TrtModel * result unit :=
  if bool_decide (tectonic_region_type src = tm_trt self) then
    let self1 := set_tm_sources (tm_sources self ++ [src]) self in
    let '(min_mag, max_mag) := get_min_max_mag src in
    let prev_min_mag := tm_min_mag self1 in
    let self2 :=
      match prev_min_mag with
      | None => set_tm_min_mag (Some min_mag) self1
      | Some p =>
          if bool_decide (min_mag < p)%Qc
          then set_tm_min_mag (Some min_mag) self1 else self1
      end in
    let prev_max_mag := tm_max_mag self2 in
    let self3 :=
      match prev_max_mag with
      | None => set_tm_max_mag (Some max_mag) self2
      | Some p =>
          if bool_decide (p < max_mag)%Qc
          then set_tm_max_mag (Some max_mag) self2 else self2
      end in
    (self3, Ok tt)
  else (self, Raise AssertionError).

(** [TrtModel.__lt__]: fewer sources first, then the category string. *)
Definition TrtModel_lt (self other : TrtModel) : bool :=
  let num_sources := length (tm_sources self) in
  let other_sources := length (tm_sources other) in
  if bool_decide (num_sources = other_sources)
  then String.ltb (tm_trt self) (tm_trt other)
  else bool_decide (num_sources < other_sources)%nat.

(** [lo] is the smallest of the previous lower bound, when there is one,
    and [m]. *)
Definition is_lower_union (prev : option Qc) (m lo : Qc) : Prop :=
  (lo <= m)%Qc /\
  match prev with
  | None => lo = m
  | Some p => (lo <= p)%Qc /\ (lo = p \/ lo = m)
  end.

(** [hi] is the largest of the previous upper bound, when there is one,
    and [m]. *)
Definition is_upper_union (prev : option Qc) (m hi : Qc) : Prop :=
  (m <= hi)%Qc /\
  match prev with
  | None => hi = m
  | Some p => (p <= hi)%Qc /\ (hi = p \/ hi = m)
  end.


(** ** LtRealization *)

(** A realization of the GSIM logic tree, as [logictree] hands it over:
    the chosen GSIMs (one per tectonic region type), its weight, its
    branch path and its identifier. *)
Record GsimRlz : Type := {
  gr_value : list string;
  gr_weight : Qc;
  gr_lt_path : list string;
  gr_uid : string
}.

Record LtRealization : Type := {
  ordinal : Z;
  sm_lt_path : list string;
  gsim_rlz : GsimRlz;
  weight : Qc;
  col_ids : gset Z
}.

Definition set_weight (w : Qc) (r : LtRealization) : LtRealization :=
  {| ordinal := ordinal r; sm_lt_path := sm_lt_path r;
     gsim_rlz := gsim_rlz r; weight := w; col_ids := col_ids r |}.

Definition add_col_id (c : Z) (r : LtRealization) : LtRealization :=
  {| ordinal := ordinal r; sm_lt_path := sm_lt_path r;
     gsim_rlz := gsim_rlz r; weight := weight r;
     col_ids := {[ c ]} ∪ col_ids r |}.

Definition gsim_lt_path (self : LtRealization) : list string :=
  gr_lt_path (gsim_rlz self).


Section Repr.

(** [float_str] stands for the text that ['%s'] gives a float and
    [hash] for the built-in hash of a string; both are left open. *)
Variable float_str : Qc -> string.
Variable hash : string -> Z.





End Repr.


(** ** The GSIM logic tree, a collaborator

    [openquake.commonlib.logictree] is used through the operations below
    only.  [reduce] gives the tree restricted to a set of tectonic
    region types, [sample] draws the given number of realizations with the
    generator [random.Random(seed)], which is created for that one call, and
    [get_effective_rlzs] enumerates the realizations of the tree. *)
Class LogicTree : Type := {
  GsimLogicTree : Type;
  tectonic_region_types : GsimLogicTree -> list string;
  all_trts : GsimLogicTree -> list string;
  values : GsimLogicTree -> gmap string (list string);
  get_gsim_by_trt : GsimLogicTree -> GsimRlz -> string -> string;
  reduce : GsimLogicTree -> gset string -> GsimLogicTree;
  sample : GsimLogicTree -> Z -> Z -> list GsimRlz;
  get_effective_rlzs : GsimLogicTree -> list GsimRlz
}.

(** ** SourceModel and CompositionInfo *)

Record SourceModel {LT : LogicTree} : Type := {
  sm_name : string;
  sm_weight : Qc;
  sm_path : list string;
  sm_trt_models : list TrtModel;
  sm_gsim_lt : GsimLogicTree;
  sm_ordinal : Z;
  sm_samples : Z
}.

Section Composition.

Context {LT : LogicTree}.

Definition set_sm_trt_models (l : list TrtModel) (sm : SourceModel)
  : SourceModel :=
  {| sm_name := sm_name sm; sm_weight := sm_weight sm;
     sm_path := sm_path sm; sm_trt_models := l;
     sm_gsim_lt := sm_gsim_lt sm; sm_ordinal := sm_ordinal sm;
     sm_samples := sm_samples sm |}.

Definition set_sm_gsim_lt (g : GsimLogicTree) (sm : SourceModel)
  : SourceModel :=
  {| sm_name := sm_name sm; sm_weight := sm_weight sm;
     sm_path := sm_path sm; sm_trt_models := sm_trt_models sm;
     sm_gsim_lt := g; sm_ordinal := sm_ordinal sm;
     sm_samples := sm_samples sm |}.

(** [get_skeleton]: the same source model with every TrtModel emptied of
    its sources ([TrtModel(tm.trt, [], ...)]). *)
Definition get_skeleton (sm : SourceModel) : SourceModel :=
  set_sm_trt_models
    (map (fun tm => set_tm_sources [] tm) (sm_trt_models sm)) sm.

Record CompositionInfo : Type := {
  col_dict : gmap (Z * Z) Z;
  num_samples_dict : gmap Z Z;
  info_source_models : list SourceModel;
  num_collections : Z
}.

(** The three nested loops of [CompositionInfo.__init__], innermost first.
    The state is [_col_dict], [_num_samples] and the counter [col_id]. *)
Definition init_idx_loop (trt_id samples : Z) (st : gmap (Z * Z) Z * Z)
  : gmap (Z * Z) Z * Z :=
  foldl (fun '(d, col_id) idx => (<[(trt_id, idx) := col_id]> d, col_id + 1))
        st (seqZ 0 samples).

Definition init_trt_loop (sm : SourceModel)
    (st : gmap (Z * Z) Z * gmap Z Z * Z) : gmap (Z * Z) Z * gmap Z Z * Z :=
  foldl (fun '(d, ns, col_id) trt_model =>
           let trt_id := tm_id trt_model in
           let ns' := if bool_decide (sm_samples sm > 1)
                      then <[trt_id := sm_samples sm]> ns else ns in
           let '(d', col_id') :=
             init_idx_loop trt_id (sm_samples sm) (d, col_id) in
           (d', ns', col_id'))
        st (sm_trt_models sm).

Definition CompositionInfo_init (source_models : list SourceModel)
  : CompositionInfo :=
  let '(d, ns, col_id) :=
    foldl (fun st sm => init_trt_loop sm st) (∅, ∅, 0) source_models in
  {| col_dict := d; num_samples_dict := ns;
     info_source_models := map get_skeleton source_models;
     num_collections := col_id |}.

(** [get_num_samples]: [_num_samples.get(trt_id, 1)]. *)
Definition CompositionInfo_get_num_samples (self : CompositionInfo)
    (trt_id : Z) : Z :=
  default 1 (num_samples_dict self !! trt_id).

(** [get_col_id]: [_col_dict[trt_id, idx]], a [KeyError] when absent. *)
Definition CompositionInfo_get_col_id (self : CompositionInfo)
    (trt_id idx : Z) : result Z :=
  match col_dict self !! (trt_id, idx) with
  | Some c => Ok c
  | None => Raise KeyError
  end.

(** The pairs (group id, sample index) in the order the loops visit them. *)
Definition walk (source_models : list SourceModel) : list (Z * Z) :=
  sm ← source_models;
  tm ← sm_trt_models sm;
  idx ← seqZ 0 (sm_samples sm);
  [(tm_id tm, idx)].

(** The same for one model. *)
Definition walk_model (sm : SourceModel) : list (Z * Z) :=
  tm ← sm_trt_models sm; idx ← seqZ 0 (sm_samples sm); [(tm_id tm, idx)].

(** Writing the entries of a list of keys, numbered from [c] upwards, into
    a dictionary; a later entry replaces an earlier one for the same key. *)
Definition numbered_inserts (c : Z) (keys : list (Z * Z))
    (d : gmap (Z * Z) Z) : gmap (Z * Z) Z :=
  foldl (fun d '(key, v) => <[key := v]> d) d
        (imap (fun i key => (key, c + Z.of_nat i)) keys).

(** Number of groups times sample count, summed over the given models. *)
Definition groups_times_samples (source_models : list SourceModel) : Z :=
  foldr (fun sm acc =>
           Z.of_nat (length (sm_trt_models sm)) * Z.max 0 (sm_samples sm)
           + acc)
        0 source_models.

(** The models that are oversampled. *)
Definition oversampled (source_models : list SourceModel)
  : list SourceModel :=
  filter (fun sm => sm_samples sm > 1) source_models.

End Composition.

(** ** RlzsAssoc *)

(** [agg_prob]: composition of probabilities. *)
Definition agg_prob (acc prob : Qc) : Qc :=
  (1 - (1 - acc) * (1 - prob))%Qc.

(** [collections.OrderedDict.__setitem__]: the value of a key already
    present is replaced in place, a new key goes to the end. *)
Fixpoint od_setitem {V : Type} (k : Z) (v : V) (od : list (Z * V))
  : list (Z * V) :=
  match od with
  | [] => [(k, v)]
  | (k', v') :: od' =>
      if bool_decide (k' = k) then (k, v) :: od'
      else (k', v') :: od_setitem k v od'
  end.

(** The association is generic in the type [Key] of the keys of
    [rlzs_assoc] and in the type [R] of what stands for a realization:
    pairs of strings and strings in the doctest of [combine], pairs
    (group id, GSIM) and references to realization objects in an association
    built by [get_rlzs_assoc].  [rlzs_assoc_default] tells whether
    [rlzs_assoc] is the [defaultdict(list)] that the constructor makes
    when it is given no (or an empty) dictionary. *)
Record RlzsAssoc {LT : LogicTree} {Key : Type} `{Countable Key} {R : Type}
  : Type := {
  csm_info : CompositionInfo;
  rlzs_assoc : gmap Key (list R);
  rlzs_assoc_default : bool;
  gsim_by_trt : list (gmap string string);
  rlzs_by_smodel : list (Z * list R)
}.

Arguments RlzsAssoc {LT} Key {_ _} R.

Section Association.

Context {LT : LogicTree} {Key : Type} `{Countable Key} {R : Type}.

(** A dictionary keyed by realizations is keyed by what their [__eq__]
    and [__hash__] look at: [rlz_key] gives that, in a countable type. *)
Context {K : Type} `{Countable K} (rlz_key : R -> K).

Definition set_rlzs_assoc (m : gmap Key (list R)) (a : RlzsAssoc Key R)
  : RlzsAssoc Key R :=
  {| csm_info := csm_info a; rlzs_assoc := m;
     rlzs_assoc_default := rlzs_assoc_default a;
     gsim_by_trt := gsim_by_trt a; rlzs_by_smodel := rlzs_by_smodel a |}.

Definition set_gsim_by_trt (g : list (gmap string string))
    (a : RlzsAssoc Key R) : RlzsAssoc Key R :=
  {| csm_info := csm_info a; rlzs_assoc := rlzs_assoc a;
     rlzs_assoc_default := rlzs_assoc_default a;
     gsim_by_trt := g; rlzs_by_smodel := rlzs_by_smodel a |}.

Definition set_rlzs_by_smodel (od : list (Z * list R))
    (a : RlzsAssoc Key R) : RlzsAssoc Key R :=
  {| csm_info := csm_info a; rlzs_assoc := rlzs_assoc a;
     rlzs_assoc_default := rlzs_assoc_default a;
     gsim_by_trt := gsim_by_trt a; rlzs_by_smodel := od |}.

(** [RlzsAssoc.__init__]: [rlzs_assoc or collections.defaultdict(list)]. *)
Definition RlzsAssoc_init (info : CompositionInfo)
    (given : option (gmap Key (list R))) : RlzsAssoc Key R :=
  let '(m, dflt) :=
    match given with
    | Some m => if bool_decide (m = ∅) then (∅, true) else (m, false)
    | None => (∅, true)
    end in
  {| csm_info := info; rlzs_assoc := m; rlzs_assoc_default := dflt;
     gsim_by_trt := []; rlzs_by_smodel := [] |}.

(** [realizations]: [sum(self.rlzs_by_smodel.itervalues(), [])]. *)
Definition realizations (self : RlzsAssoc Key R) : list R :=
  concat (map snd (rlzs_by_smodel self)).

(** [self.rlzs_assoc[key]]: a [defaultdict] stores and gives an empty list
    for a key it does not hold, a plain dictionary raises [KeyError]. *)
Definition rlzs_assoc_getitem (self : RlzsAssoc Key R) (key : Key)
  : RlzsAssoc Key R * result (list R) :=
  match rlzs_assoc self !! key with
  | Some rlzs => (self, Ok rlzs)
  | None =>
      if rlzs_assoc_default self
      then (set_rlzs_assoc (<[key := []]> (rlzs_assoc self)) self, Ok [])
      else (self, Raise KeyError)
  end.

(** The inner loop of [combine]:
    [for rlz in rlzs: ad[rlz] = agg(ad.get(rlz, 0), value)]. *)
Definition combine_rlzs (agg : Qc -> Qc -> Qc) (value : Qc)
    (ad : gmap K Qc) (rlzs : list R) : gmap K Qc :=
  foldl (fun ad rlz =>
           <[rlz_key rlz := agg (default 0%Qc (ad !! rlz_key rlz)) value]> ad)
        ad rlzs.

(** The outer loop of [combine] over the items of [results], in the
    order in which the dictionary gives them. *)
Fixpoint combine_loop (agg : Qc -> Qc -> Qc) (self : RlzsAssoc Key R)
    (ad : gmap K Qc) (results : list (Key * Qc))
  : RlzsAssoc Key R * result (gmap K Qc) :=
  match results with
  | [] => (self, Ok ad)
  | (key, value) :: rest =>
      match rlzs_assoc_getitem self key with
      | (self', Ok rlzs) =>
          combine_loop agg self' (combine_rlzs agg value ad rlzs) rest
      | (self', Raise e) => (self', Raise e)
      end
  end.

(** [RlzsAssoc.combine]. *)
Definition RlzsAssoc_combine (self : RlzsAssoc Key R)
    (results : list (Key * Qc)) (agg : Qc -> Qc -> Qc)
  : RlzsAssoc Key R * result (gmap K Qc) :=
  combine_loop agg self ∅ results.

(** [combine_curves], for values of any type [V].  The accumulator is a
    dictionary ([AccumDict] is a [dict]): [ad[rlz]] raises [KeyError] for
    a realization that is not among [self.realizations]. *)
Fixpoint combine_curves_rlzs {V : Type} (agg : V -> V -> V) (value : V)
    (ad : gmap K V) (rlzs : list R) : result (gmap K V) :=
  match rlzs with
  | [] => Ok ad
  | rlz :: rest =>
      match ad !! rlz_key rlz with
      | Some old =>
          combine_curves_rlzs agg value
            (<[rlz_key rlz := agg old value]> ad) rest
      | None => Raise KeyError
      end
  end.

Fixpoint combine_curves_loop {V : Type} (agg : V -> V -> V)
    (self : RlzsAssoc Key R) (ad : gmap K V) (results : list (Key * V))
  : RlzsAssoc Key R * result (gmap K V) :=
  match results with
  | [] => (self, Ok ad)
  | (key, value) :: rest =>
      match rlzs_assoc_getitem self key with
      | (self', Ok rlzs) =>
          match combine_curves_rlzs agg value ad rlzs with
          | Ok ad' => combine_curves_loop agg self' ad' rest
          | Raise e => (self', Raise e)
          end
      | (self', Raise e) => (self', Raise e)
      end
  end.

Definition RlzsAssoc_combine_curves {V : Type} (self : RlzsAssoc Key R)
    (results : list (Key * V)) (agg : V -> V -> V) (acc : V)
  : RlzsAssoc Key R * result (gmap K V) :=
  let ad : gmap K V :=
    foldl (fun ad rlz => <[rlz_key rlz := acc]> ad) ∅ (realizations self) in
  combine_curves_loop agg self ad results.

(** What the keys of [results] reach: every realization listed under a
    key of [results], with the value of that key, in the order of the
    loops. *)
Definition contributions {V : Type} (self : RlzsAssoc Key R)
    (results : list (Key * V)) : list (K * V) :=
  kv ← results;
  rlz ← default [] (rlzs_assoc self !! kv.1);
  [(rlz_key rlz, kv.2)].

(** Folding one contribution into the result of [combine]. *)
Definition fold_contribution (agg : Qc -> Qc -> Qc) (ad : gmap K Qc)
    (kv : K * Qc) : gmap K Qc :=
  <[kv.1 := agg (default 0%Qc (ad !! kv.1)) kv.2]> ad.

(** What reading a key does to a [defaultdict(list)]. *)
Definition add_missing (m : gmap Key (list R)) (key : Key)
  : gmap Key (list R) :=
  match m !! key with
  | Some _ => m
  | None => <[key := []]> m
  end.

End Association.

(** ** CompositeSourceModel *)

(** What [get_rlzs_assoc] reads of the source model logic tree. *)
Record SourceModelLogicTree : Type := {
  seed : Z;
  num_samples : Z
}.

(** What the functions below do besides computing: warnings sent to
    [logging.warn] and generators created with [random.Random(seed)]. *)
Inductive event : Type :=
| RandomCreated (seed : Z)
| WarnNoRealizations (path name : string)
| WarnRescaled
| WarnParallel (n : nat)
| WarnSequential (n : nat)
| WarnNoSources (name : string) (path : list string) (trt : string).

(** A row of [csm.source_info], of the numpy type [source_info_dt]. *)
Record SourceInfoRow : Type := {
  row_trt_model_id : Z;
  row_source_id : string;
  row_source_class : string;
  row_split_num : Z;
  row_filter_time : Qc;
  row_split_time : Qc
}.

Record CompositeSourceModel {LT : LogicTree} : Type := {
  source_model_lt : SourceModelLogicTree;
  source_models : list SourceModel;
  info : CompositionInfo;
  source_info : list SourceInfoRow
}.

(** The state of [get_rlzs_assoc]: the realization objects created so
    far, in creation order (a reference is a position in this store), the
    association, whose lists hold references, the source models already gone
    through, as the loop leaves them, the counter [idx] and the events so
    far. *)
Record Building {LT : LogicTree} : Type := {
  b_heap : list LtRealization;
  b_assoc : RlzsAssoc (Z * string) nat;
  b_models : list SourceModel;
  b_idx : Z;
  b_log : list event
}.

Section Building.

Context {LT : LogicTree}.

Definition CompositeSourceModel_init (source_model_lt : SourceModelLogicTree)
    (source_models : list SourceModel) : CompositeSourceModel :=
  {| source_model_lt := source_model_lt; source_models := source_models;
     info := CompositionInfo_init source_models; source_info := [] |}.

(** [trt_models]: the TrtModels inside each source model, in order. *)
Definition CompositeSourceModel_trt_models (self : CompositeSourceModel)
  : list TrtModel :=
  sm ← source_models self; sm_trt_models sm.

(** The weight of the realization behind a reference. *)
Definition weight_of (heap : list LtRealization) (r : nat) : Qc :=
  from_option weight 0%Qc (heap !! r).

(** The loop over [lt_model.trt_models] in [_add_realizations], for the
    realization at reference [r], which is the [i]-th of its model. *)
Fixpoint add_realization_groups (lt_model : SourceModel) (i : Z)
    (gsim_rlz : GsimRlz) (r : nat) (heap : list LtRealization)
    (self : RlzsAssoc (Z * string) nat) (trt_models : list TrtModel)
  : result (list LtRealization * RlzsAssoc (Z * string) nat * list TrtModel) :=
  match trt_models with
  | [] => Ok (heap, self, [])
  | trt_model :: rest =>
      let trt := tm_trt trt_model in
      let gsim := get_gsim_by_trt (sm_gsim_lt lt_model) gsim_rlz trt in
      match rlzs_assoc_getitem self (tm_id trt_model, gsim) with
      | (_, Raise e) => Raise e
      | (self1, Ok rlzs) =>
          let self2 :=
            set_rlzs_assoc
              (<[(tm_id trt_model, gsim) := rlzs ++ [r]]> (rlzs_assoc self1))
              self1 in
          match values (sm_gsim_lt lt_model) !! trt with
          | None => Raise KeyError
          | Some gsims =>
              let trt_model' := set_tm_gsims gsims trt_model in
              let oversampling :=
                if bool_decide (sm_samples lt_model > 1) then
                  match CompositionInfo_get_col_id (csm_info self2)
                          (tm_id trt_model) i with
                  | Ok col_id => Ok (alter (add_col_id col_id) r heap)
                  | Raise e => Raise e
                  end
                else Ok heap in
              match oversampling with
              | Raise e => Raise e
              | Ok heap' =>
                  match add_realization_groups lt_model i gsim_rlz r heap'
                          self2 rest with
                  | Raise e => Raise e
                  | Ok (heap'', self3, rest') =>
                      Ok (heap'', self3, trt_model' :: rest')
                  end
              end
          end
      end
  end.

(** [dict(zip(keys, vals))]: a later pair replaces an earlier one. *)
Definition dict_zip (keys vals : list string) : gmap string string :=
  foldl (fun d kv => <[kv.1 := kv.2]> d) ∅ (zip keys vals).

(** The loop over [enumerate(realizations)] in [_add_realizations]. *)
Fixpoint add_realizations_loop (lt_model : SourceModel) (i idx : Z)
    (heap : list LtRealization) (self : RlzsAssoc (Z * string) nat)
    (trt_models : list TrtModel) (rlzs : list nat)
    (realizations : list GsimRlz)
  : result (Z * list LtRealization * RlzsAssoc (Z * string) nat
            * list TrtModel * list nat) :=
  match realizations with
  | [] => Ok (idx, heap, self, trt_models, rlzs)
  | gsim_rlz :: rest =>
      let weight := (sm_weight lt_model * gr_weight gsim_rlz)%Qc in
      let rlz :=
        {| ordinal := idx; sm_lt_path := sm_path lt_model;
           gsim_rlz := gsim_rlz; weight := weight; col_ids := ∅ |} in
      let r := length heap in
      let heap1 := heap ++ [rlz] in
      let self1 :=
        set_gsim_by_trt
          (gsim_by_trt self ++
           [dict_zip (all_trts (sm_gsim_lt lt_model)) (gr_value gsim_rlz)])
          self in
      match add_realization_groups lt_model i gsim_rlz r heap1 self1
              trt_models with
      | Raise e => Raise e
      | Ok (heap2, self2, trt_models') =>
          add_realizations_loop lt_model (i + 1) (idx + 1) heap2 self2
            trt_models' (rlzs ++ [r]) rest
      end
  end.

(** [RlzsAssoc._add_realizations]: gives back the store, the association,
    the TrtModels of [lt_model] with their [gsims] set, and the next
    ordinal. *)
Definition RlzsAssoc_add_realizations (heap : list LtRealization)
    (self : RlzsAssoc (Z * string) nat) (idx : Z) (lt_model : SourceModel)
    (realizations : list GsimRlz)
  : result (Z * list LtRealization * RlzsAssoc (Z * string) nat
            * list TrtModel) :=
  match add_realizations_loop lt_model 0 idx heap self
          (sm_trt_models lt_model) [] realizations with
  | Raise e => Raise e
  | Ok (idx', heap', self', trt_models', rlzs) =>
      Ok (idx', heap',
          set_rlzs_by_smodel
            (od_setitem (sm_ordinal lt_model) rlzs (rlzs_by_smodel self'))
            self',
          trt_models')
  end.

(** The tectonic region types of the TrtModels with a positive weight. *)
Definition live_trts (get_weight : TrtModel -> Z) (smodel : SourceModel)
  : gset string :=
  list_to_set
    (tm_trt <$> filter (fun tm => get_weight tm > 0) (sm_trt_models smodel)).

(** The logic tree of a source model once the loop has looked at it:
    reduced to the live types unless these are the types it has. *)
Definition reduced_gsim_lt (get_weight : TrtModel -> Z)
    (smodel : SourceModel) : GsimLogicTree :=
  let trts := live_trts get_weight smodel in
  if bool_decide
       (trts <> list_to_set (tectonic_region_types (sm_gsim_lt smodel)))
  then reduce (sm_gsim_lt smodel) trts
  else sm_gsim_lt smodel.

(** The realizations of a source model: drawn with a generator seeded
    with [random_seed + idx] when sampling, enumerated otherwise. *)
Definition model_rlzs (random_seed num_samples idx : Z)
    (smodel : SourceModel) : list GsimRlz :=
  if bool_decide (num_samples <> 0) then
    sample (sm_gsim_lt smodel) (sm_samples smodel) (random_seed + idx)
  else get_effective_rlzs (sm_gsim_lt smodel).

(** One round of the loop over the source models in [get_rlzs_assoc]. *)
Definition get_rlzs_assoc_step (random_seed num_samples : Z)
    (get_weight : TrtModel -> Z) (st : Building) (smodel : SourceModel)
  : result Building :=
  let smodel1 := set_sm_gsim_lt (reduced_gsim_lt get_weight smodel) smodel in
  let log1 :=
    if bool_decide (num_samples <> 0)
    then b_log st ++ [RandomCreated (random_seed + b_idx st)]
    else b_log st in
  let rlzs := model_rlzs random_seed num_samples (b_idx st) smodel1 in
  match rlzs with
  | [] =>
      Ok {| b_heap := b_heap st; b_assoc := b_assoc st;
            b_models := b_models st ++ [smodel1]; b_idx := b_idx st;
            b_log := log1 ++
              [WarnNoRealizations (String.concat "_" (sm_path smodel1))
                 (sm_name smodel1)] |}
  | _ :: _ =>
      match RlzsAssoc_add_realizations (b_heap st) (b_assoc st) (b_idx st)
              smodel1 rlzs with
      | Raise e => Raise e
      | Ok (idx', heap', assoc', trt_models') =>
          Ok {| b_heap := heap'; b_assoc := assoc';
                b_models :=
                  b_models st ++ [set_sm_trt_models trt_models' smodel1];
                b_idx := idx'; b_log := log1 |}
      end
  end.

Fixpoint get_rlzs_assoc_loop (random_seed num_samples : Z)
    (get_weight : TrtModel -> Z) (st : Building)
    (smodels : list SourceModel) : result Building :=
  match smodels with
  | [] => Ok st
  | smodel :: rest =>
      match get_rlzs_assoc_step random_seed num_samples get_weight st
              smodel with
      | Raise e => Raise e
      | Ok st' =>
          get_rlzs_assoc_loop random_seed num_samples get_weight st' rest
      end
  end.

Definition set_b_heap (heap : list LtRealization) (st : Building)
  : Building :=
  {| b_heap := heap; b_assoc := b_assoc st; b_models := b_models st;
     b_idx := b_idx st; b_log := b_log st |}.

Definition set_b_log (log : list event) (st : Building) : Building :=
  {| b_heap := b_heap st; b_assoc := b_assoc st; b_models := b_models st;
     b_idx := b_idx st; b_log := log |}.

(** [for rlz in assoc.realizations: rlz.weight = new_weight(rlz)]. *)
Definition set_weights (new_weight : LtRealization -> Qc)
    (heap : list LtRealization) (rlzs : list nat) : list LtRealization :=
  foldl (fun heap r => alter (fun rlz => set_weight (new_weight rlz) rlz) r heap)
        heap rlzs.

(** [sum(rlz.weight for rlz in rlzs)]. *)
Definition sum_weights (heap : list LtRealization) (rlzs : list nat) : Qc :=
  foldl (fun acc r => (acc + weight_of heap r)%Qc) 0%Qc rlzs.

Definition Qc_abs (q : Qc) : Qc :=
  if bool_decide (q < 0)%Qc then (- q)%Qc else q.

(** The last part of [get_rlzs_assoc], after the loop over the models. *)
Definition get_rlzs_assoc_weights (num_samples : Z) (st : Building)
  : result Building :=
  let rlzs := realizations (b_assoc st) in
  match rlzs with
  | [] => Ok st
  | _ :: _ =>
      if bool_decide (num_samples <> 0) then
        if bool_decide (Z.of_nat (length rlzs) = num_samples) then
          Ok (set_b_heap
                (set_weights (fun _ => (1 / Qc_of_Z num_samples)%Qc)
                   (b_heap st) rlzs) st)
        else Raise AssertionError
      else
        let tot_weight := sum_weights (b_heap st) rlzs in
        if bool_decide (tot_weight = 0%Qc) then Raise ValueError
        else
          let log :=
            if bool_decide
                 (Q2Qc (1 # 1000000000000) < Qc_abs (tot_weight - 1))%Qc
            then b_log st ++ [WarnRescaled] else b_log st in
          Ok (set_b_log log
                (set_b_heap
                   (set_weights (fun rlz => (weight rlz / tot_weight)%Qc)
                      (b_heap st) rlzs) st))
  end.

(** The state in which the loop of [get_rlzs_assoc] starts. *)
Definition initial_building (self : CompositeSourceModel) : Building :=
  {| b_heap := []; b_assoc := RlzsAssoc_init (info self) None;
     b_models := []; b_idx := 0; b_log := [] |}.

(** The references of an association point into the store, none occurs
    twice among the realizations, and [idx] counts the objects created. *)
Definition well_formed (st : Building) : Prop :=
  b_idx st = Z.of_nat (length (b_heap st)) /\
  NoDup (realizations (b_assoc st)) /\
  Forall (fun r => (r < length (b_heap st))%nat) (realizations (b_assoc st)).

(** [CompositeSourceModel.get_rlzs_assoc]. *)
Definition CompositeSourceModel_get_rlzs_assoc (self : CompositeSourceModel)
    (get_weight : TrtModel -> Z) : result Building :=
  let random_seed := seed (source_model_lt self) in
  let num_samples := num_samples (source_model_lt self) in
  match get_rlzs_assoc_loop random_seed num_samples get_weight
          (initial_building self) (source_models self) with
  | Raise e => Raise e
  | Ok st => get_rlzs_assoc_weights num_samples st
  end.

End Building.

(** ** SourceProcessor *)

(** What hazardlib, the source converter and the task manager do for the
    processor: the filtering of the sites around a source, which gives
    nothing when no site is within the distance, the splitting of a source,
    the times that [time.time()] measures around these calls and around
    the sequential and the parallel part, and the order in which the
    results of the tasks come back, which is some order of what was
    submitted. *)
Class HazardLib : Type := {
  SiteCollection : Type;
  filter_sites_by_distance_to_source :
    Source -> Qc -> SiteCollection -> option SiteCollection;
  split_source : Source -> Qc -> list Source;
  filter_elapsed : Source -> Qc;
  split_elapsed : Source -> Qc;
  sequential_elapsed : Qc;
  parallel_elapsed : Qc;
  completion_order : forall A : Type, list A -> list A;
  completion_order_perm : forall (A : Type) (l : list A),
    completion_order A l ≡ₚ l
}.

Record SourceInfo : Type := {
  si_trt_model_id : Z;
  si_source_id : string;
  si_source_class : string;
  si_sources : list Source;
  si_filter_time : Qc;
  si_split_time : Qc
}.

Record SourceProcessor {HL : HazardLib} : Type := {
  sitecol : option SiteCollection;
  maxdist : Qc;
  asd : Qc
}.

(** The stable sort of [sorted] and [list.sort]: [before y x] tells that
    [y] has to come strictly before [x]; an element is put in front of
    the first one that need not come before it. *)
Fixpoint insert_sorted {A : Type} (before : A -> A -> bool) (x : A)
    (l : list A) : list A :=
  match l with
  | [] => [x]
  | y :: l' =>
      if before y x then y :: insert_sorted before x l' else x :: y :: l'
  end.

Definition sorted_by {A : Type} (before : A -> A -> bool) (l : list A)
  : list A :=
  foldr (insert_sorted before) [] l.

Section Processor.

Context {LT : LogicTree} {HL : HazardLib}.

Definition set_src_weight (w : Qc) (src : Source) : Source :=
  {| source_id := source_id src; source_class := source_class src;
     tectonic_region_type := tectonic_region_type src;
     get_min_max_mag := get_min_max_mag src;
     count_ruptures := count_ruptures src;
     trt_model_id := trt_model_id src; src_weight := w |}.

Definition set_trt_model_id (i : Z) (src : Source) : Source :=
  {| source_id := source_id src; source_class := source_class src;
     tectonic_region_type := tectonic_region_type src;
     get_min_max_mag := get_min_max_mag src;
     count_ruptures := count_ruptures src;
     trt_model_id := Some i; src_weight := src_weight src |}.

(** [get_weight], called with a source only: the number of ruptures,
    divided by 40 for a point source. *)
Definition get_weight (src : Source) : Qc :=
  let num_ruptures := count_ruptures src in
  if bool_decide (source_class src = "PointSource")
  then (Qc_of_Z num_ruptures * Q2Qc (1 # 40))%Qc
  else Qc_of_Z num_ruptures.

(** [filter_and_split].  The source is filtered when there is a site
    collection, and dropped when the filtering finds no site; otherwise it
    is split and the parts get their weights.  Reading [src.trt_model_id]
    raises [AttributeError] when the source does not have the attribute. *)
Definition filter_and_split (src : Source) (sourceprocessor : SourceProcessor)
  : result SourceInfo :=
  let '(filter_time, dropped) :=
    match sitecol sourceprocessor with
    | Some sites =>
        (filter_elapsed src,
         match filter_sites_by_distance_to_source src
                 (maxdist sourceprocessor) sites with
         | None => true
         | Some _ => false
         end)
    | None => (0%Qc, false)
    end in
  match trt_model_id src with
  | None => Raise AttributeError
  | Some i =>
      if dropped then
        Ok {| si_trt_model_id := i; si_source_id := source_id src;
              si_source_class := source_class src; si_sources := [];
              si_filter_time := filter_time; si_split_time := 0%Qc |}
      else
        let out :=
          map (fun ss => set_src_weight (get_weight ss) ss)
              (split_source src (asd sourceprocessor)) in
        Ok {| si_trt_model_id := i; si_source_id := source_id src;
              si_source_class := source_class src; si_sources := out;
              si_filter_time := filter_time;
              si_split_time := split_elapsed src |}
  end.

Definition set_source_models (l : list SourceModel)
    (csm : CompositeSourceModel) : CompositeSourceModel :=
  {| source_model_lt := source_model_lt csm; source_models := l;
     info := info csm; source_info := source_info csm |}.

Definition set_source_info (rows : list SourceInfoRow)
    (csm : CompositeSourceModel) : CompositeSourceModel :=
  {| source_model_lt := source_model_lt csm;
     source_models := source_models csm;
     info := info csm; source_info := rows |}.

(** What [get_sources] does to a source of a group: a source that has the
    attribute [trt_model_id] gets the id of the group. *)
Definition tag_source (trt_model : TrtModel) (src : Source) : Source :=
  match trt_model_id src with
  | Some _ => set_trt_model_id (tm_id trt_model) src
  | None => src
  end.

(** [CompositeSourceModel.get_sources]: the model with its sources tagged
    and the list of all the sources, group after group. *)
Definition CompositeSourceModel_get_sources (self : CompositeSourceModel)
  : CompositeSourceModel * list Source :=
  let tag_group tm := set_tm_sources (tag_source tm <$> tm_sources tm) tm in
  let self' :=
    set_source_models
      (map (fun sm =>
              set_sm_trt_models (tag_group <$> sm_trt_models sm) sm)
           (source_models self))
      self in
  (self', tm ← CompositeSourceModel_trt_models self';  tm_sources tm).

(** [count_ruptures(really)]. *)
Definition CompositeSourceModel_count_ruptures (self : CompositeSourceModel)
    (really : bool) : CompositeSourceModel :=
  let count tm :=
    if bool_decide (tm_num_ruptures tm = 0) || really
    then set_tm_num_ruptures
           (foldl Z.add 0 (count_ruptures <$> tm_sources tm)) tm
    else tm in
  set_source_models
    (map (fun sm => set_sm_trt_models (count <$> sm_trt_models sm) sm)
         (source_models self))
    self.

(** [AccumDict.__add__] and [__iadd__] with a dictionary of lists: the
    lists of a common key are concatenated. *)
Definition accum_add (acc other : gmap Z (list Source))
  : gmap Z (list Source) :=
  union_with (fun l1 l2 => Some (l1 ++ l2)) acc other.

Definition row_of (out : SourceInfo) : SourceInfoRow :=
  {| row_trt_model_id := si_trt_model_id out;
     row_source_id := String.substring 0 20 (si_source_id out);
     row_source_class := String.substring 0 20 (si_source_class out);
     row_split_num := Z.of_nat (length (si_sources out));
     row_filter_time := si_filter_time out;
     row_split_time := si_split_time out |}.

(** [agg_source_info]; the first component is [self.outs]. *)
Definition agg_source_info (st : list SourceInfo * gmap Z (list Source))
    (out : SourceInfo) : list SourceInfo * gmap Z (list Source) :=
  (st.1 ++ [out],
   accum_add st.2 {[ si_trt_model_id out := si_sources out ]}).

(** Calling [f] on the elements of a list in turn, up to the first
    exception. *)
Fixpoint map_result {A B : Type} (f : A -> result B) (l : list A)
  : result (list B) :=
  match l with
  | [] => Ok []
  | x :: l' =>
      match f x with
      | Raise e => Raise e
      | Ok y =>
          match map_result f l' with
          | Raise e => Raise e
          | Ok ys => Ok (y :: ys)
          end
      end
  end.

Definition is_fast (src : Source) : bool :=
  bool_decide (source_class src ∈ ["PointSource"; "AreaSource"]).

(** The sources that the results [outs] hold for the group [id], and
    the sources derived for the group [id] from [sources]: what
    [filter_and_split] gives for those of them that carry this id. *)
Definition sources_of_id (outs : list SourceInfo) (id : Z) : list Source :=
  out ← outs;
  if bool_decide (si_trt_model_id out = id) then si_sources out else [].

Definition derived_sources (self : SourceProcessor) (sources : list Source)
    (id : Z) : list Source :=
  src ← sources;
  match filter_and_split src self with
  | Ok out =>
      if bool_decide (si_trt_model_id out = id) then si_sources out else []
  | Raise _ => []
  end.

(** The last loop of [process]: every group gets the sources found for
    its id, sorted by [source_id]; a group left without source is
    reported.  The result is the groups and the warnings. *)
Definition update_trt_models (sources_by_trt : gmap Z (list Source))
    (source_model : SourceModel) : SourceModel * list event :=
  let updated :=
    map (fun trt_model =>
           set_tm_sources
             (sorted_by
                (fun y x => String.ltb (source_id y) (source_id x))
                (default [] (sources_by_trt !! tm_id trt_model)))
             trt_model)
        (sm_trt_models source_model) in
  (set_sm_trt_models updated source_model,
   tm ← updated;
   if bool_decide (tm_sources tm = [])
   then [WarnNoSources (sm_name source_model) (sm_path source_model)
           (tm_trt tm)]
   else []).

(** [SourceProcessor.process]: the model after the call, the two times
    returned and the warnings. *)
Definition SourceProcessor_process (self : SourceProcessor)
    (csm : CompositeSourceModel)
  : result (CompositeSourceModel * (Qc * Qc) * list event) :=
  let '(csm1, sources) := CompositeSourceModel_get_sources csm in
  let fast_sources := filter (fun src => is_fast src = true) sources in
  let slow_sources := filter (fun src => is_fast src <> true) sources in
  let log1 :=
    match slow_sources with
    | [] => []
    | _ :: _ => [WarnParallel (length slow_sources)]
    end in
  let log2 :=
    match fast_sources with
    | [] => log1
    | _ :: _ => log1 ++ [WarnSequential (length fast_sources)]
    end in
  match map_result (fun src => filter_and_split src self) fast_sources with
  | Raise e => Raise e
  | Ok fast_outs =>
      let '(outs1, fast_acc) := foldl agg_source_info ([], ∅) fast_outs in
      let seqtime :=
        match fast_sources with [] => 0%Qc | _ :: _ => sequential_elapsed end in
      let sources_by_trt1 :=
        match fast_sources with
        | [] => ∅
        | _ :: _ => accum_add ∅ fast_acc
        end in
      match map_result (fun src => filter_and_split src self) slow_sources
      with
      | Raise e => Raise e
      | Ok slow_outs =>
          let '(outs2, slow_acc) :=
            foldl agg_source_info (outs1, ∅)
                  (completion_order SourceInfo slow_outs) in
          let sources_by_trt := accum_add sources_by_trt1 slow_acc in
          let partime :=
            match slow_sources with
            | [] => 0%Qc
            | _ :: _ => parallel_elapsed
            end in
          let rows :=
            sorted_by
              (fun y x =>
                 bool_decide
                   (row_filter_time x + row_split_time x
                    < row_filter_time y + row_split_time y)%Qc)
              (row_of <$> outs2) in
          let updated :=
            update_trt_models sources_by_trt <$> source_models csm1 in
          Ok (set_source_info rows
                (set_source_models (updated.*1) csm1),
              (seqtime, partime),
              log2 ++ concat (updated.*2))
      end
  end.

End Processor.

(** ** Auxiliary notions *)


(** ** Sample data *)

Definition gsim_rlz_BA2008 : GsimRlz :=
  {| gr_value := ["BooreAtkinson2008"]; gr_weight := 1%Qc;
     gr_lt_path := ["b1"]; gr_uid := "BA2008" |}.



(** A logic tree given in extension: its tectonic region types, the GSIMs
    admitted for each of them and its realizations.  Sampling picks the
    realizations cyclically, starting at the position given by the seed. *)
Record ListTree : Type := {
  lt_trts : list string;
  lt_values : gmap string (list string);
  lt_rlzs : list GsimRlz
}.

Definition index_of (x : string) (l : list string) : nat :=
  default 0%nat (fst <$> list_find (fun y => y = x) l).

Definition ListTree_sample (t : ListTree) (n seed : Z) : list GsimRlz :=
  omap (fun i => lt_rlzs t !!
                 Z.to_nat ((seed + i) `mod` Z.of_nat (length (lt_rlzs t))))
       (seqZ 0 n).

#[export] Instance list_tree : LogicTree := {|
  GsimLogicTree := ListTree;
  tectonic_region_types := lt_trts;
  all_trts := lt_trts;
  values := lt_values;
  get_gsim_by_trt t rlz trt :=
    default "" (gr_value rlz !! index_of trt (lt_trts t));
  reduce t trts :=
    {| lt_trts := filter (fun x => x ∈ trts) (lt_trts t);
       lt_values := filter (fun kv => kv.1 ∈ trts) (lt_values t);
       lt_rlzs := lt_rlzs t |};
  sample := ListTree_sample;
  get_effective_rlzs := lt_rlzs
|}.

Definition gsim_rlz_CB2008 : GsimRlz :=
  {| gr_value := ["CampbellBozorgnia2008"]; gr_weight := Q2Qc (2 # 5);
     gr_lt_path := ["b2"]; gr_uid := "CB2008" |}.

Definition gsim_rlz_BA2008_w : GsimRlz :=
  {| gr_value := ["BooreAtkinson2008"]; gr_weight := Q2Qc (3 # 5);
     gr_lt_path := ["b1"]; gr_uid := "BA2008" |}.

Definition active_shallow : string := "Active Shallow Crust".

Definition tree_two_gsims : ListTree :=
  {| lt_trts := [active_shallow];
     lt_values :=
       {[ active_shallow :=
            ["BooreAtkinson2008"; "CampbellBozorgnia2008"] ]};
     lt_rlzs := [gsim_rlz_BA2008_w; gsim_rlz_CB2008] |}.

(** A group of the given id with one rupture counted and no source. *)
Definition group_of_id (i : Z) : TrtModel :=
  {| tm_trt := active_shallow; tm_sources := []; tm_num_ruptures := 1;
     tm_min_mag := None; tm_max_mag := None; tm_gsims := []; tm_id := i |}.

(** A source model with one group; its ordinal is also its group's id. *)
Definition model_of (name : string) (w : Qc) (i samples : Z)
  : SourceModel :=
  {| sm_name := name; sm_weight := w; sm_path := [name];
     sm_trt_models := [group_of_id i]; sm_gsim_lt := tree_two_gsims;
     sm_ordinal := i; sm_samples := samples |}.

(** Four models with sample counts 1, 3, 1 and 2. *)
Definition models_1_3_1_2 : list SourceModel :=
  [model_of "SM0" (Q2Qc (1 # 4)) 0 1; model_of "SM1" (Q2Qc (1 # 4)) 1 3;
   model_of "SM2" (Q2Qc (1 # 4)) 2 1; model_of "SM3" (Q2Qc (1 # 4)) 3 2].

(** The association and the results of the docstring of [combine]. *)
Definition doctest_assoc : RlzsAssoc (string * string) string :=
  RlzsAssoc_init (CompositionInfo_init [])
    (Some (list_to_map
       [(("T1", "A"), ["r0"; "r1"]);
        (("T1", "B"), ["r2"; "r3"]);
        (("T1", "C"), ["r4"; "r5"]);
        (("T2", "D"), ["r0"; "r2"; "r4"]);
        (("T2", "E"), ["r1"; "r3"; "r5"])])).

Definition doctest_results : list (string * string * Qc) :=
  [(("T1", "A"), Q2Qc (1 # 100));
   (("T1", "B"), Q2Qc (2 # 100));
   (("T1", "C"), Q2Qc (3 # 100));
   (("T2", "D"), Q2Qc (4 # 100));
   (("T2", "E"), Q2Qc (5 # 100))].

Definition doctest_combinations : gmap string Qc :=
  list_to_map
    [("r0", Q2Qc (5 # 100)); ("r1", Q2Qc (6 # 100));
     ("r2", Q2Qc (6 # 100)); ("r3", Q2Qc (7 # 100));
     ("r4", Q2Qc (7 # 100)); ("r5", Q2Qc (8 # 100))].

(** The same association with seven realizations under two source models;
    no key reaches the seventh. *)
Definition assoc_seven : RlzsAssoc (string * string) string :=
  set_rlzs_by_smodel
    [(0, ["r0"; "r1"; "r2"; "r3"; "r4"; "r5"]); (1, ["r6"])] doctest_assoc.

Definition one_result : list (string * string * Qc) :=
  [(("T1", "A"), Q2Qc (1 # 100))].

Definition one_curve : list (string * string * list Z) :=
  [(("T1", "B"), [1; 2])].

(** A logic tree without any realization, and a source model that has it:
    its one group counts no rupture. *)
Definition tree_without_rlzs : ListTree :=
  {| lt_trts := []; lt_values := ∅; lt_rlzs := [] |}.

Definition model_without_rlzs (name : string) (w : Qc) (i : Z)
  : SourceModel :=
  {| sm_name := name; sm_weight := w; sm_path := [name];
     sm_trt_models :=
       [{| tm_trt := active_shallow; tm_sources := [];
           tm_num_ruptures := 0; tm_min_mag := None; tm_max_mag := None;
           tm_gsims := []; tm_id := i |}];
     sm_gsim_lt := tree_without_rlzs; sm_ordinal := i; sm_samples := 1 |}.



Definition csm_sampling_empty : CompositeSourceModel :=
  CompositeSourceModel_init {| seed := 42; num_samples := 2 |}
    [model_without_rlzs "SM0" 1%Qc 0].

(** Sampling 7 times: the four models drawn 1, 3, 1 and 2 times; and
    sampling 6 times, the second model being drawn twice. *)
Definition csm_sampling : CompositeSourceModel :=
  CompositeSourceModel_init {| seed := 42; num_samples := 7 |}
    models_1_3_1_2.

Definition csm_sampling_fewer : CompositeSourceModel :=
  CompositeSourceModel_init {| seed := 42; num_samples := 6 |}
    [model_of "SM0" (Q2Qc (1 # 4)) 0 1; model_of "SM1" (Q2Qc (1 # 4)) 1 2;
     model_of "SM2" (Q2Qc (1 # 4)) 2 1; model_of "SM3" (Q2Qc (1 # 4)) 3 2].

(** A stand-in for hazardlib: a source is within reach of the sites when
    its largest magnitude is at least the given distance divided by 100;
    an area source is split in two point sources, any other source is left
    whole; the results of the tasks come back in reverse order. *)
Definition near_enough (src : Source) (dist : Qc) (sites : list string)
  : option (list string) :=
  if bool_decide (dist <= (get_min_max_mag src).2 * Q2Qc 100)%Qc
  then Some sites else None.

Definition split_in_two (src : Source) (asd : Qc) : list Source :=
  if bool_decide (source_class src = "AreaSource") then
    [{| source_id := source_id src +:+ ":0"; source_class := "PointSource";
        tectonic_region_type := tectonic_region_type src;
        get_min_max_mag := get_min_max_mag src;
        count_ruptures := count_ruptures src `div` 2;
        trt_model_id := trt_model_id src; src_weight := src_weight src |};
     {| source_id := source_id src +:+ ":1"; source_class := "PointSource";
        tectonic_region_type := tectonic_region_type src;
        get_min_max_mag := get_min_max_mag src;
        count_ruptures := count_ruptures src `div` 2;
        trt_model_id := trt_model_id src; src_weight := src_weight src |}]
  else [src].

#[export] Instance sample_hazardlib : HazardLib := {|
  SiteCollection := list string;
  filter_sites_by_distance_to_source := near_enough;
  split_source := split_in_two;
  filter_elapsed src := Q2Qc (1 # 1000);
  split_elapsed src := Q2Qc (Z.of_nat (String.length (source_id src)) # 1000);
  sequential_elapsed := Q2Qc (1 # 10);
  parallel_elapsed := Q2Qc (2 # 10);
  completion_order A := @reverse A;
  completion_order_perm A := @reverse_Permutation A
|}.

Definition source_of (id class trt : string) (mag : Qc) (n : Z) : Source :=
  {| source_id := id; source_class := class; tectonic_region_type := trt;
     get_min_max_mag := (Q2Qc 4, mag); count_ruptures := n;
     trt_model_id := Some 0; src_weight := 0%Qc |}.

Definition stable_shallow : string := "Stable Shallow Crust".

(** One source model with a group of four sources, given out of order,
    and a group whose only source is too far from the sites. *)
Definition csm_two_groups : CompositeSourceModel :=
  CompositeSourceModel_init {| seed := 42; num_samples := 0 |}
    [{| sm_name := "SM0"; sm_weight := 1%Qc; sm_path := ["SM0"];
        sm_trt_models :=
          [{| tm_trt := active_shallow;
              tm_sources :=
                [source_of "f2" "SimpleFaultSource" active_shallow
                   (Q2Qc 7) 30;
                 source_of "a1" "AreaSource" active_shallow (Q2Qc 6) 40;
                 source_of "f1" "ComplexFaultSource" active_shallow
                   (Q2Qc 8) 20;
                 source_of "p1" "PointSource" active_shallow (Q2Qc 6) 10];
              tm_num_ruptures := 100; tm_min_mag := Some (Q2Qc 4);
              tm_max_mag := Some (Q2Qc 8); tm_gsims := []; tm_id := 0 |};
           {| tm_trt := stable_shallow;
              tm_sources :=
                [source_of "s1" "PointSource" stable_shallow (Q2Qc 1) 5];
              tm_num_ruptures := 5; tm_min_mag := Some (Q2Qc 4);
              tm_max_mag := Some (Q2Qc 1); tm_gsims := []; tm_id := 1 |}];
        sm_gsim_lt := tree_two_gsims; sm_ordinal := 0; sm_samples := 1 |}].

Definition processor_200km : SourceProcessor :=
  {| sitecol := Some ["site"]; maxdist := Q2Qc 200; asd := Q2Qc 10 |}.

(** ** Further operations *)

Section FurtherComposition.

Context {LT : LogicTree}.

(** [CompositionInfo.get_max_samples]: 1 when [_num_samples] is empty,
    the largest of its values otherwise. *)
Definition CompositionInfo_get_max_samples (self : CompositionInfo) : Z :=
  match (map_to_list (num_samples_dict self)).*2 with
  | [] => 1
  | v :: values => foldl Z.max v values
  end.

(** [CompositionInfo.get_col_ids]. *)
Definition CompositionInfo_get_col_ids (self : CompositionInfo)
    (rlz : LtRealization) : gset Z :=
  if bool_decide (col_ids rlz <> ∅) then col_ids rlz
  else
    list_to_set
      (sm ← info_source_models self;
       if bool_decide (sm_path sm = sm_lt_path rlz)
       then tm_id <$> sm_trt_models sm else []).

(** [CompositionInfo.get_trt_id]: the first item of [_col_dict], in the
    order in which the dictionary gives them, whose value is [col_id]. *)
Definition CompositionInfo_get_trt_id (self : CompositionInfo) (col_id : Z)
  : result Z :=
  match list_find (fun kv : Z * Z * Z => kv.2 = col_id)
          (map_to_list (col_dict self)) with
  | Some (_, ((trt_id, _), _)) => Ok trt_id
  | None => Raise KeyError
  end.

(** What a source model does to [_num_samples]. *)
Definition num_samples_step (ns : gmap Z Z) (sm : SourceModel) : gmap Z Z :=
  if bool_decide (sm_samples sm > 1)
  then foldl (fun ns tm => <[tm_id tm := sm_samples sm]> ns) ns
         (sm_trt_models sm)
  else ns.

End FurtherComposition.

Section FurtherBuilding.

Context {LT : LogicTree}.

Definition add_col_ids (cs : gset Z) (r : LtRealization) : LtRealization :=
  {| ordinal := ordinal r; sm_lt_path := sm_lt_path r;
     gsim_rlz := gsim_rlz r; weight := weight r;
     col_ids := cs ∪ col_ids r |}.

(** The keys of [rlzs_assoc] under which a realization of the logic tree
    goes: one per group, made of the id of the group and of the GSIM that
    the realization has for the tectonic region type of the group. *)
Definition assoc_keys (gsim_lt : GsimLogicTree) (gsim_rlz : GsimRlz)
    (trt_models : list TrtModel) : list (Z * string) :=
  (fun tm => (tm_id tm, get_gsim_by_trt gsim_lt gsim_rlz (tm_trt tm))) <$>
  trt_models.

(** The collection ids of the [i]-th sample of the given groups. *)
Definition group_col_ids (info : CompositionInfo) (i : Z)
    (trt_models : list TrtModel) : gset Z :=
  list_to_set
    (tm ← trt_models;
     match CompositionInfo_get_col_id info (tm_id tm) i with
     | Ok col_id => [col_id]
     | Raise _ => []
     end).

(** The realization object that [_add_realizations] makes for the
    [k]-th realization [gsim_rlz] of the logic tree of [lt_model], when
    [idx] is the ordinal of the first one. *)
Definition new_realization (info : CompositionInfo) (lt_model : SourceModel)
    (idx : Z) (k : nat) (gsim_rlz : GsimRlz) : LtRealization :=
  {| ordinal := idx + Z.of_nat k; sm_lt_path := sm_path lt_model;
     gsim_rlz := gsim_rlz;
     weight := (sm_weight lt_model * gr_weight gsim_rlz)%Qc;
     col_ids :=
       if bool_decide (sm_samples lt_model > 1)
       then group_col_ids info (Z.of_nat k) (sm_trt_models lt_model)
       else ∅ |}.

(** The references of the reverse index point into the store. *)
Definition index_refs_valid (st : Building) : Prop :=
  forall key (x : nat),
    x ∈ default [] (rlzs_assoc (b_assoc st) !! key) ->
    (x < length (b_heap st))%nat.

(** Two realization objects that differ at most in their weights. *)
Definition same_but_weight (a b : LtRealization) : Prop :=
  b = set_weight (weight b) a.

End FurtherBuilding.

(** ** CompositionInfo: the triples *)

(** The order of Python on pairs of integers, and on the items
    [((trt_id, idx), col_id)] of [_col_dict]: the first components that
    differ decide. *)
Definition key_lt (a b : Z * Z) : Prop :=
  a.1 < b.1 \/ (a.1 = b.1 /\ a.2 < b.2).

Definition item_lt (x y : Z * Z * Z) : bool :=
  bool_decide
    (x.1.1 < y.1.1 \/
     (x.1.1 = y.1.1 /\
      (x.1.2 < y.1.2 \/ (x.1.2 = y.1.2 /\ x.2 < y.2)))).

Section Triples.

Context {LT : LogicTree}.

(** [get_triples]: the items of [_col_dict], sorted, each one as a
    triple. *)
Definition CompositionInfo_get_triples (self : CompositionInfo)
  : list (Z * Z * Z) :=
  (fun '((trt_id, idx), col_id) => (trt_id, idx, col_id)) <$>
  sorted_by item_lt (map_to_list (col_dict self)).

End Triples.

(** ** TrtModel: the constructor and the parsers *)

(** The loop [for src in self.sources: self.update(src)] of
    [TrtModel.__init__] goes through the very list that [update] appends
    to: the iterator holds a position and stops when the position is at
    the end of the list as it is at that moment.  [fuel] bounds the number
    of rounds; [None] is a loop still running when the fuel is spent.  An
    exception of [update] leaves the constructor. *)
Fixpoint TrtModel_init_loop (fuel : nat) (self : TrtModel) (i : nat)
  : option (TrtModel * result unit) :=
  match fuel with
  | O => None
  | S fuel' =>
      match tm_sources self !! i with
      | None => Some (self, Ok tt)
      | Some src =>
          match TrtModel_update self src with
          | (self', Ok _) => TrtModel_init_loop fuel' self' (S i)
          | (self', Raise e) => Some (self', Raise e)
          end
      end
  end.

(** [TrtModel.__init__]; a missing [sources] or [gsims] is the empty
    list. *)
Definition TrtModel_init (fuel : nat) (trt : string) (sources : list Source)
    (num_ruptures : Z) (min_mag max_mag : option Qc) (gsims : list string)
    (id : Z) : option (TrtModel * result unit) :=
  TrtModel_init_loop fuel
    {| tm_trt := trt; tm_sources := sources;
       tm_num_ruptures := num_ruptures; tm_min_mag := min_mag;
       tm_max_mag := max_mag; tm_gsims := gsims; tm_id := id |} 0.

(** [TrtModel(trt)]: with no source the loop of the constructor does
    nothing. *)
Definition TrtModel_new (trt : string) : TrtModel :=
  {| tm_trt := trt; tm_sources := []; tm_num_ruptures := 0;
     tm_min_mag := None; tm_max_mag := None; tm_gsims := []; tm_id := 0 |}.

(** [sorted(source_stats_dict.itervalues())]: the values of the
    dictionary, in the order in which the dictionary gives them, sorted
    with [TrtModel.__lt__]. *)
Definition sorted_values (source_stats_dict : gmap string TrtModel)
  : list TrtModel :=
  sorted_by TrtModel_lt (map_to_list source_stats_dict).*2.

(** How [parse_source_model] ends: with the sorted groups, with
    [DuplicatedID] or with another exception. *)
Inductive parse_outcome (A : Type) : Type :=
| Parsed (x : A)
| DuplicatedID (source_id : string)
| ParseRaise (e : exn).

Arguments Parsed {A} x.
Arguments DuplicatedID {A} source_id.
Arguments ParseRaise {A} e.

(** One round of the loop of [parse_source_model], on the converted
    source [src]; the state is [source_stats_dict] and [source_ids].
    [apply_uncertainties] changes the source in place; here it gives the
    changed source. *)
Definition parse_step (apply_uncertainties : Source -> Source)
    (st : gmap string TrtModel * gset string) (src : Source)
  : parse_outcome (gmap string TrtModel * gset string) :=
  let '(source_stats_dict, source_ids) := st in
  if bool_decide (source_id src ∈ source_ids) then
    DuplicatedID (source_id src)
  else
    let src1 := apply_uncertainties src in
    let trt := tectonic_region_type src1 in
    let dict1 :=
      match source_stats_dict !! trt with
      | None => <[trt := TrtModel_new trt]> source_stats_dict
      | Some _ => source_stats_dict
      end in
    match dict1 !! trt with
    | None => ParseRaise KeyError
    | Some tm =>
        match TrtModel_update tm src1 with
        | (tm', Ok _) =>
            Parsed (<[trt := tm']> dict1, source_ids ∪ {[source_id src1]})
        | (_, Raise e) => ParseRaise e
        end
    end.

Fixpoint parse_loop (apply_uncertainties : Source -> Source)
    (st : gmap string TrtModel * gset string) (srcs : list Source)
  : parse_outcome (gmap string TrtModel * gset string) :=
  match srcs with
  | [] => Parsed st
  | src :: rest =>
      match parse_step apply_uncertainties st src with
      | Parsed st' => parse_loop apply_uncertainties st' rest
      | DuplicatedID i => DuplicatedID i
      | ParseRaise e => ParseRaise e
      end
  end.

(** [parse_source_model], from the sources that the converter makes of
    the nodes of the file, in the order of the file.  The progress
    messages of [logging.info] are left out. *)
Definition parse_source_model (apply_uncertainties : Source -> Source)
    (srcs : list Source) : parse_outcome (list TrtModel) :=
  match parse_loop apply_uncertainties (∅, ∅) srcs with
  | Parsed (source_stats_dict, _) => Parsed (sorted_values source_stats_dict)
  | DuplicatedID i => DuplicatedID i
  | ParseRaise e => ParseRaise e
  end.

(** One round of the loop of [TrtModel.collect]; the tectonic region
    type of a source is what it has under the key ['tectonicRegion']. *)
Definition collect_step (source_stats_dict : gmap string TrtModel)
    (src : Source) : result (gmap string TrtModel) :=
  let trt := tectonic_region_type src in
  let dict1 :=
    match source_stats_dict !! trt with
    | None => <[trt := TrtModel_new trt]> source_stats_dict
    | Some _ => source_stats_dict
    end in
  match dict1 !! trt with
  | None => Raise KeyError
  | Some tm =>
      match tm_sources tm with
      | [] =>
          let tm1 := set_tm_num_ruptures 1 tm in
          Ok (<[trt := set_tm_sources (tm_sources tm1 ++ [src]) tm1]> dict1)
      | _ :: _ => Ok dict1
      end
  end.

(** [TrtModel.collect]. *)
Definition TrtModel_collect (sources : list Source)
  : result (list TrtModel) :=
  match
    foldl (fun acc src => bind_result acc (fun d => collect_step d src))
          (Ok ∅) sources
  with
  | Raise e => Raise e
  | Ok source_stats_dict => Ok (sorted_values source_stats_dict)
  end.

(** The group that the calls of [update] make of the sources [ss], from
    [TrtModel(trt)]. *)
Definition group_of (trt : string) (ss : list Source) : TrtModel :=
  foldl (fun tm src => (TrtModel_update tm src).1) (TrtModel_new trt) ss.

(** The sources of the tectonic region type [trt]. *)
Definition of_trt (trt : string) (srcs : list Source) : list Source :=
  filter (fun src => tectonic_region_type src = trt) srcs.

(** The dictionary of groups and the set of ids after the sources
    [done] have gone through the loop of [parse_source_model]. *)
Definition parse_inv (st : gmap string TrtModel * gset string)
    (done : list Source) : Prop :=
  st.2 = list_to_set (source_id <$> done) /\
  forall trt,
    st.1 !! trt =
    match of_trt trt done with
    | [] => None
    | _ :: _ => Some (group_of trt (of_trt trt done))
    end.

(** The ordinal of every object of the store is its position. *)
Definition ordinals_are_positions (heap : list LtRealization) : Prop :=
  forall (r : nat) rlz, heap !! r = Some rlz -> ordinal rlz = Z.of_nat r.

(** The dictionary of [TrtModel.collect] after the sources [done]:
    under every tectonic region type that occurs, a group with the first
    source of this type. *)
Definition collect_inv (d : gmap string TrtModel) (done : list Source)
  : Prop :=
  forall trt,
    d !! trt =
    match of_trt trt done with
    | [] => None
    | src :: _ =>
        Some {| tm_trt := trt; tm_sources := [src]; tm_num_ruptures := 1;
                tm_min_mag := None; tm_max_mag := None; tm_gsims := [];
                tm_id := 0 |}
    end.

(** ** CompositeSourceModel: counting *)

Section Counting.

Context {LT : LogicTree}.

(** [get_num_sources]: [len(self.get_sources())]. *)
Definition CompositeSourceModel_get_num_sources
    (self : CompositeSourceModel) : Z :=
  Z.of_nat (length (CompositeSourceModel_get_sources self).2).

End Counting.

(** ** Further sample data *)

(** Three models sampled once, their groups numbered 0, 1 and 2. *)
Definition models_sampled_once : list SourceModel :=
  [model_of "SM0" (Q2Qc (1 # 2)) 0 1; model_of "SM1" (Q2Qc (1 # 4)) 1 1;
   model_of "SM2" (Q2Qc (1 # 4)) 2 1].

(** Three sources of two tectonic region types, as a file gives them. *)
Definition sources_of_file : list Source :=
  [source_of "f2" "SimpleFaultSource" active_shallow (Q2Qc 7) 30;
   source_of "s1" "PointSource" stable_shallow (Q2Qc 5) 5;
   source_of "a1" "AreaSource" active_shallow (Q2Qc 6) 40].

(** * Properties *)

Lemma lower_union_step (prev : option Qc) (m : Qc) :
  is_lower_union prev m
    match prev with
    | None => m
    | Some p => if bool_decide (m < p)%Qc then m else p
    end.
Proof.
  destruct prev as [p|]; simpl.
  - case_bool_decide as Hlt; split.
    + apply Qcle_refl.
    + split; [apply Qclt_le_weak, Hlt | now right].
    + apply Qcnot_lt_le, Hlt.
    + split; [apply Qcle_refl | now left].
  - split; [apply Qcle_refl | reflexivity].
Qed.

Lemma upper_union_step (prev : option Qc) (m : Qc) :
  is_upper_union prev m
    match prev with
    | None => m
    | Some p => if bool_decide (p < m)%Qc then m else p
    end.
Proof.
  destruct prev as [p|]; simpl.
  - case_bool_decide as Hlt; split.
    + apply Qcle_refl.
    + split; [apply Qclt_le_weak, Hlt | now right].
    + apply Qcnot_lt_le, Hlt.
    + split; [apply Qcle_refl | now left].
  - split; [apply Qcle_refl | reflexivity].
Qed.

Lemma TrtModel_update_same_trt (self : TrtModel) (src : Source) :
  tectonic_region_type src = tm_trt self ->
  TrtModel_update self src =
    ({| tm_trt := tm_trt self;
        tm_sources := tm_sources self ++ [src];
        tm_num_ruptures := tm_num_ruptures self;
        tm_min_mag :=
          Some match tm_min_mag self with
               | None => fst (get_min_max_mag src)
               | Some p =>
                   if bool_decide (fst (get_min_max_mag src) < p)%Qc
                   then fst (get_min_max_mag src) else p
               end;
        tm_max_mag :=
          Some match tm_max_mag self with
               | None => snd (get_min_max_mag src)
               | Some p =>
                   if bool_decide (p < snd (get_min_max_mag src))%Qc
                   then snd (get_min_max_mag src) else p
               end;
        tm_gsims := tm_gsims self;
        tm_id := tm_id self |}, Ok tt).
Proof.
  intros Htrt. unfold TrtModel_update.
  rewrite bool_decide_eq_true_2 by exact Htrt.
  destruct (get_min_max_mag src) as [mn mx].
  destruct self as [t ss n [p|] [q|] g i]; simpl;
    try destruct (bool_decide (mn < p)%Qc); simpl;
    try destruct (bool_decide (q < mx)%Qc); reflexivity.
Qed.

Lemma TrtModel_update_other_trt (self : TrtModel) (src : Source) :
  tectonic_region_type src <> tm_trt self ->
  TrtModel_update self src = (self, Raise AssertionError).
Proof.
  intros Htrt. unfold TrtModel_update.
  now rewrite bool_decide_eq_false_2 by exact Htrt.
Qed.

(** C7. [update] fails exactly when the source's category differs from the
    group's, and then the group is unchanged; otherwise it succeeds, the
    source is appended at the end, the new bounds are the smallest and the
    largest of the previous bounds (when set) and the source's own, and the
    other attributes are kept. *)
Theorem TrtModel_update_spec (self : TrtModel) (src : Source) :
  let '(self', out) := TrtModel_update self src in
  (raises out <-> tectonic_region_type src <> tm_trt self) /\
  (raises out -> self' = self /\ out = Raise AssertionError) /\
  (~ raises out ->
     out = Ok tt /\
     tm_sources self' = tm_sources self ++ [src] /\
     (exists lo, tm_min_mag self' = Some lo /\
        is_lower_union (tm_min_mag self) (fst (get_min_max_mag src)) lo) /\
     (exists hi, tm_max_mag self' = Some hi /\
        is_upper_union (tm_max_mag self) (snd (get_min_max_mag src)) hi) /\
     tm_trt self' = tm_trt self /\ tm_id self' = tm_id self /\
     tm_num_ruptures self' = tm_num_ruptures self /\
     tm_gsims self' = tm_gsims self).
Proof.
  destruct (decide (tectonic_region_type src = tm_trt self)) as [Htrt|Htrt].
  - rewrite (TrtModel_update_same_trt _ _ Htrt); simpl.
    split; [split; [intros [] | intros Hne; now elim Hne] |].
    split; [intros [] |].
    intros _. split; [reflexivity |]. split; [reflexivity |].
    split; [eexists; split; [reflexivity | apply lower_union_step] |].
    split; [eexists; split; [reflexivity | apply upper_union_step] |].
    repeat split.
  - rewrite (TrtModel_update_other_trt _ _ Htrt); simpl.
    split; [split; [intros _; exact Htrt | intros _; exact I] |].
    split; [intros _; split; reflexivity | intros Hn; now elim Hn].
Qed.

(** ** LtRealization: equality and hash *)









(** ** CompositionInfo: allocation of collection ids *)

Section CompositionProperties.

Context {LT : LogicTree}.

Lemma numbered_inserts_nil c d : numbered_inserts c [] d = d.
Proof. reflexivity. Qed.

Lemma numbered_inserts_cons c key keys d :
  numbered_inserts c (key :: keys) d =
  numbered_inserts (c + 1) keys (<[key := c]> d).
Proof.
  unfold numbered_inserts. rewrite imap_cons. simpl.
  rewrite Z.add_0_r. f_equal. apply imap_ext. intros i x _. simpl.
  f_equal. lia.
Qed.

Lemma numbered_inserts_app c keys1 keys2 d :
  numbered_inserts c (keys1 ++ keys2) d =
  numbered_inserts (c + Z.of_nat (length keys1)) keys2
    (numbered_inserts c keys1 d).
Proof.
  revert c d. induction keys1 as [|k keys1 IH]; intros c d.
  - simpl. now rewrite Z.add_0_r.
  - simpl app. rewrite !numbered_inserts_cons, IH. f_equal.
    simpl length. lia.
Qed.

Lemma init_idx_loop_spec trt_id samples d c :
  init_idx_loop trt_id samples (d, c) =
  (numbered_inserts c (map (pair trt_id) (seqZ 0 samples)) d,
   c + Z.of_nat (length (seqZ 0 samples))).
Proof.
  unfold init_idx_loop. generalize (seqZ 0 samples) as l.
  intros l. revert d c. induction l as [|i l IH]; intros d c.
  - simpl. now rewrite Z.add_0_r.
  - simpl foldl. rewrite IH. simpl map. rewrite numbered_inserts_cons.
    f_equal. simpl length. lia.
Qed.

Lemma bind_singleton_map {A B} (f : A -> B) (l : list A) :
  (x ← l; [f x]) = map f l.
Proof.
  induction l as [|a l IH]; [reflexivity |].
  rewrite bind_cons, IH. reflexivity.
Qed.

Lemma init_trt_loop_spec sm d ns c :
  exists ns',
    init_trt_loop sm (d, ns, c) =
    (numbered_inserts c (walk_model sm) d, ns',
     c + Z.of_nat (length (walk_model sm))).
Proof.
  unfold init_trt_loop, walk_model.
  generalize (sm_trt_models sm) as tms. intros tms. revert d ns c.
  induction tms as [|tm tms IH]; intros d ns c.
  - exists ns. simpl. now rewrite Z.add_0_r.
  - simpl foldl. rewrite init_idx_loop_spec.
    edestruct IH as [ns' ->]. exists ns'.
    rewrite bind_cons, numbered_inserts_app, length_app.
    rewrite bind_singleton_map, length_map. f_equal. lia.
Qed.

Lemma init_models_loop_spec sms d ns c :
  exists ns',
    foldl (fun st sm => init_trt_loop sm st) (d, ns, c) sms =
    (numbered_inserts c (walk sms) d, ns',
     c + Z.of_nat (length (walk sms))).
Proof.
  unfold walk. revert d ns c.
  induction sms as [|sm sms IH]; intros d ns c.
  - exists ns. simpl. now rewrite Z.add_0_r.
  - simpl foldl. destruct (init_trt_loop_spec sm d ns c) as [ns1 ->].
    edestruct IH as [ns' ->]. exists ns'.
    rewrite bind_cons, numbered_inserts_app, length_app.
    fold (walk_model sm). f_equal. lia.
Qed.

Lemma CompositionInfo_init_col_dict sms :
  col_dict (CompositionInfo_init sms) = numbered_inserts 0 (walk sms) ∅ /\
  num_collections (CompositionInfo_init sms) = Z.of_nat (length (walk sms)).
Proof.
  unfold CompositionInfo_init.
  destruct (init_models_loop_spec sms ∅ ∅ 0) as [ns' ->]. simpl.
  split; [reflexivity | lia].
Qed.

Lemma numbered_inserts_snoc c keys key d :
  numbered_inserts c (keys ++ [key]) d =
  <[key := c + Z.of_nat (length keys)]> (numbered_inserts c keys d).
Proof. now rewrite numbered_inserts_app, numbered_inserts_cons. Qed.

(** The entry of a key is the number of its last occurrence. *)
Lemma numbered_inserts_last c keys d (k : nat) key :
  keys !! k = Some key ->
  (forall k', (k < k')%nat -> keys !! k' <> Some key) ->
  numbered_inserts c keys d !! key = Some (c + Z.of_nat k).
Proof.
  revert k. induction keys as [|x keys IH] using rev_ind; intros k Hk Hlast.
  - discriminate Hk.
  - rewrite numbered_inserts_snoc.
    destruct (decide (x = key)) as [->|Hne].
    + rewrite lookup_insert_eq.
      destruct (decide (k = length keys)) as [->|Hkl]; [reflexivity |].
      exfalso. apply (Hlast (length keys)).
      * pose proof (lookup_lt_Some _ _ _ Hk) as Hlen.
        rewrite length_app in Hlen. simpl in Hlen. lia.
      * rewrite lookup_app_r by lia. now rewrite Nat.sub_diag.
    + rewrite lookup_insert_ne by exact Hne.
      assert (k < length keys)%nat as Hlt.
      { pose proof (lookup_lt_Some _ _ _ Hk) as Hlen.
        rewrite length_app in Hlen. simpl in Hlen.
        destruct (decide (k = length keys)) as [->|]; [| lia].
        rewrite lookup_app_r, Nat.sub_diag in Hk by lia.
        simpl in Hk. congruence. }
      apply IH.
      * now rewrite lookup_app_l in Hk.
      * intros k' Hk' Heq. apply (Hlast k' Hk').
        rewrite lookup_app_l; [exact Heq |]. now apply lookup_lt_Some in Heq.
Qed.

(** Every entry is the number of an occurrence of its key. *)
Lemma numbered_inserts_some c keys key v :
  numbered_inserts c keys ∅ !! key = Some v ->
  exists k : nat, v = c + Z.of_nat k /\ keys !! k = Some key.
Proof.
  induction keys as [|x keys IH] using rev_ind.
  - rewrite numbered_inserts_nil, lookup_empty. discriminate.
  - rewrite numbered_inserts_snoc.
    destruct (decide (x = key)) as [->|Hne].
    + rewrite lookup_insert_eq. intros [= <-]. exists (length keys).
      split; [reflexivity |]. rewrite lookup_app_r by lia.
      now rewrite Nat.sub_diag.
    + rewrite lookup_insert_ne by exact Hne. intros Hv.
      destruct (IH Hv) as (k & -> & Hk). exists k. split; [reflexivity |].
      rewrite lookup_app_l; [exact Hk |]. now apply lookup_lt_Some in Hk.
Qed.

Lemma length_walk sms :
  Z.of_nat (length (walk sms)) = groups_times_samples sms.
Proof.
  unfold walk. induction sms as [|sm sms IH]; [reflexivity |].
  rewrite bind_cons, length_app, Nat2Z.inj_add, IH. simpl. f_equal.
  generalize (sm_trt_models sm) as tms.
  induction tms as [|tm tms IHt]; [reflexivity |].
  rewrite bind_cons, length_app, Nat2Z.inj_add, IHt.
  rewrite bind_singleton_map, length_map, length_seqZ. simpl length. lia.
Qed.

(** C4, amended. The collection ids are the numbers 0, 1, 2, ... given to
    the pairs (group id, sample index) in the order models, groups, sample
    indices, every model contributing its sample count per group, whether
    it is oversampled or not: the dictionary sends a pair to the number of
    its (last) visit, holds nothing else, and the number of collections is
    the sum over all models of groups times sample count. *)
Theorem CompositionInfo_init_spec (source_models : list SourceModel) :
  let info := CompositionInfo_init source_models in
  (forall (k : nat) key,
     walk source_models !! k = Some key ->
     (forall k', (k < k')%nat -> walk source_models !! k' <> Some key) ->
     CompositionInfo_get_col_id info key.1 key.2 = Ok (Z.of_nat k)) /\
  (forall trt_id idx c,
     CompositionInfo_get_col_id info trt_id idx = Ok c ->
     exists k : nat, c = Z.of_nat k /\
       walk source_models !! k = Some (trt_id, idx)) /\
  num_collections info = Z.of_nat (length (walk source_models)) /\
  num_collections info = groups_times_samples source_models.
Proof.
  intros info. subst info.
  destruct (CompositionInfo_init_col_dict source_models) as [Hd Hn].
  unfold CompositionInfo_get_col_id. rewrite Hd, Hn.
  split; [| split; [| split]].
  - intros k [trt_id idx] Hk Hlast. simpl.
    now rewrite (numbered_inserts_last 0 _ _ k (trt_id, idx) Hk Hlast).
  - intros trt_id idx c.
    destruct (numbered_inserts 0 (walk source_models) ∅ !! (trt_id, idx))
      as [v|] eqn:Hv; [| discriminate].
    intros [= <-]. apply numbered_inserts_some in Hv.
    destruct Hv as (k & -> & Hk). now exists k.
  - reflexivity.
  - apply length_walk.
Qed.

End CompositionProperties.

(** C4, as stated, fails: with sample counts 1, 3, 1 and 2 and one group
    per model, the two models that are not oversampled receive an id each
    (0 and 4), and there are 7 collections, not 3 + 2. *)
Lemma CompositionInfo_init_counts_every_model :
  num_collections (CompositionInfo_init models_1_3_1_2) = 7 /\
  groups_times_samples (oversampled models_1_3_1_2) = 5 /\
  CompositionInfo_get_col_id (CompositionInfo_init models_1_3_1_2) 0 0 = Ok 0 /\
  CompositionInfo_get_col_id (CompositionInfo_init models_1_3_1_2) 1 0 = Ok 1 /\
  CompositionInfo_get_col_id (CompositionInfo_init models_1_3_1_2) 2 0 = Ok 4 /\
  CompositionInfo_get_col_id (CompositionInfo_init models_1_3_1_2) 3 1 = Ok 6.
Proof. vm_compute. repeat split. Qed.

(** ** RlzsAssoc: combine and combine_curves *)

Section AssociationProperties.

Context {LT : LogicTree} {Key : Type} `{Countable Key} {R : Type}.
Context {K : Type} `{Countable K} (rlz_key : R -> K).

Lemma foldl_commute_perm {A B : Type} (f : B -> A -> B) (l l' : list A) :
  (forall b x y, f (f b x) y = f (f b y) x) ->
  l ≡ₚ l' -> forall b, foldl f b l = foldl f b l'.
Proof.
  intros Hf Hp. induction Hp as [|x l l' _ IH|x y l|l l' l'' _ IH1 _ IH2];
    intros b; simpl.
  - reflexivity.
  - apply IH.
  - now rewrite Hf.
  - now rewrite IH1, IH2.
Qed.

Lemma fold_contribution_commute (agg : Qc -> Qc -> Qc) :
  (forall a b, agg a b = agg b a) ->
  (forall a b c, agg a (agg b c) = agg (agg a b) c) ->
  forall (ad : gmap K Qc) x y,
    fold_contribution agg (fold_contribution agg ad x) y =
    fold_contribution agg (fold_contribution agg ad y) x.
Proof.
  intros Hcomm Hassoc ad [k1 v1] [k2 v2]. unfold fold_contribution. simpl.
  destruct (decide (k1 = k2)) as [->|Hne].
  - rewrite !lookup_insert_eq, !insert_insert_eq. simpl. f_equal.
    rewrite <- !Hassoc. f_equal. apply Hcomm.
  - rewrite !lookup_insert_ne by congruence.
    apply insert_insert_ne. congruence.
Qed.

Lemma combine_rlzs_contributions (agg : Qc -> Qc -> Qc) (value : Qc)
    (ad : gmap K Qc) (rlzs : list R) :
  combine_rlzs rlz_key agg value ad rlzs =
  foldl (fold_contribution agg) ad
        (rlz ← rlzs; [(rlz_key rlz, value)]).
Proof.
  unfold combine_rlzs. revert ad.
  induction rlzs as [|r rlzs IH]; intros ad; [reflexivity |].
  rewrite bind_cons. simpl. apply IH.
Qed.

Lemma add_missing_lookup (m : gmap Key (list R)) (keys : list Key) (k : Key) :
  foldl add_missing m keys !! k =
  match m !! k with
  | Some l => Some l
  | None => if bool_decide (k ∈ keys) then Some [] else None
  end.
Proof.
  revert m. induction keys as [|x keys IH]; intros m; cbn [foldl].
  - rewrite bool_decide_eq_false_2 by apply not_elem_of_nil.
    now destruct (m !! k).
  - rewrite IH. unfold add_missing.
    destruct (decide (x = k)) as [->|Hne].
    + rewrite (bool_decide_eq_true_2 (k ∈ k :: keys))
        by apply list_elem_of_here.
      destruct (m !! k) as [l|] eqn:Hk; [now rewrite Hk |].
      now rewrite lookup_insert_eq.
    + assert (bool_decide (k ∈ x :: keys) = bool_decide (k ∈ keys)) as ->.
      { apply bool_decide_ext. rewrite elem_of_cons.
        split; [intros [->|?]; [congruence | assumption] | tauto]. }
      destruct (m !! x) as [lx|] eqn:Hx; [reflexivity |].
      now rewrite lookup_insert_ne by exact Hne.
Qed.

Lemma add_missing_perm (m : gmap Key (list R)) (keys keys' : list Key) :
  keys ≡ₚ keys' -> foldl add_missing m keys = foldl add_missing m keys'.
Proof.
  intros Hp. apply map_eq. intros k. rewrite !add_missing_lookup.
  destruct (m !! k); [reflexivity |].
  erewrite bool_decide_ext; [reflexivity |]. now rewrite Hp.
Qed.

Lemma contributions_cons {V : Type} (self : RlzsAssoc Key R)
    (key : Key) (value : V) (rest : list (Key * V)) :
  contributions rlz_key self ((key, value) :: rest) =
  (rlz ← default [] (rlzs_assoc self !! key); [(rlz_key rlz, value)])
  ++ contributions rlz_key self rest.
Proof. unfold contributions. now rewrite bind_cons. Qed.

Lemma contributions_add_missing {V : Type} (self : RlzsAssoc Key R)
    (key : Key) (results : list (Key * V)) :
  rlzs_assoc self !! key = None ->
  contributions rlz_key
    (set_rlzs_assoc (<[key := []]> (rlzs_assoc self)) self) results =
  contributions rlz_key self results.
Proof.
  intros Hkey. unfold contributions.
  induction results as [|[k v] results IH]; [reflexivity |].
  rewrite !bind_cons, IH. f_equal. simpl.
  destruct (decide (key = k)) as [->|Hne].
  - now rewrite lookup_insert_eq, Hkey.
  - now rewrite lookup_insert_ne.
Qed.

Lemma set_rlzs_assoc_id (self : RlzsAssoc Key R) :
  set_rlzs_assoc (rlzs_assoc self) self = self.
Proof. now destruct self. Qed.

(** What [combine] comes to: with a [defaultdict] the missing keys are
    stored with empty lists and the contributions are folded in; with a
    plain dictionary a missing key raises [KeyError]. *)
Lemma combine_loop_spec (agg : Qc -> Qc -> Qc) (self : RlzsAssoc Key R)
    (ad : gmap K Qc) (results : list (Key * Qc)) :
  combine_loop rlz_key agg self ad results =
  if rlzs_assoc_default self then
    (set_rlzs_assoc (foldl add_missing (rlzs_assoc self) results.*1) self,
     Ok (foldl (fold_contribution agg) ad
               (contributions rlz_key self results)))
  else
    (self,
     if forallb (fun kv => bool_decide (is_Some (rlzs_assoc self !! kv.1)))
                results
     then Ok (foldl (fold_contribution agg) ad
                    (contributions rlz_key self results))
     else Raise KeyError).
Proof.
  revert self ad. induction results as [|[key value] rest IH]; intros self ad.
  - simpl. rewrite set_rlzs_assoc_id. now destruct (rlzs_assoc_default self).
  - cbn [combine_loop]. unfold rlzs_assoc_getitem.
    rewrite contributions_cons, foldl_app, <- combine_rlzs_contributions.
    rewrite fmap_cons. cbn [foldl forallb fst snd].
    unfold add_missing at 2.
    destruct (rlzs_assoc self !! key) as [rlzs|] eqn:Hkey; cbn [default].
    + rewrite IH. rewrite bool_decide_eq_true_2 by eauto. reflexivity.
    + rewrite bool_decide_eq_false_2 by (intros [? ?]; discriminate).
      destruct (rlzs_assoc_default self) eqn:Hd; [| reflexivity].
      rewrite IH. cbn [rlzs_assoc_default set_rlzs_assoc rlzs_assoc].
      rewrite Hd. rewrite contributions_add_missing by exact Hkey.
      reflexivity.
Qed.

Lemma forallb_perm {A : Type} (f : A -> bool) (l l' : list A) :
  l ≡ₚ l' -> forallb f l = forallb f l'.
Proof.
  intros Hp. induction Hp as [|x l l' _ IH|x y l|l l' l'' _ IH1 _ IH2]; simpl.
  - reflexivity.
  - now rewrite IH.
  - destruct (f x), (f y); reflexivity.
  - now rewrite IH1.
Qed.

Lemma combine_loop_perm (agg : Qc -> Qc -> Qc) (self : RlzsAssoc Key R)
    (ad : gmap K Qc) (results results' : list (Key * Qc)) :
  (forall a b, agg a b = agg b a) ->
  (forall a b c, agg a (agg b c) = agg (agg a b) c) ->
  results ≡ₚ results' ->
  combine_loop rlz_key agg self ad results =
  combine_loop rlz_key agg self ad results'.
Proof.
  intros Hcomm Hassoc Hp. rewrite !combine_loop_spec.
  assert (foldl (fold_contribution agg) ad (contributions rlz_key self results)
          = foldl (fold_contribution agg) ad
              (contributions rlz_key self results')) as ->.
  { apply foldl_commute_perm.
    - intros b x y. now apply fold_contribution_commute.
    - unfold contributions. now rewrite Hp. }
  rewrite (forallb_perm _ _ _ Hp).
  rewrite (add_missing_perm _ (results.*1) (results'.*1)) by now rewrite Hp.
  reflexivity.
Qed.


Lemma elem_of_contributions {V : Type} (self : RlzsAssoc Key R)
    (results : list (Key * V)) (k : K) (v : V) :
  (k, v) ∈ contributions rlz_key self results <->
  exists key rlzs rlz,
    (key, v) ∈ results /\ rlzs_assoc self !! key = Some rlzs /\
    rlz ∈ rlzs /\ rlz_key rlz = k.
Proof.
  unfold contributions. rewrite list_elem_of_bind. split.
  - intros ([key value] & Hin & Hres). simpl in Hin.
    apply list_elem_of_bind in Hin as (rlz & Hkv & Hrlz).
    apply list_elem_of_singleton in Hkv. injection Hkv as -> ->.
    destruct (rlzs_assoc self !! key) as [rlzs|] eqn:Hkey.
    + exists key, rlzs, rlz. auto.
    + simpl in Hrlz. now apply elem_of_nil in Hrlz.
  - intros (key & rlzs & rlz & Hres & Hkey & Hrlz & <-).
    exists (key, v). split; [| exact Hres]. simpl. rewrite Hkey. simpl.
    apply list_elem_of_bind. exists rlz. split; [| exact Hrlz].
    apply list_elem_of_singleton. reflexivity.
Qed.

Lemma fold_contributions_is_Some (agg : Qc -> Qc -> Qc)
    (l : list (K * Qc)) (ad : gmap K Qc) (k : K) :
  is_Some (foldl (fold_contribution agg) ad l !! k) <->
  is_Some (ad !! k) \/ k ∈ l.*1.
Proof.
  revert ad. induction l as [|[k' v] l IH]; intros ad.
  - simpl. rewrite elem_of_nil. tauto.
  - cbn [foldl]. rewrite IH, fmap_cons, elem_of_cons.
    unfold fold_contribution. cbn [fst snd].
    destruct (decide (k' = k)) as [->|Hne].
    + rewrite lookup_insert_eq. split; [auto | intros _; left; eauto].
    + rewrite lookup_insert_ne by exact Hne.
      split; [tauto | intros [?|[?|?]]; [tauto | congruence | tauto]].
Qed.

(** [combine] keeps to the realizations that the keys of [results]
    reach. *)
Lemma combine_support (agg : Qc -> Qc -> Qc) (self : RlzsAssoc Key R)
    (results : list (Key * Qc)) (ad : gmap K Qc) (k : K) :
  (RlzsAssoc_combine rlz_key self results agg).2 = Ok ad ->
  is_Some (ad !! k) <->
  exists key value rlzs rlz,
    (key, value) ∈ results /\ rlzs_assoc self !! key = Some rlzs /\
    rlz ∈ rlzs /\ rlz_key rlz = k.
Proof.
  unfold RlzsAssoc_combine. rewrite combine_loop_spec. intros Had.
  assert (ad = foldl (fold_contribution agg) ∅
                 (contributions rlz_key self results)) as ->.
  { destruct (rlzs_assoc_default self); simpl in Had; [congruence |].
    destruct (forallb _ _); congruence. }
  rewrite fold_contributions_is_Some, lookup_empty, list_elem_of_fmap.
  split.
  - intros [[? [=]] | ([k' v] & -> & Hin)].
    apply elem_of_contributions in Hin
      as (key & rlzs & rlz & ? & ? & ? & ?).
    exists key, v, rlzs, rlz. auto.
  - intros (key & value & rlzs & rlz & ? & ? & ? & ?). right.
    exists (k, value). split; [reflexivity |].
    apply elem_of_contributions. exists key, rlzs, rlz. auto.
Qed.

Lemma init_accumulators_lookup {V : Type} (acc : V) (rlzs : list R)
    (ad : gmap K V) (k : K) :
  foldl (fun ad rlz => <[rlz_key rlz := acc]> ad) ad rlzs !! k =
  if bool_decide (k ∈ rlz_key <$> rlzs) then Some acc else ad !! k.
Proof.
  revert ad. induction rlzs as [|r rlzs IH]; intros ad; cbn [foldl].
  - now rewrite bool_decide_eq_false_2 by apply not_elem_of_nil.
  - rewrite IH, fmap_cons.
    destruct (decide (k ∈ rlz_key <$> rlzs)) as [Hin|Hnin].
    + rewrite !bool_decide_eq_true_2; [reflexivity | | exact Hin].
      now apply list_elem_of_further.
    + rewrite (bool_decide_eq_false_2 _ Hnin).
      destruct (decide (rlz_key r = k)) as [<-|Hne].
      * rewrite lookup_insert_eq.
        now rewrite bool_decide_eq_true_2 by apply list_elem_of_here.
      * rewrite lookup_insert_ne by exact Hne.
        rewrite bool_decide_eq_false_2; [reflexivity |].
        rewrite elem_of_cons. intros [?|?]; [congruence | tauto].
Qed.

Lemma combine_curves_rlzs_frame {V : Type} (agg : V -> V -> V) (value : V)
    (rlzs : list R) (ad ad' : gmap K V) :
  combine_curves_rlzs rlz_key agg value ad rlzs = Ok ad' ->
  forall k, (is_Some (ad !! k) -> is_Some (ad' !! k)) /\
            (k ∉ rlz_key <$> rlzs -> ad' !! k = ad !! k).
Proof.
  revert ad. induction rlzs as [|r rlzs IH]; intros ad; cbn [combine_curves_rlzs].
  - intros [= <-] k. tauto.
  - destruct (ad !! rlz_key r) as [old|] eqn:Hold; [| discriminate].
    intros Hrec k. destruct (IH _ Hrec k) as [Hsome Hframe]. split.
    + intros Hk. apply Hsome.
      destruct (decide (rlz_key r = k)) as [<-|Hne].
      * rewrite lookup_insert_eq. eauto.
      * now rewrite lookup_insert_ne.
    + rewrite fmap_cons, not_elem_of_cons. intros [Hne Hnin].
      rewrite Hframe by exact Hnin. now rewrite lookup_insert_ne.
Qed.

Lemma combine_curves_loop_frame {V : Type} (agg : V -> V -> V)
    (results : list (Key * V)) (self self' : RlzsAssoc Key R)
    (ad ad' : gmap K V) :
  combine_curves_loop rlz_key agg self ad results = (self', Ok ad') ->
  forall k, (is_Some (ad !! k) -> is_Some (ad' !! k)) /\
            (k ∉ (contributions rlz_key self results).*1 ->
             ad' !! k = ad !! k).
Proof.
  revert self ad. induction results as [|[key value] rest IH]; intros self ad.
  - cbn [combine_curves_loop]. intros [= <- <-] k. tauto.
  - cbn [combine_curves_loop]. unfold rlzs_assoc_getitem.
    rewrite contributions_cons, fmap_app.
    destruct (rlzs_assoc self !! key) as [rlzs|] eqn:Hkey; cbn [default].
    + destruct (combine_curves_rlzs rlz_key agg value ad rlzs) as [ad1|]
        eqn:Hinner; [| discriminate].
      intros Hrec k. destruct (IH _ _ Hrec k) as [Hsome Hframe].
      destruct (combine_curves_rlzs_frame _ _ _ _ _ Hinner k) as [Hs1 Hf1].
      split; [auto |].
      rewrite not_elem_of_app. intros [Hn1 Hn2].
      rewrite Hframe by exact Hn2. apply Hf1.
      intros Hin. apply Hn1. rewrite bind_singleton_map.
      rewrite <- list_fmap_compose. exact Hin.
    + destruct (rlzs_assoc_default self) eqn:Hd; [| discriminate].
      cbn [combine_curves_rlzs]. intros Hrec k.
      destruct (IH _ _ Hrec k) as [Hsome Hframe].
      rewrite contributions_add_missing in Hframe by exact Hkey.
      split; [auto |]. rewrite not_elem_of_app. intros [_ Hn2]. auto.
Qed.


Lemma combine_curves_rlzs_returns {V : Type} (agg : V -> V -> V) (value : V)
    (rlzs : list R) (ad : gmap K V) :
  (forall rlz, rlz ∈ rlzs -> is_Some (ad !! rlz_key rlz)) ->
  exists ad', combine_curves_rlzs rlz_key agg value ad rlzs = Ok ad'.
Proof.
  revert ad. induction rlzs as [|r rlzs IH]; intros ad Hall;
    cbn [combine_curves_rlzs]; [eauto |].
  destruct (Hall r (list_elem_of_here _ _)) as [old ->].
  apply IH. intros rlz Hin.
  destruct (decide (rlz_key r = rlz_key rlz)) as [->|Hne].
  - rewrite lookup_insert_eq. eauto.
  - rewrite lookup_insert_ne by exact Hne.
    apply Hall. now apply list_elem_of_further.
Qed.

(** [combine_curves] returns as soon as every key of [results] can be
    read and reaches realizations of the association only. *)
Lemma combine_curves_loop_returns {V : Type} (agg : V -> V -> V)
    (results : list (Key * V)) (self : RlzsAssoc Key R) (ad : gmap K V) :
  (rlzs_assoc_default self = true \/
   forall kv, kv ∈ results -> is_Some (rlzs_assoc self !! kv.1)) ->
  (forall kv, kv ∈ contributions rlz_key self results ->
     is_Some (ad !! kv.1)) ->
  exists self' ad',
    combine_curves_loop rlz_key agg self ad results = (self', Ok ad').
Proof.
  revert self ad. induction results as [|[key value] rest IH];
    intros self ad Hkeys Hreach; cbn [combine_curves_loop]; [eauto |].
  unfold rlzs_assoc_getitem.
  rewrite contributions_cons in Hreach.
  destruct (rlzs_assoc self !! key) as [rlzs|] eqn:Hkey; cbn [default] in *.
  - destruct (combine_curves_rlzs_returns agg value rlzs ad) as [ad1 Had1].
    { intros rlz Hin. apply (Hreach (rlz_key rlz, value)).
      apply elem_of_app. left. apply list_elem_of_bind. exists rlz.
      split; [apply list_elem_of_singleton; reflexivity | exact Hin]. }
    rewrite Had1. apply IH.
    + destruct Hkeys as [?|Hk]; [now left | right].
      intros kv Hin. apply Hk. now apply list_elem_of_further.
    + intros kv Hin.
      apply (combine_curves_rlzs_frame _ _ _ _ _ Had1 kv.1).
      apply Hreach, elem_of_app. now right.
  - destruct Hkeys as [Hd|Hk].
    + rewrite Hd. cbn [combine_curves_rlzs]. apply IH.
      * now left.
      * intros kv Hin. apply Hreach.
        rewrite contributions_add_missing in Hin by exact Hkey.
        apply elem_of_app. now right.
    + destruct (Hk (key, value) (list_elem_of_here _ _)) as [? Hsome].
      simpl in Hsome. congruence.
Qed.

End AssociationProperties.

Lemma gmap_Qc_eq {K : Type} `{Countable K} (m1 m2 : gmap K Qc) :
  this <$> m1 = this <$> m2 -> m1 = m2.
Proof.
  intros Heq. apply map_eq. intros k.
  apply (f_equal (fun m => m !! k)) in Heq. rewrite !lookup_fmap in Heq.
  destruct (m1 !! k) as [q1|], (m2 !! k) as [q2|]; simpl in Heq;
    try discriminate; [| reflexivity].
  injection Heq as Heq. f_equal. apply Qc_is_canon. now rewrite Heq.
Qed.

Lemma doctest_combine :
  RlzsAssoc_combine (fun r : string => r) doctest_assoc doctest_results Qcplus
  = (doctest_assoc, Ok doctest_combinations).
Proof.
  unfold RlzsAssoc_combine. rewrite combine_loop_spec.
  change (rlzs_assoc_default doctest_assoc) with false. cbv iota.
  f_equal.
  assert (forallb
            (fun kv : string * string * Qc =>
               bool_decide (is_Some (rlzs_assoc doctest_assoc !! kv.1)))
            doctest_results = true) as -> by (vm_compute; reflexivity).
  f_equal. apply gmap_Qc_eq. vm_compute. reflexivity.
Qed.

(** C6. The result of [combine] does not depend on the order in which
    the items of [results] are taken, for an aggregation function that is
    commutative and associative; on the example of the docstring, with
    addition, every order of the five keys gives r0 = 0.05, r1 = 0.06,
    r2 = 0.06, r3 = 0.07, r4 = 0.07 and r5 = 0.08. *)
Theorem RlzsAssoc_combine_order_independent :
  (forall (LT : LogicTree) (Key : Type) `(Countable Key) (R K : Type)
          `(Countable K) (rlz_key : R -> K) (self : RlzsAssoc Key R)
          (agg : Qc -> Qc -> Qc) (results results' : list (Key * Qc)),
     (forall a b, agg a b = agg b a) ->
     (forall a b c, agg a (agg b c) = agg (agg a b) c) ->
     results ≡ₚ results' ->
     RlzsAssoc_combine rlz_key self results agg =
     RlzsAssoc_combine rlz_key self results' agg) /\
  (forall results' : list (string * string * Qc),
     doctest_results ≡ₚ results' ->
     RlzsAssoc_combine (fun r : string => r) doctest_assoc results' Qcplus
     = (doctest_assoc, Ok doctest_combinations)).
Proof.
  split.
  - intros LT Key ? ? R K ? ? rlz_key self agg results results' Hc Ha Hp.
    unfold RlzsAssoc_combine. now apply combine_loop_perm.
  - intros results' Hp. rewrite <- doctest_combine.
    unfold RlzsAssoc_combine. symmetry. apply combine_loop_perm.
    + apply Qcplus_comm.
    + apply Qcplus_assoc.
    + exact Hp.
Qed.

(** C10. [combine] has an entry exactly for the realizations found under
    at least one key of its input, whereas [combine_curves] has an entry for
    every realization of the association, and that entry is the accumulator
    it was given when no key of the input reaches the realization. *)
Theorem combine_and_combine_curves_entries
    {LT : LogicTree} {Key : Type} `{Countable Key} {R K : Type}
    `{Countable K} (rlz_key : R -> K) {V : Type} (self : RlzsAssoc Key R)
    (results : list (Key * Qc)) (agg : Qc -> Qc -> Qc) (ad : gmap K Qc)
    (curves : list (Key * V)) (agg_curves : V -> V -> V) (acc : V)
    (ad_curves : gmap K V) :
  (RlzsAssoc_combine rlz_key self results agg).2 = Ok ad ->
  (RlzsAssoc_combine_curves rlz_key self curves agg_curves acc).2
    = Ok ad_curves ->
  (forall k,
     is_Some (ad !! k) <->
     exists key value rlzs rlz,
       (key, value) ∈ results /\ rlzs_assoc self !! key = Some rlzs /\
       rlz ∈ rlzs /\ rlz_key rlz = k) /\
  (forall rlz,
     rlz ∈ realizations self ->
     is_Some (ad_curves !! rlz_key rlz) /\
     ((forall key value rlzs rlz',
         (key, value) ∈ curves -> rlzs_assoc self !! key = Some rlzs ->
         rlz' ∈ rlzs -> rlz_key rlz' <> rlz_key rlz) ->
      ad_curves !! rlz_key rlz = Some acc)).
Proof.
  intros Had Hcurves. split.
  - intros k. now apply combine_support with (agg := agg).
  - intros rlz Hin. unfold RlzsAssoc_combine_curves in Hcurves.
    destruct (combine_curves_loop _ _ _ _ _) as [self' out] eqn:Hloop.
    simpl in Hcurves. subst out.
    destruct (combine_curves_loop_frame _ _ _ _ _ _ _ Hloop (rlz_key rlz))
      as [Hsome Hframe].
    rewrite init_accumulators_lookup in Hsome, Hframe.
    rewrite bool_decide_eq_true_2 in Hsome, Hframe
      by now apply list_elem_of_fmap_2.
    split; [apply Hsome; eauto |].
    intros Hnone. apply Hframe. rewrite list_elem_of_fmap.
    intros ([k v] & Hk & Hkv). simpl in Hk. subst k.
    apply elem_of_contributions in Hkv
      as (key & rlzs & rlz' & Hres & Hkey & Hrlz & Heq).
    exact (Hnone key v rlzs rlz' Hres Hkey Hrlz Heq).
Qed.

Lemma combine_and_combine_curves_entries_witness :
  let ad := default ∅ (result_value
    (RlzsAssoc_combine (fun r : string => r) assoc_seven one_result
       Qcplus).2) in
  let ad_curves := default ∅ (result_value
    (RlzsAssoc_combine_curves (fun r : string => r) assoc_seven one_curve
       (fun a b : list Z => a ++ b) [0; 0]).2) in
  (forall k,
     is_Some (ad !! k) <->
     exists key value rlzs rlz,
       (key, value) ∈ one_result /\
       rlzs_assoc assoc_seven !! key = Some rlzs /\
       rlz ∈ rlzs /\ rlz = k) /\
  (forall rlz,
     rlz ∈ realizations assoc_seven ->
     is_Some (ad_curves !! rlz) /\
     ((forall key value rlzs rlz',
         (key, value) ∈ one_curve ->
         rlzs_assoc assoc_seven !! key = Some rlzs ->
         rlz' ∈ rlzs -> rlz' <> rlz) ->
      ad_curves !! rlz = Some [0; 0])).
Proof.
  intros ad ad_curves.
  apply (combine_and_combine_curves_entries (fun r : string => r)
           assoc_seven one_result Qcplus ad one_curve
           (fun a b : list Z => a ++ b) [0; 0] ad_curves);
    vm_compute; reflexivity.
Defined.

(** ** CompositeSourceModel: building the association *)

Section BuildingProperties.

Context {LT : LogicTree}.

Lemma rlzs_assoc_getitem_rlzs_by_smodel (self self' : RlzsAssoc (Z * string) nat)
    key out :
  rlzs_assoc_getitem self key = (self', out) ->
  rlzs_by_smodel self' = rlzs_by_smodel self /\
  csm_info self' = csm_info self.
Proof.
  unfold rlzs_assoc_getitem.
  destruct (rlzs_assoc self !! key); [intros [= <- _]; auto |].
  destruct (rlzs_assoc_default self); intros [= <- _]; auto.
Qed.

(** The loop over the groups leaves the size of the store and the
    realizations of the association as they are. *)
Lemma add_realization_groups_frame lt_model i gsim_rlz r trt_models :
  forall heap self heap' self' trt_models',
    add_realization_groups lt_model i gsim_rlz r heap self trt_models
    = Ok (heap', self', trt_models') ->
    length heap' = length heap /\
    rlzs_by_smodel self' = rlzs_by_smodel self /\
    csm_info self' = csm_info self /\
    length trt_models' = length trt_models.
Proof.
  induction trt_models as [|tm rest IH]; intros heap self heap' self' tms';
    cbn [add_realization_groups].
  - intros [= <- <- <-]. auto.
  - destruct (rlzs_assoc_getitem self _) as [self1 [rlzs|e]] eqn:Hget;
      [| discriminate].
    apply rlzs_assoc_getitem_rlzs_by_smodel in Hget as [Hby Hinfo].
    destruct (values (sm_gsim_lt lt_model) !! tm_trt tm) as [gsims|];
      [| discriminate].
    destruct (if bool_decide (sm_samples lt_model > 1) then _ else _)
      as [heap1|e] eqn:Hover; [| discriminate].
    destruct (add_realization_groups _ _ _ _ heap1 _ rest)
      as [[[heap2 self2] rest']|e] eqn:Hrec; [| discriminate].
    intros [= <- <- <-].
    apply IH in Hrec as (Hlen & Hby2 & Hinfo2 & Hlen2).
    assert (length heap1 = length heap) as Hlen1.
    { case_bool_decide; [| congruence].
      destruct (CompositionInfo_get_col_id _ _ _); [| discriminate].
      injection Hover as <-. apply length_alter. }
    cbn in *. repeat split; congruence.
Qed.

(** The loop over the realizations of a model creates one object per
    realization, at the end of the store, and collects their references. *)
Lemma add_realizations_loop_spec lt_model realizations :
  forall i idx heap self trt_models rlzs idx' heap' self' trt_models' rlzs',
    add_realizations_loop lt_model i idx heap self trt_models rlzs
      realizations = Ok (idx', heap', self', trt_models', rlzs') ->
    idx' = idx + Z.of_nat (length realizations) /\
    length heap' = (length heap + length realizations)%nat /\
    rlzs' = rlzs ++ seq (length heap) (length realizations) /\
    rlzs_by_smodel self' = rlzs_by_smodel self.
Proof.
  induction realizations as [|gsim_rlz rest IH];
    intros i idx heap self tms rlzs idx' heap' self' tms' rlzs';
    cbn [add_realizations_loop].
  - intros [= <- <- <- <- <-]. cbn. rewrite app_nil_r.
    repeat split; lia.
  - destruct (add_realization_groups _ _ _ _ _ _ _)
      as [[[heap2 self2] tms2]|e] eqn:Hgroups; [| discriminate].
    apply add_realization_groups_frame in Hgroups as (Hlen & Hby & _ & _).
    intros Hrec. apply IH in Hrec as (-> & Hlen' & -> & Hby').
    rewrite length_app in Hlen. cbn in Hlen, Hby.
    cbn [length seq]. rewrite Hlen', Hlen, Hby', Hby, <- app_assoc.
    replace (length heap + 1)%nat with (S (length heap)) by lia.
    repeat split; lia.
Qed.

Lemma RlzsAssoc_add_realizations_spec heap self idx lt_model realizations
    idx' heap' self' trt_models' :
  RlzsAssoc_add_realizations heap self idx lt_model realizations
  = Ok (idx', heap', self', trt_models') ->
  idx' = idx + Z.of_nat (length realizations) /\
  length heap' = (length heap + length realizations)%nat /\
  rlzs_by_smodel self' =
    od_setitem (sm_ordinal lt_model)
      (seq (length heap) (length realizations)) (rlzs_by_smodel self).
Proof.
  unfold RlzsAssoc_add_realizations.
  destruct (add_realizations_loop _ _ _ _ _ _ _ _)
    as [[[[[idx1 heap1] self1] tms1] rlzs1]|e] eqn:Hloop; [| discriminate].
  apply add_realizations_loop_spec in Hloop as (-> & Hlen & -> & Hby).
  intros [= <- <- <- <-]. cbn. rewrite Hby. auto.
Qed.

Lemma elem_of_od_setitem {V : Type} (k : Z) (v : list V)
    (od : list (Z * list V)) (x : V) :
  x ∈ concat (map snd (od_setitem k v od)) ->
  x ∈ v \/ x ∈ concat (map snd od).
Proof.
  induction od as [|[k' v'] od IH]; cbn [od_setitem].
  - cbn. rewrite app_nil_r. auto.
  - case_bool_decide; cbn; rewrite !elem_of_app.
    + tauto.
    + intros [?|?]; [tauto |]. destruct IH; tauto.
Qed.

Lemma NoDup_od_setitem {V : Type} (k : Z) (v : list V)
    (od : list (Z * list V)) :
  NoDup (concat (map snd od)) -> NoDup v ->
  (forall x, x ∈ v -> x ∉ concat (map snd od)) ->
  NoDup (concat (map snd (od_setitem k v od))).
Proof.
  induction od as [|[k' v'] od IH]; cbn [od_setitem]; intros Hod Hv Hdisj.
  - cbn. now rewrite app_nil_r.
  - cbn in Hod, Hdisj. apply list.NoDup_app in Hod as (Hv' & Hsep & Hod).
    case_bool_decide; cbn; apply list.NoDup_app.
    + split; [exact Hv |]. split; [| exact Hod].
      intros x Hx Hx'. apply (Hdisj x Hx). apply elem_of_app. now right.
    + split; [exact Hv' |]. split.
      * intros x Hx Hx'. apply elem_of_od_setitem in Hx' as [Hx'|Hx'].
        -- apply (Hdisj x Hx'). apply elem_of_app. now left.
        -- now apply (Hsep x).
      * apply IH; [exact Hod | exact Hv |].
        intros x Hx Hx'. apply (Hdisj x Hx). apply elem_of_app. now right.
Qed.

Lemma get_rlzs_assoc_step_well_formed random_seed n get_weight st smodel st' :
  well_formed st ->
  get_rlzs_assoc_step random_seed n get_weight st smodel = Ok st' ->
  well_formed st'.
Proof.
  intros (Hidx & Hnd & Hlt). unfold get_rlzs_assoc_step.
  destruct (model_rlzs _ _ _ _) as [|g rlzs] eqn:Hrlzs.
  - intros [= <-]. now split.
  - destruct (RlzsAssoc_add_realizations _ _ _ _ _)
      as [[[[idx1 heap1] assoc1] tms1]|e] eqn:Hadd; [| discriminate].
    apply RlzsAssoc_add_realizations_spec in Hadd as (-> & Hlen & Hby).
    intros [= <-]. unfold well_formed, realizations in *. cbn.
    rewrite Hby, Hlen. split; [cbn [length]; lia |]. split.
    + apply NoDup_od_setitem; [exact Hnd | apply NoDup_seq |].
      intros x Hx%elem_of_seq Hx'.
      rewrite list.Forall_forall in Hlt. apply Hlt in Hx'. lia.
    + apply list.Forall_forall. intros x Hx.
      apply elem_of_od_setitem in Hx as [Hx%elem_of_seq|Hx].
      * cbn [length] in *. lia.
      * rewrite list.Forall_forall in Hlt. apply Hlt in Hx. lia.
Qed.

Lemma get_rlzs_assoc_loop_well_formed random_seed n get_weight smodels :
  forall st st',
    well_formed st ->
    get_rlzs_assoc_loop random_seed n get_weight st smodels = Ok st' ->
    well_formed st'.
Proof.
  induction smodels as [|sm rest IH]; intros st st' Hwf;
    cbn [get_rlzs_assoc_loop].
  - now intros [= <-].
  - destruct (get_rlzs_assoc_step _ _ _ _ _) as [st1|e] eqn:Hstep;
      [| discriminate].
    apply IH. eapply get_rlzs_assoc_step_well_formed; eauto.
Qed.

Lemma initial_building_well_formed (self : CompositeSourceModel) :
  well_formed (initial_building self).
Proof.
  unfold well_formed, initial_building, realizations. cbn.
  split; [reflexivity |]. split; [apply NoDup_nil_2 | apply Forall_nil_2].
Qed.


(** *** The weights *)

Lemma set_weights_length f heap rlzs :
  length (set_weights f heap rlzs) = length heap.
Proof.
  unfold set_weights. revert heap.
  induction rlzs as [|a rlzs IH]; intros heap; cbn [foldl]; [reflexivity |].
  rewrite IH. apply length_alter.
Qed.






End BuildingProperties.

Section WeightProperties.

Context {LT : LogicTree}.

Lemma get_rlzs_assoc_unfold (self : CompositeSourceModel) get_weight st :
  get_rlzs_assoc_loop (seed (source_model_lt self))
    (num_samples (source_model_lt self)) get_weight (initial_building self)
    (source_models self) = Ok st ->
  CompositeSourceModel_get_rlzs_assoc self get_weight =
  get_rlzs_assoc_weights (num_samples (source_model_lt self)) st.
Proof. unfold CompositeSourceModel_get_rlzs_assoc. now intros ->. Qed.





Lemma get_rlzs_assoc_step_no_rlzs random_seed n get_weight st smodel :
  model_rlzs random_seed n (b_idx st)
    (set_sm_gsim_lt (reduced_gsim_lt get_weight smodel) smodel) = [] ->
  exists st',
    get_rlzs_assoc_step random_seed n get_weight st smodel = Ok st' /\
    b_heap st' = b_heap st /\ b_assoc st' = b_assoc st /\
    b_idx st' = b_idx st.
Proof.
  intros Hrlzs. unfold get_rlzs_assoc_step. rewrite Hrlzs.
  eexists. split; [reflexivity |]. auto.
Qed.

Lemma get_rlzs_assoc_loop_no_rlzs random_seed n get_weight smodels :
  forall st,
    (forall sm, sm ∈ smodels ->
       model_rlzs random_seed n (b_idx st)
         (set_sm_gsim_lt (reduced_gsim_lt get_weight sm) sm) = []) ->
    exists st',
      get_rlzs_assoc_loop random_seed n get_weight st smodels = Ok st' /\
      b_heap st' = b_heap st /\ b_assoc st' = b_assoc st /\
      b_idx st' = b_idx st.
Proof.
  induction smodels as [|sm rest IH]; intros st Hall;
    cbn [get_rlzs_assoc_loop].
  - eexists. split; [reflexivity |]. auto.
  - destruct (get_rlzs_assoc_step_no_rlzs random_seed n get_weight st sm)
      as (st1 & -> & Hh & Ha & Hi).
    { apply Hall, list_elem_of_here. }
    destruct (IH st1) as (st' & Hloop & Hh' & Ha' & Hi').
    { intros sm' Hin. rewrite Hi. apply Hall. now apply list_elem_of_further. }
    exists st'. split; [exact Hloop |]. repeat split; congruence.
Qed.

(** C9. When no source model yields a realization, whether by sampling or
    by enumeration, [get_rlzs_assoc] returns, the association it returns is
    the empty one it started from, and the checks of the last part (the
    count of samples, the zero total weight) are not made: the last
    part returns its state as it is whenever there is no realization. *)
Theorem get_rlzs_assoc_without_realizations (self : CompositeSourceModel)
    (get_weight : TrtModel -> Z) :
  (forall sm, sm ∈ source_models self ->
     model_rlzs (seed (source_model_lt self))
       (num_samples (source_model_lt self)) 0
       (set_sm_gsim_lt (reduced_gsim_lt get_weight sm) sm) = []) ->
  exists st,
    CompositeSourceModel_get_rlzs_assoc self get_weight = Ok st /\
    b_heap st = [] /\
    b_assoc st = RlzsAssoc_init (info self) None /\
    realizations (b_assoc st) = [] /\
    rlzs_assoc (b_assoc st) = ∅ /\
    forall n (st0 : Building),
      realizations (b_assoc st0) = [] ->
      get_rlzs_assoc_weights n st0 = Ok st0.
Proof.
  intros Hall.
  destruct (get_rlzs_assoc_loop_no_rlzs (seed (source_model_lt self))
              (num_samples (source_model_lt self)) get_weight
              (source_models self) (initial_building self) Hall)
    as (st & Hloop & Hh & Ha & Hi).
  assert (forall n (st0 : Building),
            realizations (b_assoc st0) = [] ->
            get_rlzs_assoc_weights n st0 = Ok st0) as Hskip.
  { intros n st0 Hnil. unfold get_rlzs_assoc_weights. now rewrite Hnil. }
  exists st. rewrite (get_rlzs_assoc_unfold self get_weight st Hloop).
  rewrite Ha. cbn in Hh. split; [| now repeat split].
  apply Hskip. now rewrite Ha.
Qed.

Lemma get_rlzs_assoc_loop_app random_seed n get_weight pre rest :
  forall st,
    get_rlzs_assoc_loop random_seed n get_weight st (pre ++ rest) =
    bind_result (get_rlzs_assoc_loop random_seed n get_weight st pre)
      (fun st' => get_rlzs_assoc_loop random_seed n get_weight st' rest).
Proof.
  induction pre as [|sm pre IH]; intros st; cbn; [reflexivity |].
  destruct (get_rlzs_assoc_step _ _ _ _ _); [apply IH | reflexivity].
Qed.

(** C3, amended. In sampling mode, the generator that draws the
    realizations of a source model is seeded with the global seed plus the
    number of realization objects created for the models gone through
    before it (the ordinal that its first realization will get), not with
    the global seed plus the ordinal of the model. *)
Theorem get_rlzs_assoc_seed (self : CompositeSourceModel)
    (get_weight : TrtModel -> Z) (pre post : list SourceModel)
    (smodel : SourceModel) (st : Building) :
  let random_seed := seed (source_model_lt self) in
  let n := num_samples (source_model_lt self) in
  n <> 0 ->
  source_models self = pre ++ smodel :: post ->
  get_rlzs_assoc_loop random_seed n get_weight (initial_building self) pre
  = Ok st ->
  let smodel1 := set_sm_gsim_lt (reduced_gsim_lt get_weight smodel) smodel in
  let created := Z.of_nat (length (b_heap st)) in
  get_rlzs_assoc_loop random_seed n get_weight (initial_building self)
    (source_models self) =
  bind_result (get_rlzs_assoc_step random_seed n get_weight st smodel)
    (fun st' => get_rlzs_assoc_loop random_seed n get_weight st' post) /\
  model_rlzs random_seed n (b_idx st) smodel1 =
  sample (sm_gsim_lt smodel1) (sm_samples smodel1) (random_seed + created) /\
  forall st',
    get_rlzs_assoc_step random_seed n get_weight st smodel = Ok st' ->
    exists warnings,
      b_log st' =
      b_log st ++ RandomCreated (random_seed + created) :: warnings.
Proof.
  intros random_seed n Hn Hsplit Hloop smodel1 created.
  pose proof (get_rlzs_assoc_loop_well_formed _ _ _ _ _ _
                (initial_building_well_formed self) Hloop) as (Hidx & _).
  split; [| split].
  - rewrite Hsplit, get_rlzs_assoc_loop_app, Hloop. cbn.
    now destruct (get_rlzs_assoc_step _ _ _ _ _).
  - unfold model_rlzs. rewrite bool_decide_eq_true_2 by exact Hn.
    now rewrite Hidx.
  - intros st'. unfold get_rlzs_assoc_step.
    rewrite bool_decide_eq_true_2 by exact Hn. fold smodel1.
    rewrite Hidx. fold created.
    destruct (model_rlzs _ _ _ _) as [|g rlzs].
    + intros [= <-]. cbn. rewrite <- app_assoc. eauto.
    + destruct (RlzsAssoc_add_realizations _ _ _ _ _)
        as [[[[idx1 heap1] assoc1] tms1]|e]; [| discriminate].
      intros [= <-]. cbn. eauto.
Qed.

End WeightProperties.

(** *** Evaluation on sample models *)

Lemma result_value_default {A : Type} (r : result A) (d : A) :
  returns r = true -> r = Ok (default d (result_value r)).
Proof. destruct r; cbn; [reflexivity | discriminate]. Qed.

Ltac returns_by_computation :=
  apply result_value_default; vm_compute; reflexivity.





Lemma get_rlzs_assoc_without_realizations_witness :
  exists st,
    CompositeSourceModel_get_rlzs_assoc csm_sampling_empty tm_num_ruptures
    = Ok st /\
    b_heap st = [] /\
    b_assoc st = RlzsAssoc_init (info csm_sampling_empty) None /\
    realizations (b_assoc st) = [] /\
    rlzs_assoc (b_assoc st) = ∅ /\
    forall n (st0 : Building),
      realizations (b_assoc st0) = [] ->
      get_rlzs_assoc_weights n st0 = Ok st0.
Proof.
  apply (get_rlzs_assoc_without_realizations csm_sampling_empty
           tm_num_ruptures).
  intros sm Hin. apply list_elem_of_singleton in Hin. subst sm.
  vm_compute. reflexivity.
Defined.

(** C3, as stated, fails: with global seed 42 and four models of ordinals
    0, 1, 2 and 3 drawn 1, 3, 1 and 2 times, the generators are seeded with
    42, 43, 46 and 47, not with 42, 43, 44 and 45; and with the second
    model drawn twice instead of three times, the third model's generator
    is seeded with 45 instead of 46. *)
Lemma get_rlzs_assoc_seed_counterexample :
  seed (source_model_lt csm_sampling) = 42 /\
  sm_ordinal <$> source_models csm_sampling = [0; 1; 2; 3] /\
  b_log <$> result_value
    (CompositeSourceModel_get_rlzs_assoc csm_sampling tm_num_ruptures)
  = Some [RandomCreated 42; RandomCreated 43; RandomCreated 46;
          RandomCreated 47] /\
  sm_ordinal <$> source_models csm_sampling_fewer = [0; 1; 2; 3] /\
  b_log <$> result_value
    (CompositeSourceModel_get_rlzs_assoc csm_sampling_fewer tm_num_ruptures)
  = Some [RandomCreated 42; RandomCreated 43; RandomCreated 45;
          RandomCreated 46].
Proof. vm_compute. repeat split. Qed.

Lemma get_rlzs_assoc_seed_witness :
  let st := default (initial_building csm_sampling)
              (result_value
                 (get_rlzs_assoc_loop 42 7 tm_num_ruptures
                    (initial_building csm_sampling)
                    [model_of "SM0" (Q2Qc (1 # 4)) 0 1;
                     model_of "SM1" (Q2Qc (1 # 4)) 1 3])) in
  let smodel := model_of "SM2" (Q2Qc (1 # 4)) 2 1 in
  let post := [model_of "SM3" (Q2Qc (1 # 4)) 3 2] in
  let smodel1 :=
    set_sm_gsim_lt (reduced_gsim_lt tm_num_ruptures smodel) smodel in
  let created := Z.of_nat (length (b_heap st)) in
  get_rlzs_assoc_loop 42 7 tm_num_ruptures (initial_building csm_sampling)
    (source_models csm_sampling) =
  bind_result (get_rlzs_assoc_step 42 7 tm_num_ruptures st smodel)
    (fun st' => get_rlzs_assoc_loop 42 7 tm_num_ruptures st' post) /\
  model_rlzs 42 7 (b_idx st) smodel1 =
  sample (sm_gsim_lt smodel1) (sm_samples smodel1) (42 + created) /\
  forall st',
    get_rlzs_assoc_step 42 7 tm_num_ruptures st smodel = Ok st' ->
    exists warnings,
      b_log st' = b_log st ++ RandomCreated (42 + created) :: warnings.
Proof.
  intros st smodel post.
  apply (get_rlzs_assoc_seed csm_sampling tm_num_ruptures
           [model_of "SM0" (Q2Qc (1 # 4)) 0 1;
            model_of "SM1" (Q2Qc (1 # 4)) 1 3] post smodel st).
  - discriminate.
  - reflexivity.
  - returns_by_computation.
Defined.

(** ** SourceProcessor *)

Section SortedBy.

Context {A : Type} (before : A -> A -> bool).

Lemma insert_sorted_perm (x : A) (l : list A) :
  insert_sorted before x l ≡ₚ x :: l.
Proof.
  induction l as [|y l IH]; cbn; [reflexivity |].
  destruct (before y x); [| reflexivity].
  rewrite IH. apply Permutation_swap.
Qed.

Lemma sorted_by_perm (l : list A) : sorted_by before l ≡ₚ l.
Proof.
  induction l as [|x l IH]; cbn; [reflexivity |].
  now rewrite insert_sorted_perm, IH.
Qed.

Hypothesis before_asym : forall a b, before a b = true -> before b a = false.

Lemma insert_sorted_hd (x a : A) (l : list A) :
  before x a = false ->
  HdRel (fun a b => before b a = false) a l ->
  HdRel (fun a b => before b a = false) a (insert_sorted before x l).
Proof.
  intros Hxa Hhd. destruct l as [|y l]; cbn.
  - now constructor.
  - inversion_clear Hhd. destruct (before y x); now constructor.
Qed.

Lemma insert_sorted_Sorted (x : A) (l : list A) :
  Sorted (fun a b => before b a = false) l ->
  Sorted (fun a b => before b a = false) (insert_sorted before x l).
Proof.
  induction 1 as [|y l Hs IH Hhd]; cbn.
  - repeat constructor.
  - destruct (before y x) eqn:Hyx.
    + constructor; [exact IH |].
      apply insert_sorted_hd; [now apply before_asym | exact Hhd].
    + constructor; [now constructor | now constructor].
Qed.

Lemma sorted_by_Sorted (l : list A) :
  Sorted (fun a b => before b a = false) (sorted_by before l).
Proof.
  induction l as [|x l IH]; cbn; [constructor |].
  now apply insert_sorted_Sorted.
Qed.

End SortedBy.

Lemma string_ltb_asym (s t : string) :
  String.ltb s t = true -> String.ltb t s = false.
Proof.
  unfold String.ltb. rewrite (String.compare_antisym t s).
  destruct (String.compare s t); cbn; congruence.
Qed.

Lemma string_ltb_false_leb (s t : string) :
  String.ltb t s = false -> String.leb s t = true.
Proof.
  unfold String.ltb, String.leb. rewrite (String.compare_antisym t s).
  destruct (String.compare s t); cbn; congruence.
Qed.

Lemma Sorted_weaken {A : Type} (R S : A -> A -> Prop) (l : list A) :
  (forall a b, R a b -> S a b) -> Sorted R l -> Sorted S l.
Proof.
  intros HRS. induction 1 as [|x l _ IH Hhd]; constructor; [exact IH |].
  destruct Hhd; constructor. now apply HRS.
Qed.

Lemma sorted_by_source_id (l : list Source) :
  Sorted (fun a b => String.leb (source_id a) (source_id b) = true)
    (sorted_by (fun y x => String.ltb (source_id y) (source_id x)) l).
Proof.
  eapply Sorted_weaken;
    [| apply sorted_by_Sorted; intros a b; apply string_ltb_asym].
  intros a b. apply string_ltb_false_leb.
Qed.

Section ProcessorProperties.

Context {LT : LogicTree} {HL : HazardLib}.

Lemma accum_add_lookup (acc other : gmap Z (list Source)) (i : Z) :
  default [] (accum_add acc other !! i) =
  default [] (acc !! i) ++ default [] (other !! i).
Proof.
  unfold accum_add. rewrite lookup_union_with.
  destruct (acc !! i), (other !! i); cbn; rewrite ?app_nil_r; reflexivity.
Qed.

Lemma sources_of_id_app outs1 outs2 i :
  sources_of_id (outs1 ++ outs2) i =
  sources_of_id outs1 i ++ sources_of_id outs2 i.
Proof. unfold sources_of_id. apply bind_app. Qed.

Lemma foldl_agg_source_info outs :
  forall st,
    (foldl agg_source_info st outs).1 = st.1 ++ outs /\
    forall i,
      default [] ((foldl agg_source_info st outs).2 !! i) =
      default [] (st.2 !! i) ++ sources_of_id outs i.
Proof.
  induction outs as [|out outs IH]; intros st; cbn [foldl].
  - split; [now rewrite app_nil_r |]. intros i. now rewrite app_nil_r.
  - destruct (IH (agg_source_info st out)) as [IH1 IH2]. split.
    + rewrite IH1. cbn. now rewrite <- app_assoc.
    + intros i. rewrite IH2. cbn [agg_source_info snd].
      rewrite accum_add_lookup, <- app_assoc. f_equal.
      change (out :: outs) with ([out] ++ outs).
      rewrite sources_of_id_app. f_equal.
      unfold sources_of_id. rewrite bind_cons.
      change ([] ≫= _) with (@nil Source). rewrite app_nil_r.
      destruct (decide (si_trt_model_id out = i)) as [->|Hne].
      * rewrite lookup_singleton_eq.
        now rewrite bool_decide_eq_true_2 by reflexivity.
      * rewrite lookup_singleton_ne by exact Hne.
        now rewrite bool_decide_eq_false_2 by exact Hne.
Qed.

Lemma map_result_sources_of_id (self : SourceProcessor) sources :
  forall outs,
    map_result (fun src => filter_and_split src self) sources = Ok outs ->
    forall i, sources_of_id outs i = derived_sources self sources i.
Proof.
  induction sources as [|src sources IH]; intros outs; cbn [map_result].
  - intros [= <-] i. reflexivity.
  - destruct (filter_and_split src self) as [out|e] eqn:Hout;
      [| discriminate].
    destruct (map_result _ sources) as [outs'|e]; [| discriminate].
    intros [= <-] i. unfold sources_of_id, derived_sources.
    rewrite !bind_cons, Hout. f_equal. apply (IH outs' eq_refl i).
Qed.

Lemma derived_sources_perm (self : SourceProcessor) l l' i :
  l ≡ₚ l' -> derived_sources self l i ≡ₚ derived_sources self l' i.
Proof. intros Hp. unfold derived_sources. now rewrite Hp. Qed.

Lemma sources_of_id_perm l l' i :
  l ≡ₚ l' -> sources_of_id l i ≡ₚ sources_of_id l' i.
Proof. intros Hp. unfold sources_of_id. now rewrite Hp. Qed.

Lemma derived_sources_app (self : SourceProcessor) l l' i :
  derived_sources self (l ++ l') i =
  derived_sources self l i ++ derived_sources self l' i.
Proof. unfold derived_sources. apply bind_app. Qed.

(** What [process] comes to when it returns: the dictionary
    [sources_by_trt] holds for every id the sources derived for it, in some
    order, and the last loop is run with it. *)
Lemma SourceProcessor_process_spec (self : SourceProcessor)
    (csm csm' : CompositeSourceModel) times log :
  SourceProcessor_process self csm = Ok (csm', times, log) ->
  exists (sources_by_trt : gmap Z (list Source)) log0,
    (forall i,
       default [] (sources_by_trt !! i) ≡ₚ
       derived_sources self (CompositeSourceModel_get_sources csm).2 i) /\
    source_models csm' =
      (update_trt_models sources_by_trt <$>
         source_models (CompositeSourceModel_get_sources csm).1).*1 /\
    log = log0 ++
      concat (update_trt_models sources_by_trt <$>
                source_models (CompositeSourceModel_get_sources csm).1).*2.
Proof.
  unfold SourceProcessor_process.
  destruct (CompositeSourceModel_get_sources csm) as [csm1 sources].
  cbn [fst snd].
  destruct (map_result _ (filter (fun src => is_fast src = true) sources))
    as [fast_outs|e] eqn:Hfast; [| discriminate].
  destruct (foldl agg_source_info ([], ∅) fast_outs) as [outs1 fast_acc]
    eqn:Hfold1.
  destruct (map_result _ (filter (fun src => is_fast src <> true) sources))
    as [slow_outs|e] eqn:Hslow; [| discriminate].
  destruct (foldl agg_source_info (outs1, ∅)
              (completion_order SourceInfo slow_outs))
    as [outs2 slow_acc] eqn:Hfold2.
  intros [= <- <- <-].
  eexists _, _. split; [| split; reflexivity].
  intros i. rewrite accum_add_lookup.
  pose proof (proj2 (foldl_agg_source_info fast_outs ([], ∅)) i) as H1.
  pose proof (proj2 (foldl_agg_source_info
                       (completion_order SourceInfo slow_outs) (outs1, ∅)) i)
    as H2.
  rewrite Hfold1 in H1. rewrite Hfold2 in H2. cbn [snd] in H1, H2.
  rewrite lookup_empty in H1, H2. cbn in H1, H2. rewrite H2.
  rewrite (sources_of_id_perm _ _ i (completion_order_perm _ slow_outs)).
  rewrite (map_result_sources_of_id self _ _ Hslow i).
  rewrite <- (derived_sources_perm self _ _ i
                (filter_app_complement (fun src => is_fast src = true)
                   sources)).
  rewrite derived_sources_app. apply Permutation_app; [| reflexivity].
  rewrite <- (map_result_sources_of_id self _ _ Hfast i), <- H1.
  destruct (filter (fun src => is_fast src = true) sources) eqn:Hnil.
  - cbn in Hfast. injection Hfast as <-. cbn in Hfold1.
    injection Hfold1 as <- <-. now rewrite lookup_empty.
  - now rewrite accum_add_lookup, lookup_empty.
Qed.


Lemma filter_and_split_returns (self : SourceProcessor) (src : Source) :
  is_Some (trt_model_id src) ->
  exists out, filter_and_split src self = Ok out.
Proof.
  intros [i Hi]. unfold filter_and_split. rewrite Hi.
  destruct (sitecol self) as [sites|];
    [destruct (filter_sites_by_distance_to_source _ _ _) |]; eauto.
Qed.



Lemma get_sources_source_models (csm : CompositeSourceModel) :
  source_models (CompositeSourceModel_get_sources csm).1 =
  (fun sm =>
     set_sm_trt_models
       ((fun tm => set_tm_sources (tag_source tm <$> tm_sources tm) tm) <$>
        sm_trt_models sm) sm) <$> source_models csm.
Proof. reflexivity. Qed.

Lemma update_trt_models_warn (sbt : gmap Z (list Source))
    (sms : list SourceModel) (sm : SourceModel) (tm : TrtModel) :
  sm ∈ sms -> tm ∈ sm_trt_models sm ->
  sorted_by (fun y x => String.ltb (source_id y) (source_id x))
    (default [] (sbt !! tm_id tm)) = [] ->
  WarnNoSources (sm_name sm) (sm_path sm) (tm_trt tm)
  ∈ concat (update_trt_models sbt <$> sms).*2.
Proof.
  intros Hsm Htm Hnil. apply list_elem_of_In, in_concat.
  exists (update_trt_models sbt sm).2. split.
  - apply list_elem_of_In, list_elem_of_fmap_2, list_elem_of_fmap_2, Hsm.
  - apply list_elem_of_In. cbn. apply list_elem_of_bind.
    eexists. split; [| apply list_elem_of_fmap_2, Htm].
    cbn. rewrite bool_decide_eq_true_2 by exact Hnil.
    apply list_elem_of_here.
Qed.

(** C8. When [process] returns, the source models and their groups are
    the ones it was given, none removed and nothing changed but the lists
    of sources: every group has the sources derived for its id, sorted by
    [source_id], and a group left without any source is still there, a
    warning having been emitted for it. *)
Theorem SourceProcessor_process_groups (self : SourceProcessor)
    (csm csm' : CompositeSourceModel) (times : Qc * Qc) (log : list event) :
  SourceProcessor_process self csm = Ok (csm', times, log) ->
  Forall2
    (fun sm sm' =>
       sm' = set_sm_trt_models (sm_trt_models sm') sm /\
       Forall2
         (fun tm tm' =>
            tm' = set_tm_sources (tm_sources tm') tm /\
            Sorted (fun a b => String.leb (source_id a) (source_id b) = true)
              (tm_sources tm') /\
            tm_sources tm' ≡ₚ
              derived_sources self (CompositeSourceModel_get_sources csm).2
                (tm_id tm) /\
            (tm_sources tm' = [] ->
             WarnNoSources (sm_name sm) (sm_path sm) (tm_trt tm) ∈ log))
         (sm_trt_models sm) (sm_trt_models sm'))
    (source_models csm) (source_models csm').
Proof.
  intros Hproc.
  apply SourceProcessor_process_spec in Hproc
    as (sbt & log0 & Hsbt & Hmodels & Hlog).
  rewrite Hmodels, Hlog. clear Hmodels Hlog.
  set (sources := (CompositeSourceModel_get_sources csm).2) in *.
  rewrite get_sources_source_models.
  set (tag_group := fun tm : TrtModel =>
         set_tm_sources (tag_source tm <$> tm_sources tm) tm).
  set (tag_model := fun sm : SourceModel =>
         set_sm_trt_models (tag_group <$> sm_trt_models sm) sm).
  assert (forall sm tm,
            sm ∈ source_models csm -> tm ∈ sm_trt_models sm ->
            sorted_by (fun y x => String.ltb (source_id y) (source_id x))
              (default [] (sbt !! tm_id tm)) = [] ->
            WarnNoSources (sm_name sm) (sm_path sm) (tm_trt tm)
            ∈ log0 ++ concat (update_trt_models sbt <$>
                                (tag_model <$> source_models csm)).*2)
    as Hwarn.
  { intros sm tm Hsm Htm Hnil. apply elem_of_app. right.
    apply (update_trt_models_warn sbt _ (tag_model sm) (tag_group tm)).
    - now apply list_elem_of_fmap_2.
    - cbn. now apply list_elem_of_fmap_2.
    - exact Hnil. }
  rewrite <- !list_fmap_compose.
  apply Forall2_fmap_r, Forall_Forall2_diag, list.Forall_forall.
  intros sm Hsm. cbn. split; [reflexivity |].
  rewrite <- !list_fmap_compose.
  apply Forall2_fmap_r, Forall_Forall2_diag, list.Forall_forall.
  intros tm Htm. cbn. split; [reflexivity |].
  split; [apply sorted_by_source_id |].
  split; [rewrite sorted_by_perm; apply Hsbt |].
  intros Hnil. rewrite <- !list_fmap_compose in Hwarn. now apply Hwarn.
Qed.

End ProcessorProperties.

(** On the sample model: the first group gets the five parts of its four
    sources in the order of their ids, the second group is left empty and
    a warning is emitted for it. *)
Lemma SourceProcessor_process_sample :
  match SourceProcessor_process processor_200km csm_two_groups with
  | Ok (csm', _, log) =>
      ((fun sm => (fun tm => (tm_id tm, source_id <$> tm_sources tm)) <$>
                  sm_trt_models sm) <$> source_models csm',
       log)
  | Raise _ => ([], [])
  end =
  ([[(0, ["a1:0"; "a1:1"; "f1"; "f2"; "p1"]); (1, [])]],
   [WarnParallel 2; WarnSequential 3;
    WarnNoSources "SM0" ["SM0"] stable_shallow]).
Proof. vm_compute. reflexivity. Qed.

Lemma SourceProcessor_process_groups_witness :
  let out := default (csm_two_groups, (0%Qc, 0%Qc), [])
               (result_value
                  (SourceProcessor_process processor_200km csm_two_groups)) in
  Forall2
    (fun sm sm' =>
       sm' = set_sm_trt_models (sm_trt_models sm') sm /\
       Forall2
         (fun tm tm' =>
            tm' = set_tm_sources (tm_sources tm') tm /\
            Sorted (fun a b => String.leb (source_id a) (source_id b) = true)
              (tm_sources tm') /\
            tm_sources tm' ≡ₚ
              derived_sources processor_200km
                (CompositeSourceModel_get_sources csm_two_groups).2
                (tm_id tm) /\
            (tm_sources tm' = [] ->
             WarnNoSources (sm_name sm) (sm_path sm) (tm_trt tm) ∈ out.2))
         (sm_trt_models sm) (sm_trt_models sm'))
    (source_models csm_two_groups) (source_models out.1.1).
Proof.
  intros out.
  apply (SourceProcessor_process_groups processor_200km csm_two_groups
           out.1.1 out.1.2 out.2).
  replace (out.1.1, out.1.2, out.2) with out by now destruct out as [[? ?] ?].
  apply result_value_default. vm_compute. reflexivity.
Defined.

(** * Further properties *)

(** ** The order of strings *)

Lemma string_compare_refl (s : string) : String.compare s s = Eq.
Proof.
  induction s as [|a s IH]; cbn; [reflexivity |].
  unfold Ascii.compare. now rewrite N.compare_refl.
Qed.

Lemma string_compare_lt_trans (a b c : string) :
  String.compare a b = Lt -> String.compare b c = Lt ->
  String.compare a c = Lt.
Proof.
  revert b c. induction a as [|x a IH]; intros [|y b] [|z c]; cbn;
    try discriminate; try reflexivity.
  unfold Ascii.compare.
  destruct (N.compare_spec (N_of_ascii x) (N_of_ascii y)) as [Hxy|Hxy|Hxy];
    try discriminate;
    destruct (N.compare_spec (N_of_ascii y) (N_of_ascii z)) as [Hyz|Hyz|Hyz];
    try discriminate; intros Hab Hbc.
  - rewrite Hxy, Hyz, N.compare_refl. eapply IH; eassumption.
  - rewrite Hxy. now apply N.compare_lt_iff in Hyz as ->.
  - rewrite <- Hyz. now apply N.compare_lt_iff in Hxy as ->.
  - assert (N_of_ascii x < N_of_ascii z)%N as Hxz by lia.
    now apply N.compare_lt_iff in Hxz as ->.
Qed.

Lemma string_ltb_irrefl (s : string) : String.ltb s s = false.
Proof. unfold String.ltb. now rewrite string_compare_refl. Qed.

Lemma string_ltb_trans (a b c : string) :
  String.ltb a b = true -> String.ltb b c = true -> String.ltb a c = true.
Proof.
  unfold String.ltb. intros Hab Hbc.
  rewrite (string_compare_lt_trans a b c); [reflexivity | |].
  - now destruct (String.compare a b).
  - now destruct (String.compare b c).
Qed.

Lemma string_ltb_total (a b : string) :
  String.ltb a b = false -> String.ltb b a = false -> a = b.
Proof.
  unfold String.ltb. rewrite (String.compare_antisym b a).
  destruct (String.compare a b) eqn:Hc; cbn; try discriminate.
  intros _ _. now apply String.compare_eq_iff.
Qed.

(** ** TrtModel: the order *)

Lemma TrtModel_lt_irrefl (a : TrtModel) : TrtModel_lt a a = false.
Proof.
  unfold TrtModel_lt. rewrite bool_decide_eq_true_2 by reflexivity.
  apply string_ltb_irrefl.
Qed.

Lemma TrtModel_lt_trans (a b c : TrtModel) :
  TrtModel_lt a b = true -> TrtModel_lt b c = true -> TrtModel_lt a c = true.
Proof.
  unfold TrtModel_lt. repeat case_bool_decide; intros Hab Hbc;
    try (apply bool_decide_eq_true in Hab);
    try (apply bool_decide_eq_true in Hbc);
    try (apply bool_decide_eq_true); try lia.
  eapply string_ltb_trans; eassumption.
Qed.

Lemma TrtModel_lt_total (a b : TrtModel) :
  TrtModel_lt a b = false -> TrtModel_lt b a = false ->
  length (tm_sources a) = length (tm_sources b) /\ tm_trt a = tm_trt b.
Proof.
  unfold TrtModel_lt. repeat case_bool_decide; intros Hab Hba;
    try (apply bool_decide_eq_false in Hab);
    try (apply bool_decide_eq_false in Hba); try lia.
  split; [assumption | now apply string_ltb_total].
Qed.

Lemma TrtModel_lt_asym (a b : TrtModel) :
  TrtModel_lt a b = true -> TrtModel_lt b a = false.
Proof.
  intros Hab. destruct (TrtModel_lt b a) eqn:Hba; [| reflexivity].
  pose proof (TrtModel_lt_trans _ _ _ Hab Hba) as Haa.
  now rewrite TrtModel_lt_irrefl in Haa.
Qed.

(** X1. [TrtModel.__lt__] is a strict order on the pairs (number of
    sources, tectonic region type): nothing is below itself, the order is
    transitive, and two groups neither of which is below the other have the
    same number of sources and the same tectonic region type. *)
Theorem TrtModel_lt_strict_order :
  (forall a, TrtModel_lt a a = false) /\
  (forall a b c,
     TrtModel_lt a b = true -> TrtModel_lt b c = true ->
     TrtModel_lt a c = true) /\
  (forall a b,
     TrtModel_lt a b = false -> TrtModel_lt b a = false ->
     length (tm_sources a) = length (tm_sources b) /\ tm_trt a = tm_trt b).
Proof.
  split; [exact TrtModel_lt_irrefl |].
  split; [exact TrtModel_lt_trans | exact TrtModel_lt_total].
Qed.

(** ** agg_prob *)



(** ** CompositionInfo: the lookups *)

Section CompositionLookups.

Context {LT : LogicTree}.

Lemma init_trt_loop_num_samples sm d ns c :
  (init_trt_loop sm (d, ns, c)).1.2 = num_samples_step ns sm.
Proof.
  unfold init_trt_loop, num_samples_step.
  generalize (sm_trt_models sm) as tms. intros tms. revert d ns c.
  induction tms as [|tm tms IH]; intros d ns c; cbn [foldl].
  - now case_bool_decide.
  - destruct (init_idx_loop (tm_id tm) (sm_samples sm) (d, c)) as [d' c'].
    rewrite IH. now case_bool_decide.
Qed.

Lemma init_models_loop_num_samples sms :
  forall d ns c,
    (foldl (fun st sm => init_trt_loop sm st) (d, ns, c) sms).1.2 =
    foldl num_samples_step ns sms.
Proof.
  induction sms as [|sm sms IH]; intros d ns c; cbn [foldl]; [reflexivity |].
  pose proof (init_trt_loop_num_samples sm d ns c) as Hstep.
  destruct (init_trt_loop sm (d, ns, c)) as [[d' ns'] c']. cbn in Hstep.
  rewrite IH. now subst ns'.
Qed.

Lemma CompositionInfo_init_num_samples sms :
  num_samples_dict (CompositionInfo_init sms) = foldl num_samples_step ∅ sms.
Proof.
  unfold CompositionInfo_init.
  pose proof (init_models_loop_num_samples sms ∅ ∅ 0) as Hns.
  destruct (foldl _ _ sms) as [[d ns] c]. exact Hns.
Qed.

Lemma foldl_insert_samples (s : Z) (tms : list TrtModel) :
  forall (ns : gmap Z Z) (i : Z),
    foldl (fun ns tm => <[tm_id tm := s]> ns) ns tms !! i =
    if bool_decide (i ∈ tm_id <$> tms) then Some s else ns !! i.
Proof.
  induction tms as [|tm tms IH]; intros ns i; cbn [foldl].
  - now rewrite bool_decide_eq_false_2 by apply not_elem_of_nil.
  - rewrite IH, fmap_cons.
    destruct (decide (i ∈ tm_id <$> tms)) as [Hin|Hnin].
    + rewrite !bool_decide_eq_true_2; [reflexivity | | exact Hin].
      now apply list_elem_of_further.
    + rewrite (bool_decide_eq_false_2 _ Hnin).
      destruct (decide (tm_id tm = i)) as [<-|Hne].
      * rewrite lookup_insert_eq.
        now rewrite bool_decide_eq_true_2 by apply list_elem_of_here.
      * rewrite lookup_insert_ne by exact Hne.
        rewrite bool_decide_eq_false_2; [reflexivity |].
        rewrite elem_of_cons. intros [?|?]; [congruence | tauto].
Qed.

(** The entry of a group id in [_num_samples] is the sample count of an
    oversampled model that has a group of this id. *)
Lemma num_samples_lookup sms :
  forall (ns : gmap Z Z) (i s : Z),
    foldl num_samples_step ns sms !! i = Some s ->
    ns !! i = Some s \/
    exists sm, sm ∈ sms /\ sm_samples sm = s /\ s > 1 /\
               i ∈ tm_id <$> sm_trt_models sm.
Proof.
  induction sms as [|sm sms IH]; intros ns i s; cbn [foldl]; [auto |].
  intros Hs. apply IH in Hs as [Hs|(sm' & Hin & ? & ? & ?)].
  - unfold num_samples_step in Hs. case_bool_decide as Hgt; [| auto].
    rewrite foldl_insert_samples in Hs. case_bool_decide as Hi; [| auto].
    injection Hs as <-. right. exists sm.
    split; [apply list_elem_of_here | auto].
  - right. exists sm'. split; [now apply list_elem_of_further | auto].
Qed.

Lemma num_samples_lookup_oversampled sms :
  forall (ns : gmap Z Z) (i : Z) sm,
    sm ∈ sms -> sm_samples sm > 1 -> i ∈ tm_id <$> sm_trt_models sm ->
    exists s, foldl num_samples_step ns sms !! i = Some s.
Proof.
  assert (forall sms (ns : gmap Z Z) i,
            is_Some (ns !! i) ->
            is_Some (foldl num_samples_step ns sms !! i)) as Hkeep.
  { intros l. induction l as [|sm l IH]; intros ns i Hi; cbn [foldl];
      [exact Hi |].
    apply IH. unfold num_samples_step. case_bool_decide; [| exact Hi].
    rewrite foldl_insert_samples. case_bool_decide; eauto. }
  induction sms as [|sm0 sms IH]; intros ns i sm Hin Hgt Hi; cbn [foldl].
  - now apply elem_of_nil in Hin.
  - apply elem_of_cons in Hin as [->|Hin]; [| eapply IH; eassumption].
    apply Hkeep. unfold num_samples_step.
    rewrite bool_decide_eq_true_2 by exact Hgt.
    rewrite foldl_insert_samples.
    rewrite bool_decide_eq_true_2 by exact Hi. eauto.
Qed.

Lemma foldl_max_ge (v : Z) (values : list Z) :
  v <= foldl Z.max v values /\
  forall x, x ∈ values -> x <= foldl Z.max v values.
Proof.
  revert v. induction values as [|y values IH]; intros v; cbn [foldl].
  - split; [lia |]. intros x Hx. now apply elem_of_nil in Hx.
  - destruct (IH (Z.max v y)) as [H1 H2]. split; [lia |].
    intros x [->|Hx]%elem_of_cons; [lia | now apply H2].
Qed.

Lemma foldl_max_in (v : Z) (values : list Z) :
  foldl Z.max v values ∈ v :: values.
Proof.
  revert v. induction values as [|y values IH]; intros v; cbn [foldl].
  - apply list_elem_of_here.
  - specialize (IH (Z.max v y)).
    apply elem_of_cons in IH as [Heq|Hin].
    + rewrite Heq. destruct (Z.max_spec v y) as [[_ ->]|[_ ->]].
      * apply list_elem_of_further, list_elem_of_here.
      * apply list_elem_of_here.
    + now apply list_elem_of_further, list_elem_of_further.
Qed.

(** X3. [get_num_samples] gives 1 for a group id that no oversampled
    model has, and otherwise the sample count, greater than 1, of an
    oversampled model with a group of this id; [get_max_samples] is at
    least 1 and at least every [get_num_samples], and a value that some
    group id has unless no model is oversampled. *)
Theorem CompositionInfo_num_samples_spec (source_models : list SourceModel) :
  let info := CompositionInfo_init source_models in
  (forall trt_id,
     (forall sm, sm ∈ source_models -> sm_samples sm > 1 ->
                 trt_id ∉ tm_id <$> sm_trt_models sm) ->
     CompositionInfo_get_num_samples info trt_id = 1) /\
  (forall trt_id sm,
     sm ∈ source_models -> sm_samples sm > 1 ->
     trt_id ∈ tm_id <$> sm_trt_models sm ->
     exists sm',
       sm' ∈ source_models /\ sm_samples sm' > 1 /\
       trt_id ∈ tm_id <$> sm_trt_models sm' /\
       CompositionInfo_get_num_samples info trt_id = sm_samples sm') /\
  (forall trt_id,
     1 <= CompositionInfo_get_num_samples info trt_id
       <= CompositionInfo_get_max_samples info) /\
  (CompositionInfo_get_max_samples info = 1 \/
   exists trt_id,
     CompositionInfo_get_max_samples info =
     CompositionInfo_get_num_samples info trt_id).
Proof.
  intros info. subst info.
  unfold CompositionInfo_get_num_samples, CompositionInfo_get_max_samples.
  rewrite CompositionInfo_init_num_samples.
  set (ns := foldl num_samples_step ∅ source_models).
  assert (forall i s, ns !! i = Some s ->
            exists sm, sm ∈ source_models /\ sm_samples sm = s /\ s > 1 /\
                       i ∈ tm_id <$> sm_trt_models sm) as Hsome.
  { intros i s Hs. apply num_samples_lookup in Hs as [Hs|Hs]; [| exact Hs].
    rewrite lookup_empty in Hs. discriminate. }
  split; [| split; [| split]].
  - intros i Hnone. destruct (ns !! i) as [s|] eqn:Hs; [| reflexivity].
    destruct (Hsome i s Hs) as (sm & Hin & <- & Hgt & Hi).
    now elim (Hnone sm Hin Hgt).
  - intros i sm Hin Hgt Hi.
    destruct (num_samples_lookup_oversampled source_models ∅ i sm Hin Hgt Hi)
      as [s Hs].
    fold ns in Hs. rewrite Hs. cbn.
    destruct (Hsome i s Hs) as (sm' & Hin' & <- & Hgt' & Hi').
    exists sm'. auto.
  - intros i.
    assert (1 <= default 1 (ns !! i)) as Hge.
    { destruct (ns !! i) as [s|] eqn:Hs; cbn; [| lia].
      destruct (Hsome i s Hs) as (_ & _ & _ & ? & _). lia. }
    split; [exact Hge |].
    destruct (map_to_list ns).*2 as [|v values] eqn:Hvalues.
    + apply fmap_nil_inv, map_to_list_empty_iff in Hvalues.
      rewrite Hvalues, lookup_empty. cbn. lia.
    + destruct (ns !! i) as [s|] eqn:Hs; cbn.
      * assert (s ∈ v :: values) as Hin.
        { rewrite <- Hvalues. apply list_elem_of_fmap.
          exists (i, s). split; [reflexivity |].
          now apply elem_of_map_to_list. }
        destruct (foldl_max_ge v values) as [H1 H2].
        apply elem_of_cons in Hin as [->|Hin]; [exact H1 | now apply H2].
      * assert (v ∈ (map_to_list ns).*2) as Hv
          by (rewrite Hvalues; apply list_elem_of_here).
        apply list_elem_of_fmap in Hv as ([j s] & -> & Hjs).
        apply elem_of_map_to_list in Hjs.
        destruct (Hsome j s Hjs) as (_ & _ & _ & ? & _).
        destruct (foldl_max_ge s values) as [H1 _]. cbn in *. lia.
  - destruct (map_to_list ns).*2 as [|v values] eqn:Hvalues; [now left |].
    right. pose proof (foldl_max_in v values) as Hin.
    rewrite <- Hvalues in Hin.
    apply list_elem_of_fmap in Hin as ([j s] & Heq & Hjs).
    apply elem_of_map_to_list in Hjs. exists j. now rewrite Hjs.
Qed.


Lemma col_dict_injective sms (k1 k2 : Z * Z) (c : Z) :
  col_dict (CompositionInfo_init sms) !! k1 = Some c ->
  col_dict (CompositionInfo_init sms) !! k2 = Some c -> k1 = k2.
Proof.
  destruct (CompositionInfo_init_col_dict sms) as [-> _].
  intros (n1 & -> & H1)%numbered_inserts_some
         (n2 & Heq & H2)%numbered_inserts_some.
  assert (n1 = n2) as -> by lia. congruence.
Qed.

Lemma col_dict_range sms (k : Z * Z) (c : Z) :
  col_dict (CompositionInfo_init sms) !! k = Some c ->
  0 <= c < num_collections (CompositionInfo_init sms).
Proof.
  destruct (CompositionInfo_init_col_dict sms) as [-> ->].
  intros (n & -> & Hn%lookup_lt_Some)%numbered_inserts_some. lia.
Qed.

Lemma get_trt_id_found sms (col_id trt_id : Z) :
  CompositionInfo_get_trt_id (CompositionInfo_init sms) col_id = Ok trt_id ->
  exists idx,
    col_dict (CompositionInfo_init sms) !! (trt_id, idx) = Some col_id.
Proof.
  unfold CompositionInfo_get_trt_id.
  destruct (list_find _ _) as [[n [[t' i] c']]|] eqn:Hfind; [| discriminate].
  intros [= <-]. apply list_find_Some in Hfind as (Hn & Hc & _).
  cbn in Hc. subst c'. exists i.
  apply elem_of_map_to_list, list_elem_of_lookup. eauto.
Qed.

Lemma get_trt_id_raises sms (col_id : Z) (e : exn) :
  CompositionInfo_get_trt_id (CompositionInfo_init sms) col_id = Raise e ->
  e = KeyError /\
  forall k, col_dict (CompositionInfo_init sms) !! k <> Some col_id.
Proof.
  unfold CompositionInfo_get_trt_id.
  destruct (list_find _ _) as [[n [[t' i'] c']]|] eqn:Hfind; [discriminate |].
  intros [= <-]. split; [reflexivity |]. intros [t i] Hk.
  apply list_find_None in Hfind. rewrite list.Forall_forall in Hfind.
  apply (Hfind (t, i, col_id)); [| reflexivity].
  now apply elem_of_map_to_list.
Qed.

Lemma get_trt_id_of_col_id sms (trt_id idx col_id : Z) :
  CompositionInfo_get_col_id (CompositionInfo_init sms) trt_id idx
  = Ok col_id ->
  CompositionInfo_get_trt_id (CompositionInfo_init sms) col_id = Ok trt_id.
Proof.
  unfold CompositionInfo_get_col_id.
  destruct (col_dict _ !! (trt_id, idx)) as [c'|] eqn:Hc; [| discriminate].
  intros [= ->].
  destruct (CompositionInfo_get_trt_id _ col_id) as [t'|e] eqn:Hget.
  - destruct (get_trt_id_found _ _ _ Hget) as [i' Hc'].
    pose proof (col_dict_injective _ _ _ _ Hc Hc') as Heq. congruence.
  - apply get_trt_id_raises in Hget as [_ Hnone]. now elim (Hnone _ Hc).
Qed.

(** X4. [get_trt_id] undoes [get_col_id]: the group id found for a
    collection id is the one, the only one, under which [get_col_id] gives
    this collection id, whatever the order in which the dictionary is gone
    through; a collection id outside 0 .. num_collections - 1 raises
    [KeyError]. *)
Theorem CompositionInfo_get_trt_id_spec (source_models : list SourceModel) :
  let info := CompositionInfo_init source_models in
  (forall trt_id idx col_id,
     CompositionInfo_get_col_id info trt_id idx = Ok col_id ->
     CompositionInfo_get_trt_id info col_id = Ok trt_id) /\
  (forall col_id trt_id,
     CompositionInfo_get_trt_id info col_id = Ok trt_id ->
     exists idx, CompositionInfo_get_col_id info trt_id idx = Ok col_id) /\
  (forall col_id,
     ~ (0 <= col_id < num_collections info) ->
     CompositionInfo_get_trt_id info col_id = Raise KeyError).
Proof.
  intros info. subst info. split; [| split].
  - apply get_trt_id_of_col_id.
  - intros c t Hget. destruct (get_trt_id_found _ _ _ Hget) as [i Hc].
    exists i. unfold CompositionInfo_get_col_id. now rewrite Hc.
  - intros c Hout.
    destruct (CompositionInfo_get_trt_id _ c) as [t|e] eqn:Hget.
    + destruct (get_trt_id_found _ _ _ Hget) as [i Hc].
      apply col_dict_range in Hc. now elim Hout.
    + now apply get_trt_id_raises in Hget as [-> _].
Qed.

Lemma CompositionInfo_init_source_models sms :
  info_source_models (CompositionInfo_init sms) = get_skeleton <$> sms.
Proof.
  unfold CompositionInfo_init. now destruct (foldl _ _ sms) as [[d ns] c].
Qed.

Lemma walk_single_samples sms :
  (forall sm, sm ∈ sms -> sm_samples sm = 1) ->
  walk sms = (fun i => (i, 0)) <$> (tm_id <$> (sm ← sms; sm_trt_models sm)).
Proof.
  unfold walk. induction sms as [|sm sms IH]; intros Hone; [reflexivity |].
  rewrite !bind_cons, !fmap_app, <- IH
    by (intros sm' Hin; apply Hone; now apply list_elem_of_further).
  f_equal. rewrite (Hone sm) by apply list_elem_of_here.
  generalize (sm_trt_models sm) as tms.
  induction tms as [|tm tms IHt]; [reflexivity |].
  rewrite bind_cons, !fmap_cons, <- IHt. reflexivity.
Qed.

(** X5. Without oversampling, when every model is sampled once and the
    groups are numbered 0, 1, 2, ... in the order of the models, the
    collection ids are the group ids: [get_col_id(i, 0)] and
    [get_trt_id(i)] both give [i], there are as many collections as
    groups, and the ids that [get_col_ids] gives for a realization without
    collection ids of its own are collection ids. *)
Theorem CompositionInfo_col_ids_are_trt_ids
    (source_models : list SourceModel) (n : Z) :
  (forall sm, sm ∈ source_models -> sm_samples sm = 1) ->
  tm_id <$> (sm ← source_models; sm_trt_models sm) = seqZ 0 n ->
  let info := CompositionInfo_init source_models in
  num_collections info = Z.max 0 n /\
  (forall i, 0 <= i < n ->
     CompositionInfo_get_col_id info i 0 = Ok i /\
     CompositionInfo_get_trt_id info i = Ok i) /\
  (forall rlz c,
     col_ids rlz = ∅ -> c ∈ CompositionInfo_get_col_ids info rlz ->
     CompositionInfo_get_col_id info c 0 = Ok c).
Proof.
  intros Hone Hids info.
  pose proof (walk_single_samples source_models Hone) as Hwalk.
  rewrite Hids in Hwalk.
  assert (forall i, 0 <= i < n ->
            CompositionInfo_get_col_id info i 0 = Ok i) as Hcol.
  { intros i Hi.
    unfold CompositionInfo_get_col_id.
    destruct (CompositionInfo_init_col_dict source_models) as [Hd _].
    fold info in Hd. rewrite Hd.
    rewrite (numbered_inserts_last 0 _ _ (Z.to_nat i) (i, 0));
      [f_equal; lia | |].
    - rewrite Hwalk, list_lookup_fmap, lookup_seqZ_lt by lia.
      cbn. do 2 f_equal. lia.
    - intros k' Hk'. rewrite Hwalk, list_lookup_fmap.
      destruct (seqZ 0 n !! k') as [j|] eqn:Hj; cbn; [| discriminate].
      apply lookup_seqZ in Hj as [-> _]. intros [= Heq]. lia. }
  split; [| split].
  - destruct (CompositionInfo_init_col_dict source_models) as [_ Hn].
    fold info in Hn. rewrite Hn, Hwalk, length_fmap, length_seqZ. lia.
  - intros i Hi. split; [now apply Hcol |].
    apply (get_trt_id_of_col_id source_models i 0 i). now apply Hcol.
  - intros rlz c Hempty. unfold CompositionInfo_get_col_ids.
    rewrite bool_decide_eq_false_2 by (intros H; now apply H).
    rewrite elem_of_list_to_set. intros Hc. apply Hcol.
    assert (c ∈ seqZ 0 n) as Hin.
    { rewrite <- Hids. apply list_elem_of_bind in Hc as (sm & Hc & Hsm).
      case_bool_decide; [| now apply elem_of_nil in Hc].
      unfold info in Hsm. rewrite CompositionInfo_init_source_models in Hsm.
      apply list_elem_of_fmap in Hsm as (sm0 & -> & Hsm0).
      cbn in Hc. rewrite <- list_fmap_compose in Hc.
      apply list_elem_of_fmap in Hc as (tm & -> & Htm).
      apply list_elem_of_fmap. exists tm. split; [reflexivity |].
      apply list_elem_of_bind. eauto. }
    apply elem_of_seqZ in Hin. lia.
Qed.

End CompositionLookups.

Lemma CompositionInfo_col_ids_are_trt_ids_witness :
  let info := CompositionInfo_init models_sampled_once in
  num_collections info = Z.max 0 3 /\
  (forall i, 0 <= i < 3 ->
     CompositionInfo_get_col_id info i 0 = Ok i /\
     CompositionInfo_get_trt_id info i = Ok i) /\
  (forall rlz c,
     col_ids rlz = ∅ -> c ∈ CompositionInfo_get_col_ids info rlz ->
     CompositionInfo_get_col_id info c 0 = Ok c).
Proof.
  apply (CompositionInfo_col_ids_are_trt_ids models_sampled_once 3).
  - intros sm Hin.
    repeat (apply elem_of_cons in Hin as [->|Hin]; [reflexivity |]).
    now apply elem_of_nil in Hin.
  - vm_compute. reflexivity.
Defined.

Section Skeleton.

Context {LT : LogicTree}.

Lemma get_skeleton_idempotent (sm : SourceModel) :
  get_skeleton (get_skeleton sm) = get_skeleton sm.
Proof.
  unfold get_skeleton, set_sm_trt_models. cbn. f_equal.
  rewrite map_map. reflexivity.
Qed.

Lemma init_trt_loop_skeleton (sm : SourceModel) st :
  init_trt_loop (get_skeleton sm) st = init_trt_loop sm st.
Proof.
  unfold init_trt_loop, get_skeleton. cbn.
  generalize (sm_trt_models sm) as tms. intros tms. revert st.
  induction tms as [|tm tms IH]; intros st; [reflexivity |].
  cbn [map foldl]. rewrite IH. now destruct st as [[d ns] c].
Qed.

(** X6. A skeleton keeps the name, weight, path, logic tree, ordinal and
    sample count of its source model and the groups without their sources;
    taking the skeleton twice changes nothing more, and the composition
    information built from the skeletons is the one built from the source
    models. *)
Theorem get_skeleton_spec (source_models : list SourceModel) :
  (forall sm,
     get_skeleton (get_skeleton sm) = get_skeleton sm /\
     get_skeleton sm = set_sm_trt_models (sm_trt_models (get_skeleton sm)) sm /\
     Forall2 (fun tm tm' => tm' = set_tm_sources [] tm)
       (sm_trt_models sm) (sm_trt_models (get_skeleton sm))) /\
  CompositionInfo_init (get_skeleton <$> source_models) =
  CompositionInfo_init source_models.
Proof.
  split.
  - intros sm. split; [apply get_skeleton_idempotent |].
    split; [reflexivity |]. cbn.
    apply Forall2_fmap_r, Forall_Forall2_diag, list.Forall_forall.
    reflexivity.
  - unfold CompositionInfo_init.
    assert (forall st,
              foldl (fun st sm => init_trt_loop sm st) st
                (get_skeleton <$> source_models) =
              foldl (fun st sm => init_trt_loop sm st) st source_models)
      as ->.
    { induction source_models as [|sm sms IH]; intros st; [reflexivity |].
      cbn [fmap list_fmap foldl]. rewrite init_trt_loop_skeleton. apply IH. }
    destruct (foldl _ _ source_models) as [[d ns] c]. f_equal.
    rewrite <- list_fmap_compose. apply list_fmap_ext.
    intros i sm _. apply get_skeleton_idempotent.
Qed.

End Skeleton.

(** ** CompositeSourceModel: the realization objects and the reverse index *)

Section ReverseIndex.

Context {LT : LogicTree}.

Lemma add_col_ids_empty (rlz : LtRealization) : add_col_ids ∅ rlz = rlz.
Proof.
  destruct rlz. unfold add_col_ids. cbn. f_equal. apply (left_id_L ∅ (∪)).
Qed.

Lemma add_col_ids_add_col_id (cs : gset Z) (c : Z) (rlz : LtRealization) :
  add_col_ids cs (add_col_id c rlz) = add_col_ids ({[c]} ∪ cs) rlz.
Proof.
  unfold add_col_ids, add_col_id. cbn. f_equal.
  now rewrite (assoc_L (∪)), (comm_L (∪) cs {[c]}).
Qed.

Lemma list_alter_twice {A : Type} (f g : A -> A) (i : nat) (l : list A) :
  alter f i (alter g i l) = alter (f ∘ g) i l.
Proof.
  revert i. induction l as [|x l IH]; intros [|i]; cbn; [reflexivity .. |].
  f_equal. apply IH.
Qed.

Lemma rlzs_assoc_getitem_Ok (self self1 : RlzsAssoc (Z * string) nat)
    key rlzs :
  rlzs_assoc_getitem self key = (self1, Ok rlzs) ->
  rlzs = default [] (rlzs_assoc self !! key) /\
  csm_info self1 = csm_info self /\
  forall key', key' <> key ->
    default [] (rlzs_assoc self1 !! key') =
    default [] (rlzs_assoc self !! key').
Proof.
  unfold rlzs_assoc_getitem.
  destruct (rlzs_assoc self !! key) as [l|] eqn:Hkey.
  - intros [= <- <-]. auto.
  - destruct (rlzs_assoc_default self); [| discriminate].
    intros [= <- <-]. cbn. split; [reflexivity |]. split; [reflexivity |].
    intros key' Hne. now rewrite lookup_insert_ne by congruence.
Qed.

Lemma add_realization_groups_spec lt_model i g (r : nat) trt_models :
  forall heap self heap' self' trt_models',
    add_realization_groups lt_model i g r heap self trt_models
    = Ok (heap', self', trt_models') ->
    heap' =
      alter (add_col_ids
               (if bool_decide (sm_samples lt_model > 1)
                then group_col_ids (csm_info self) i trt_models else ∅))
        r heap /\
    (forall key (x : nat),
       x ∈ default [] (rlzs_assoc self' !! key) <->
       x ∈ default [] (rlzs_assoc self !! key) \/
       x = r /\ key ∈ assoc_keys (sm_gsim_lt lt_model) g trt_models) /\
    Forall2 (fun tm tm' => tm_id tm' = tm_id tm /\ tm_trt tm' = tm_trt tm)
      trt_models trt_models'.
Proof.
  induction trt_models as [|tm rest IH]; intros heap self heap' self' tms';
    cbn [add_realization_groups].
  - intros [= <- <- <-]. split; [| split; [| constructor]].
    + unfold group_col_ids. cbn.
      replace (if bool_decide (sm_samples lt_model > 1) then _ else _)
        with (∅ : gset Z)
        by (destruct (bool_decide (sm_samples lt_model > 1)); reflexivity).
      symmetry. apply list_alter_id, add_col_ids_empty.
    + intros key x. unfold assoc_keys. cbn. rewrite elem_of_nil. tauto.
  - set (key0 := (tm_id tm,
                  get_gsim_by_trt (sm_gsim_lt lt_model) g (tm_trt tm))).
    destruct (rlzs_assoc_getitem self key0) as [self1 [rlzs|e]] eqn:Hget;
      [| discriminate].
    apply rlzs_assoc_getitem_Ok in Hget as (-> & Hinfo & Hother).
    destruct (values (sm_gsim_lt lt_model) !! tm_trt tm) as [gsims|];
      [| discriminate].
    destruct (if bool_decide (sm_samples lt_model > 1) then _ else _)
      as [heap1|e] eqn:Hover; [| discriminate].
    destruct (add_realization_groups _ _ _ _ heap1 _ rest)
      as [[[heap2 self2] rest']|e] eqn:Hrec; [| discriminate].
    intros [= <- <- <-].
    apply IH in Hrec as (Hheap & Hassoc & Hframe). cbn in Hheap.
    split; [| split].
    + rewrite Hheap, Hinfo. clear Hheap.
      case_bool_decide as Hgt.
      * cbn [csm_info set_rlzs_assoc] in Hover. rewrite Hinfo in Hover.
        assert (exists c,
                  CompositionInfo_get_col_id (csm_info self) (tm_id tm) i
                  = Ok c) as [c Hc].
        { destruct (CompositionInfo_get_col_id _ _ _); [eauto | discriminate]. }
        rewrite Hc in Hover. injection Hover as <-.
        rewrite list_alter_twice. apply list_alter_ext; [| reflexivity].
        intros x _. cbn. rewrite add_col_ids_add_col_id. f_equal.
        rewrite Hc. reflexivity.
      * injection Hover as <-. reflexivity.
    + intros key x. rewrite Hassoc. cbn [rlzs_assoc set_rlzs_assoc].
      unfold assoc_keys. rewrite fmap_cons, elem_of_cons. fold key0.
      destruct (decide (key = key0)) as [->|Hne].
      * rewrite lookup_insert_eq. cbn. rewrite elem_of_app.
        rewrite list_elem_of_singleton. tauto.
      * rewrite lookup_insert_ne by congruence.
        rewrite Hother by exact Hne. tauto.
    + constructor; [auto | exact Hframe].
Qed.


Lemma same_ids_group_col_ids info i tms tms' :
  Forall2 (fun tm tm' => tm_id tm' = tm_id tm /\ tm_trt tm' = tm_trt tm)
    tms tms' ->
  group_col_ids info i tms' = group_col_ids info i tms.
Proof.
  unfold group_col_ids. intros Hids. f_equal.
  induction Hids as [|tm tm' tms tms' [Hid _] _ IH]; [reflexivity |].
  rewrite !bind_cons, Hid, IH. reflexivity.
Qed.

Lemma same_ids_assoc_keys gsim_lt g tms tms' :
  Forall2 (fun tm tm' => tm_id tm' = tm_id tm /\ tm_trt tm' = tm_trt tm)
    tms tms' ->
  assoc_keys gsim_lt g tms' = assoc_keys gsim_lt g tms.
Proof.
  unfold assoc_keys. induction 1 as [|tm tm' tms tms' [Hid Htrt] _ IH];
    [reflexivity |].
  rewrite !fmap_cons, IH, Hid, Htrt. reflexivity.
Qed.

Lemma same_ids_refl tms :
  Forall2 (fun tm tm' => tm_id tm' = tm_id tm /\ tm_trt tm' = tm_trt tm)
    tms tms.
Proof. apply Forall_Forall2_diag, list.Forall_forall. auto. Qed.

Lemma same_ids_trans tms1 tms2 tms3 :
  Forall2 (fun tm tm' => tm_id tm' = tm_id tm /\ tm_trt tm' = tm_trt tm)
    tms1 tms2 ->
  Forall2 (fun tm tm' => tm_id tm' = tm_id tm /\ tm_trt tm' = tm_trt tm)
    tms2 tms3 ->
  Forall2 (fun tm tm' => tm_id tm' = tm_id tm /\ tm_trt tm' = tm_trt tm)
    tms1 tms3.
Proof.
  intros H12. revert tms3.
  induction H12 as [|a b l1 l2 [? ?] _ IH]; intros tms3 H23;
    inversion H23 as [|? c ? l3 [? ?] ?]; subst; constructor.
  - split; congruence.
  - now apply IH.
Qed.

(** What the loop over the realizations of a model does: the objects
    already in the store stay as they are, one object per realization is
    put at the end, and each new reference goes under the keys of its
    realization. *)
Lemma add_realizations_loop_objects lt_model realizations :
  forall i idx heap self tms rlzs idx' heap' self' tms' rlzs',
    add_realizations_loop lt_model i idx heap self tms rlzs realizations
    = Ok (idx', heap', self', tms', rlzs') ->
    (forall r : nat, (r < length heap)%nat -> heap' !! r = heap !! r) /\
    (forall (k : nat) g,
       realizations !! k = Some g ->
       heap' !! (length heap + k)%nat =
       Some {| ordinal := idx + Z.of_nat k; sm_lt_path := sm_path lt_model;
               gsim_rlz := g;
               weight := (sm_weight lt_model * gr_weight g)%Qc;
               col_ids :=
                 if bool_decide (sm_samples lt_model > 1)
                 then group_col_ids (csm_info self) (i + Z.of_nat k) tms
                 else ∅ |}) /\
    (forall key (x : nat),
       x ∈ default [] (rlzs_assoc self' !! key) <->
       x ∈ default [] (rlzs_assoc self !! key) \/
       exists (k : nat) g,
         realizations !! k = Some g /\ x = (length heap + k)%nat /\
         key ∈ assoc_keys (sm_gsim_lt lt_model) g tms) /\
    csm_info self' = csm_info self.
Proof.
  induction realizations as [|g rest IH];
    intros i idx heap self tms rlzs idx' heap' self' tms' rlzs';
    cbn [add_realizations_loop].
  - intros [= <- <- <- <- <-]. split; [auto |]. split; [intros k g' [=] |].
    split; [| reflexivity]. intros key x. split; [auto |].
    intros [?|(k & g' & [=] & _)]. assumption.
  - destruct (add_realization_groups _ _ _ _ _ _ _)
      as [[[heap2 self2] tms2]|e] eqn:Hgroups; [| discriminate].
    pose proof (add_realization_groups_frame _ _ _ _ _ _ _ _ _ _ Hgroups)
      as (_ & _ & Hinfo2 & _).
    apply add_realization_groups_spec in Hgroups as (Hheap2 & Hassoc2 & Hids).
    cbn [csm_info set_gsim_by_trt rlzs_assoc] in Hheap2, Hassoc2, Hinfo2.
    intros Hrec. apply IH in Hrec as (Hold & Hnew & Hassoc & Hinfo).
    set (rlz0 := {| ordinal := idx; sm_lt_path := sm_path lt_model;
                    gsim_rlz := g;
                    weight := (sm_weight lt_model * gr_weight g)%Qc;
                    col_ids := ∅ |}) in *.
    set (cs := if bool_decide (sm_samples lt_model > 1)
               then group_col_ids (csm_info self) i tms else ∅) in *.
    assert (heap2 = heap ++ [add_col_ids cs rlz0]) as Hheap.
    { rewrite Hheap2.
      replace (length heap) with (length heap + 0)%nat by lia.
      now rewrite alter_app_r. }
    clear Hheap2. subst heap2. rewrite length_app in Hold, Hnew, Hassoc.
    cbn [length] in Hold, Hnew, Hassoc.
    split; [| split; [| split]].
    + intros r Hr. rewrite Hold by lia. now apply lookup_app_l.
    + intros [|k] g' Hk.
      * injection Hk as <-. rewrite Nat.add_0_r, Hold by lia.
        rewrite lookup_app_r, Nat.sub_diag by lia. cbn. f_equal.
        unfold add_col_ids, rlz0. cbn. f_equal; [lia |].
        rewrite (right_id_L ∅ (∪)). unfold cs.
        now rewrite Z.add_0_r.
      * cbn in Hk. specialize (Hnew k g' Hk).
        replace (length heap + S k)%nat with (length heap + 1 + k)%nat
          by lia.
        rewrite Hnew. f_equal. f_equal; [lia |].
        rewrite Hinfo2, (same_ids_group_col_ids _ _ _ _ Hids).
        now replace (i + 1 + Z.of_nat k) with (i + Z.of_nat (S k)) by lia.
    + intros key x. rewrite Hassoc, Hassoc2. split.
      * intros [[Hx|[-> Hkey]]|(k & g' & Hk & -> & Hkey)].
        -- now left.
        -- right. exists 0%nat, g. rewrite Nat.add_0_r. auto.
        -- right. exists (S k), g'. cbn.
           rewrite (same_ids_assoc_keys _ _ _ _ Hids) in Hkey.
           split; [exact Hk |]. split; [lia | exact Hkey].
      * intros [Hx|([|k] & g' & Hk & -> & Hkey)].
        -- now left; left.
        -- injection Hk as <-. left. right. rewrite Nat.add_0_r. auto.
        -- right. exists k, g'. cbn in Hk.
           rewrite (same_ids_assoc_keys _ _ _ _ Hids).
           split; [exact Hk |]. split; [lia | exact Hkey].
    + now rewrite Hinfo, Hinfo2.
Qed.


Lemma get_rlzs_assoc_step_objects random_seed n get_weight st smodel st1 :
  get_rlzs_assoc_step random_seed n get_weight st smodel = Ok st1 ->
  let smodel1 := set_sm_gsim_lt (reduced_gsim_lt get_weight smodel) smodel in
  let rlzs := model_rlzs random_seed n (b_idx st) smodel1 in
  length (b_heap st1) = (length (b_heap st) + length rlzs)%nat /\
  (forall r : nat,
     (r < length (b_heap st))%nat -> b_heap st1 !! r = b_heap st !! r) /\
  (forall (k : nat) g,
     rlzs !! k = Some g ->
     b_heap st1 !! (length (b_heap st) + k)%nat =
     Some (new_realization (csm_info (b_assoc st)) smodel1 (b_idx st) k g)) /\
  (forall key (x : nat),
     x ∈ default [] (rlzs_assoc (b_assoc st1) !! key) <->
     x ∈ default [] (rlzs_assoc (b_assoc st) !! key) \/
     exists (k : nat) g,
       rlzs !! k = Some g /\ x = (length (b_heap st) + k)%nat /\
       key ∈ assoc_keys (sm_gsim_lt smodel1) g (sm_trt_models smodel)) /\
  csm_info (b_assoc st1) = csm_info (b_assoc st).
Proof.
  intros Hstep smodel1 rlzs. unfold get_rlzs_assoc_step in Hstep.
  fold smodel1 in Hstep. fold rlzs in Hstep.
  destruct rlzs as [|g0 rest] eqn:Hrlzs.
  - injection Hstep as <-. cbn. rewrite Nat.add_0_r.
    split; [reflexivity |]. split; [auto |]. split; [intros k g [=] |].
    split; [| reflexivity]. intros key x. split; [auto |].
    intros [?|(k & g & [=] & _)]. assumption.
  - rewrite <- Hrlzs in *. clear Hrlzs.
    unfold RlzsAssoc_add_realizations in Hstep.
    destruct (add_realizations_loop _ _ _ _ _ _ _ _)
      as [[[[[idx1 heap1] self1] tms1] rlzs1]|e] eqn:Hloop; [| discriminate].
    injection Hstep as <-. cbn.
    pose proof (add_realizations_loop_spec _ _ _ _ _ _ _ _ _ _ _ _ _ Hloop)
      as (_ & Hlen & _ & _).
    apply add_realizations_loop_objects in Hloop
      as (Hold & Hnew & Hassoc & Hinfo).
    split; [exact Hlen |]. split; [exact Hold |]. split.
    + intros k g Hk. rewrite (Hnew k g Hk). unfold new_realization.
      now rewrite Z.add_0_l.
    + split; [exact Hassoc | exact Hinfo].
Qed.

Lemma get_rlzs_assoc_step_refs_valid random_seed n get_weight st smodel st1 :
  get_rlzs_assoc_step random_seed n get_weight st smodel = Ok st1 ->
  index_refs_valid st -> index_refs_valid st1.
Proof.
  intros Hstep Hvalid key x.
  apply get_rlzs_assoc_step_objects in Hstep as (Hlen & _ & _ & Hassoc & _).
  rewrite Hassoc, Hlen. intros [Hx|(k & g & Hk & -> & _)].
  - apply Hvalid in Hx. lia.
  - apply lookup_lt_Some in Hk. lia.
Qed.

(** Going through more source models leaves the objects already made,
    and what the reverse index says of them, as they are. *)
Lemma get_rlzs_assoc_loop_keeps random_seed n get_weight smodels :
  forall st st',
    get_rlzs_assoc_loop random_seed n get_weight st smodels = Ok st' ->
    index_refs_valid st ->
    (length (b_heap st) <= length (b_heap st'))%nat /\
    (forall r : nat,
       (r < length (b_heap st))%nat -> b_heap st' !! r = b_heap st !! r) /\
    (forall key (x : nat),
       (x < length (b_heap st))%nat ->
       x ∈ default [] (rlzs_assoc (b_assoc st') !! key) <->
       x ∈ default [] (rlzs_assoc (b_assoc st) !! key)) /\
    index_refs_valid st' /\
    csm_info (b_assoc st') = csm_info (b_assoc st).
Proof.
  induction smodels as [|sm rest IH]; intros st st';
    cbn [get_rlzs_assoc_loop].
  - intros [= <-] Hvalid. split; [lia |]. split; [auto |].
    split; [tauto | auto].
  - destruct (get_rlzs_assoc_step _ _ _ _ _) as [st1|e] eqn:Hstep;
      [| discriminate].
    intros Hloop Hvalid.
    pose proof (get_rlzs_assoc_step_refs_valid _ _ _ _ _ _ Hstep Hvalid)
      as Hvalid1.
    apply get_rlzs_assoc_step_objects in Hstep
      as (Hlen & Hold & _ & Hassoc & Hinfo).
    destruct (IH _ _ Hloop Hvalid1) as (Hle & Hold' & Hassoc' & Hv' & Hinfo').
    split; [lia |]. split; [| split; [| split]].
    + intros r Hr. rewrite Hold' by lia. now apply Hold.
    + intros key x Hx. rewrite Hassoc' by lia. rewrite Hassoc.
      split; [| auto]. intros [?|(k & g & _ & -> & _)]; [assumption | lia].
    + exact Hv'.
    + congruence.
Qed.

Lemma initial_building_refs_valid (self : CompositeSourceModel) :
  index_refs_valid (initial_building self).
Proof.
  intros key x. cbn. rewrite lookup_empty. cbn.
  intros Hx. now apply elem_of_nil in Hx.
Qed.

Lemma set_weights_same_but_weight f rlzs :
  forall heap (r : nat) rlz',
    set_weights f heap rlzs !! r = Some rlz' ->
    exists rlz, heap !! r = Some rlz /\ same_but_weight rlz rlz'.
Proof.
  unfold set_weights.
  induction rlzs as [|a rlzs IH]; intros heap r rlz'; cbn [foldl].
  - intros Hr. exists rlz'. split; [exact Hr |]. now destruct rlz'.
  - intros Hr. apply IH in Hr as (rlz1 & Hr & Hsame).
    rewrite list_lookup_alter in Hr. case_decide as Har.
    + subst a. destruct (heap !! r) as [rlz|]; [| discriminate].
      injection Hr as <-. exists rlz. split; [reflexivity |].
      unfold same_but_weight in *. rewrite Hsame. now destruct rlz.
    + eauto.
Qed.

Lemma get_rlzs_assoc_weights_keeps n st st' :
  get_rlzs_assoc_weights n st = Ok st' ->
  b_assoc st' = b_assoc st /\
  length (b_heap st') = length (b_heap st) /\
  forall (r : nat) rlz',
    b_heap st' !! r = Some rlz' ->
    exists rlz, b_heap st !! r = Some rlz /\ same_but_weight rlz rlz'.
Proof.
  assert (forall rlz : LtRealization, same_but_weight rlz rlz) as Hrefl
    by (intros rlz; now destruct rlz).
  unfold get_rlzs_assoc_weights.
  destruct (realizations (b_assoc st)) as [|r0 rs].
  { intros [= <-]. eauto. }
  repeat case_bool_decide; try discriminate;
    (match goal with
     | |- Ok ?x = Ok st' -> _ =>
         intros Heq; assert (st' = x) as -> by congruence; clear Heq
     end);
    cbn [b_heap b_assoc set_b_heap set_b_log];
    (split; [reflexivity |]); (split; [apply set_weights_length |]);
    apply set_weights_same_but_weight.
Qed.


(** A run of [get_rlzs_assoc] that returns, cut at one of its source
    models: the loop has gone through the models before it, then through
    the model, then through the models after it, and the weights have been
    set. *)
Lemma get_rlzs_assoc_cut (self : CompositeSourceModel) get_weight
    pre post smodel st st_final :
  source_models self = pre ++ smodel :: post ->
  get_rlzs_assoc_loop (seed (source_model_lt self))
    (num_samples (source_model_lt self)) get_weight (initial_building self)
    pre = Ok st ->
  CompositeSourceModel_get_rlzs_assoc self get_weight = Ok st_final ->
  exists st1 st2,
    get_rlzs_assoc_step (seed (source_model_lt self))
      (num_samples (source_model_lt self)) get_weight st smodel = Ok st1 /\
    get_rlzs_assoc_loop (seed (source_model_lt self))
      (num_samples (source_model_lt self)) get_weight st1 post = Ok st2 /\
    get_rlzs_assoc_weights (num_samples (source_model_lt self)) st2
    = Ok st_final.
Proof.
  intros Hsplit Hpre. unfold CompositeSourceModel_get_rlzs_assoc.
  rewrite Hsplit, get_rlzs_assoc_loop_app, Hpre.
  cbn [bind_result get_rlzs_assoc_loop].
  destruct (get_rlzs_assoc_step _ _ _ st smodel) as [st1|e] eqn:Hstep;
    [| discriminate].
  destruct (get_rlzs_assoc_loop _ _ _ st1 post) as [st2|e] eqn:Hpost;
    [| discriminate].
  intros Hw. exists st1, st2. auto.
Qed.

Lemma get_rlzs_assoc_loop_initial (self : CompositeSourceModel) get_weight
    random_seed n smodels st :
  get_rlzs_assoc_loop random_seed n get_weight (initial_building self)
    smodels = Ok st ->
  well_formed st /\ index_refs_valid st /\
  csm_info (b_assoc st) = info self.
Proof.
  intros Hloop.
  split; [eapply get_rlzs_assoc_loop_well_formed;
          [apply initial_building_well_formed | exact Hloop] |].
  apply get_rlzs_assoc_loop_keeps in Hloop
    as (_ & _ & _ & Hvalid & Hinfo); [| apply initial_building_refs_valid].
  split; [exact Hvalid | exact Hinfo].
Qed.

(** X7. The realization objects that [get_rlzs_assoc] makes for a
    source model are, in the store, right after those of the models before
    it; the object of the k-th realization of the model has the ordinal of
    the first one plus k, the path of the model, the realization of the
    logic tree, and a set of collection ids that is empty unless the model
    is oversampled, in which case it holds the collection ids of the k-th
    sample of the groups of the model.  Its weight is the only thing the
    end of the call may change. *)
Theorem get_rlzs_assoc_realization_objects (self : CompositeSourceModel)
    (get_weight : TrtModel -> Z) (pre post : list SourceModel)
    (smodel : SourceModel) (st st_final : Building) :
  let random_seed := seed (source_model_lt self) in
  let n := num_samples (source_model_lt self) in
  source_models self = pre ++ smodel :: post ->
  get_rlzs_assoc_loop random_seed n get_weight (initial_building self) pre
  = Ok st ->
  CompositeSourceModel_get_rlzs_assoc self get_weight = Ok st_final ->
  let smodel1 := set_sm_gsim_lt (reduced_gsim_lt get_weight smodel) smodel in
  b_idx st = Z.of_nat (length (b_heap st)) /\
  forall (k : nat) g,
    model_rlzs random_seed n (b_idx st) smodel1 !! k = Some g ->
    exists rlz,
      b_heap st_final !! (length (b_heap st) + k)%nat = Some rlz /\
      same_but_weight
        (new_realization (info self) smodel1 (b_idx st) k g) rlz.
Proof.
  intros random_seed n Hsplit Hpre Hfinal smodel1.
  destruct (get_rlzs_assoc_cut _ _ _ _ _ _ _ Hsplit Hpre Hfinal)
    as (st1 & st2 & Hstep & Hpost & Hweights).
  destruct (get_rlzs_assoc_loop_initial _ _ _ _ _ _ Hpre)
    as ((Hidx & _) & Hvalid & Hinfo).
  split; [exact Hidx |]. intros k g Hk.
  pose proof (get_rlzs_assoc_step_refs_valid _ _ _ _ _ _ Hstep Hvalid)
    as Hvalid1.
  apply get_rlzs_assoc_step_objects in Hstep as (Hlen & _ & Hnew & _ & _).
  apply get_rlzs_assoc_loop_keeps in Hpost as (Hle & Hold & _);
    [| exact Hvalid1].
  apply get_rlzs_assoc_weights_keeps in Hweights as (_ & Hlen' & Hsame).
  pose proof (lookup_lt_Some _ _ _ Hk) as Hklt.
  destruct (lookup_lt_is_Some_2 (b_heap st_final)
              (length (b_heap st) + k)) as [rlz Hrlz].
  { rewrite Hlen'. fold smodel1 random_seed n in Hlen. lia. }
  exists rlz. split; [exact Hrlz |].
  destruct (Hsame _ _ Hrlz) as (rlz2 & Hrlz2 & Hsb).
  rewrite Hold in Hrlz2 by (fold smodel1 random_seed n in Hlen; lia).
  rewrite (Hnew k g Hk), Hinfo in Hrlz2. now injection Hrlz2 as <-.
Qed.

(** X8. The reverse index is complete and exact: in the association
    that [get_rlzs_assoc] returns, the reference of a realization object is
    under a key of [rlzs_assoc] exactly when the key is made of the id of a
    group of the object's source model and of the GSIM that the object's
    realization of the logic tree has for the tectonic region type of this
    group. *)
Theorem get_rlzs_assoc_reverse_index (self : CompositeSourceModel)
    (get_weight : TrtModel -> Z) (pre post : list SourceModel)
    (smodel : SourceModel) (st st_final : Building) :
  let random_seed := seed (source_model_lt self) in
  let n := num_samples (source_model_lt self) in
  source_models self = pre ++ smodel :: post ->
  get_rlzs_assoc_loop random_seed n get_weight (initial_building self) pre
  = Ok st ->
  CompositeSourceModel_get_rlzs_assoc self get_weight = Ok st_final ->
  let smodel1 := set_sm_gsim_lt (reduced_gsim_lt get_weight smodel) smodel in
  forall (k : nat) g key,
    model_rlzs random_seed n (b_idx st) smodel1 !! k = Some g ->
    (length (b_heap st) + k)%nat
      ∈ default [] (rlzs_assoc (b_assoc st_final) !! key) <->
    key ∈ assoc_keys (sm_gsim_lt smodel1) g (sm_trt_models smodel).
Proof.
  intros random_seed n Hsplit Hpre Hfinal smodel1 k g key Hk.
  destruct (get_rlzs_assoc_cut _ _ _ _ _ _ _ Hsplit Hpre Hfinal)
    as (st1 & st2 & Hstep & Hpost & Hweights).
  destruct (get_rlzs_assoc_loop_initial _ _ _ _ _ _ Hpre)
    as (_ & Hvalid & _).
  pose proof (get_rlzs_assoc_step_refs_valid _ _ _ _ _ _ Hstep Hvalid)
    as Hvalid1.
  apply get_rlzs_assoc_step_objects in Hstep as (Hlen & _ & _ & Hassoc & _).
  apply get_rlzs_assoc_loop_keeps in Hpost as (_ & _ & Hkeep & _);
    [| exact Hvalid1].
  apply get_rlzs_assoc_weights_keeps in Hweights as (-> & _).
  pose proof (lookup_lt_Some _ _ _ Hk) as Hklt.
  fold smodel1 random_seed n in Hlen, Hassoc.
  rewrite Hkeep by lia. rewrite Hassoc. split.
  - intros [Hx|(k' & g' & Hk' & Heq & Hkey)].
    + apply Hvalid in Hx. lia.
    + assert (k' = k) as -> by lia. congruence.
  - intros Hkey. right. exists k, g. auto.
Qed.

End ReverseIndex.

Section FlatList.

Context {LT : LogicTree}.

Lemma od_setitem_fresh {V : Type} (k : Z) (v : V) (od : list (Z * V)) :
  k ∉ od.*1 -> od_setitem k v od = od ++ [(k, v)].
Proof.
  induction od as [|[k' v'] od IH]; cbn [od_setitem]; [reflexivity |].
  rewrite fmap_cons, not_elem_of_cons. cbn. intros [Hne Hod].
  case_bool_decide; [congruence |]. now rewrite IH.
Qed.

Lemma od_setitem_keys {V : Type} (k : Z) (v : V) (od : list (Z * V)) (x : Z) :
  x ∈ (od_setitem k v od).*1 -> x = k \/ x ∈ od.*1.
Proof.
  induction od as [|[k' v'] od IH]; cbn [od_setitem].
  - cbn. rewrite list_elem_of_singleton. auto.
  - case_bool_decide; rewrite !fmap_cons, !elem_of_cons; cbn.
    + subst. tauto.
    + intros [?|?]; [tauto |]. destruct IH; auto.
Qed.

Lemma get_rlzs_assoc_step_ordinals random_seed n get_weight st smodel st1 :
  get_rlzs_assoc_step random_seed n get_weight st smodel = Ok st1 ->
  b_idx st = Z.of_nat (length (b_heap st)) ->
  ordinals_are_positions (b_heap st) ->
  ordinals_are_positions (b_heap st1).
Proof.
  intros Hstep Hidx Hord r rlz Hr.
  apply get_rlzs_assoc_step_objects in Hstep as (Hlen & Hold & Hnew & _).
  destruct (decide (r < length (b_heap st))%nat) as [Hlt|Hge].
  - rewrite Hold in Hr by exact Hlt. now apply Hord.
  - pose proof (lookup_lt_Some _ _ _ Hr) as Hr1. rewrite Hlen in Hr1.
    destruct (lookup_lt_is_Some_2
                (model_rlzs random_seed n (b_idx st)
                   (set_sm_gsim_lt (reduced_gsim_lt get_weight smodel)
                      smodel)) (r - length (b_heap st))) as [g Hg]; [lia |].
    apply Hnew in Hg.
    replace (length (b_heap st) + (r - length (b_heap st)))%nat with r
      in Hg by lia.
    rewrite Hg in Hr. injection Hr as <-. cbn. lia.
Qed.

Lemma get_rlzs_assoc_step_by_smodel random_seed n get_weight st smodel st1 :
  get_rlzs_assoc_step random_seed n get_weight st smodel = Ok st1 ->
  rlzs_by_smodel (b_assoc st1) = rlzs_by_smodel (b_assoc st) /\
  length (b_heap st1) = length (b_heap st) \/
  exists m : nat,
    length (b_heap st1) = (length (b_heap st) + m)%nat /\
    rlzs_by_smodel (b_assoc st1) =
    od_setitem (sm_ordinal smodel) (seq (length (b_heap st)) m)
      (rlzs_by_smodel (b_assoc st)).
Proof.
  unfold get_rlzs_assoc_step.
  destruct (model_rlzs _ _ _ _) as [|g rlzs] eqn:Hrlzs.
  - intros [= <-]. now left.
  - destruct (RlzsAssoc_add_realizations _ _ _ _ _)
      as [[[[idx1 heap1] assoc1] tms1]|e] eqn:Hadd; [| discriminate].
    apply RlzsAssoc_add_realizations_spec in Hadd as (_ & Hlen & Hby).
    intros [= <-]. right. exists (length (g :: rlzs)). now split.
Qed.

Lemma get_rlzs_assoc_loop_flat random_seed n get_weight smodels :
  forall st st',
    get_rlzs_assoc_loop random_seed n get_weight st smodels = Ok st' ->
    NoDup (sm_ordinal <$> smodels) ->
    (forall k, k ∈ (rlzs_by_smodel (b_assoc st)).*1 ->
               k ∉ sm_ordinal <$> smodels) ->
    realizations (b_assoc st) = seq 0 (length (b_heap st)) ->
    realizations (b_assoc st') = seq 0 (length (b_heap st')).
Proof.
  induction smodels as [|sm rest IH]; intros st st';
    cbn [get_rlzs_assoc_loop].
  - now intros [= <-].
  - destruct (get_rlzs_assoc_step _ _ _ _ _) as [st1|e] eqn:Hstep;
      [| discriminate].
    rewrite fmap_cons, list.NoDup_cons. intros Hloop [Hsm Hnd] Hfresh Hflat.
    apply (IH st1 st' Hloop Hnd).
    + intros k Hk.
      apply get_rlzs_assoc_step_by_smodel in Hstep
        as [[Hby _]|(m & _ & Hby)]; rewrite Hby in Hk.
      * specialize (Hfresh k Hk). rewrite not_elem_of_cons in Hfresh. tauto.
      * apply od_setitem_keys in Hk as [->|Hk]; [exact Hsm |].
        specialize (Hfresh k Hk). rewrite not_elem_of_cons in Hfresh. tauto.
    + apply get_rlzs_assoc_step_by_smodel in Hstep
        as [[Hby Hlen]|(m & Hlen & Hby)].
      * unfold realizations in *. now rewrite Hby, Hlen.
      * unfold realizations in *. rewrite Hby, od_setitem_fresh.
        -- rewrite map_app, concat_app, Hflat, Hlen. cbn.
           rewrite app_nil_r. symmetry. apply seq_app.
        -- intros Hin. apply Hfresh in Hin. apply Hin.
           left.
Qed.

Lemma get_rlzs_assoc_loop_ordinals random_seed n get_weight smodels :
  forall st st',
    get_rlzs_assoc_loop random_seed n get_weight st smodels = Ok st' ->
    b_idx st = Z.of_nat (length (b_heap st)) ->
    ordinals_are_positions (b_heap st) ->
    ordinals_are_positions (b_heap st').
Proof.
  induction smodels as [|sm rest IH]; intros st st';
    cbn [get_rlzs_assoc_loop].
  - now intros [= <-].
  - destruct (get_rlzs_assoc_step _ _ _ _ _) as [st1|e] eqn:Hstep;
      [| discriminate].
    intros Hloop Hidx Hord. apply (IH st1 st' Hloop).
    + unfold get_rlzs_assoc_step in Hstep.
      destruct (model_rlzs _ _ _ _) as [|g rlzs] eqn:Hrlzs.
      * now injection Hstep as <-.
      * destruct (RlzsAssoc_add_realizations _ _ _ _ _)
          as [[[[idx1 heap1] assoc1] tms1]|e] eqn:Hadd; [| discriminate].
        apply RlzsAssoc_add_realizations_spec in Hadd as (-> & Hlen & _).
        injection Hstep as <-. cbn [b_idx b_heap].
        rewrite Hlen, Hidx, Nat2Z.inj_add. reflexivity.
    + eapply get_rlzs_assoc_step_ordinals; eauto.
Qed.

(** X9. The ordinal of a realization is its position, in the store of
    the objects as in the flat list [realizations]: whenever
    [get_rlzs_assoc] returns, every object it has made has for ordinal the
    number of objects made before it, and, when the source models have
    distinct ordinals, the list [realizations] of the association holds the
    objects in this order, each one once; so its k-th entry is the
    realization of ordinal k. *)
Theorem get_rlzs_assoc_ordinals (self : CompositeSourceModel)
    (get_weight : TrtModel -> Z) (st : Building) :
  CompositeSourceModel_get_rlzs_assoc self get_weight = Ok st ->
  (forall (r : nat) rlz,
     b_heap st !! r = Some rlz -> ordinal rlz = Z.of_nat r) /\
  (NoDup (sm_ordinal <$> source_models self) ->
   realizations (b_assoc st) = seq 0 (length (b_heap st)) /\
   forall (k r : nat),
     realizations (b_assoc st) !! k = Some r ->
     exists rlz, b_heap st !! r = Some rlz /\ ordinal rlz = Z.of_nat k).
Proof.
  unfold CompositeSourceModel_get_rlzs_assoc.
  destruct (get_rlzs_assoc_loop _ _ _ _ _) as [st2|e] eqn:Hloop;
    [| discriminate].
  intros Hweights.
  apply get_rlzs_assoc_weights_keeps in Hweights as (Hassoc & Hlen & Hsame).
  assert (forall (r : nat) rlz,
            b_heap st !! r = Some rlz -> ordinal rlz = Z.of_nat r) as Hord.
  { intros r rlz Hr. destruct (Hsame _ _ Hr) as (rlz2 & Hr2 & ->). cbn.
    eapply get_rlzs_assoc_loop_ordinals in Hloop; [now apply Hloop | |].
    - reflexivity.
    - intros r' rlz' [=]. }
  split; [exact Hord |]. intros Hnd.
  assert (realizations (b_assoc st) = seq 0 (length (b_heap st))) as Hflat.
  { rewrite Hassoc, Hlen.
    eapply get_rlzs_assoc_loop_flat; [exact Hloop | exact Hnd | |].
    - intros k Hk. cbn in Hk. now apply elem_of_nil in Hk.
    - reflexivity. }
  split; [exact Hflat |]. intros k r Hk. rewrite Hflat in Hk.
  apply lookup_seq in Hk as [-> Hlt]. cbn.
  destruct (lookup_lt_is_Some_2 (b_heap st) k Hlt) as [rlz Hrlz].
  exists rlz. split; [exact Hrlz | now apply Hord].
Qed.

End FlatList.

(** *** Evaluation on the sampled models *)

Lemma get_rlzs_assoc_realization_objects_witness :
  let pre := [model_of "SM0" (Q2Qc (1 # 4)) 0 1] in
  let smodel := model_of "SM1" (Q2Qc (1 # 4)) 1 3 in
  let st := default (initial_building csm_sampling)
              (result_value
                 (get_rlzs_assoc_loop 42 7 tm_num_ruptures
                    (initial_building csm_sampling) pre)) in
  let st_final := default (initial_building csm_sampling)
                    (result_value
                       (CompositeSourceModel_get_rlzs_assoc csm_sampling
                          tm_num_ruptures)) in
  let smodel1 :=
    set_sm_gsim_lt (reduced_gsim_lt tm_num_ruptures smodel) smodel in
  b_idx st = Z.of_nat (length (b_heap st)) /\
  forall (k : nat) g,
    model_rlzs 42 7 (b_idx st) smodel1 !! k = Some g ->
    exists rlz,
      b_heap st_final !! (length (b_heap st) + k)%nat = Some rlz /\
      same_but_weight
        (new_realization (info csm_sampling) smodel1 (b_idx st) k g) rlz.
Proof.
  intros pre smodel st st_final.
  apply (get_rlzs_assoc_realization_objects csm_sampling tm_num_ruptures
           pre
           [model_of "SM2" (Q2Qc (1 # 4)) 2 1;
            model_of "SM3" (Q2Qc (1 # 4)) 3 2] smodel st st_final).
  - reflexivity.
  - returns_by_computation.
  - returns_by_computation.
Defined.

Lemma get_rlzs_assoc_reverse_index_witness :
  let pre := [model_of "SM0" (Q2Qc (1 # 4)) 0 1;
              model_of "SM1" (Q2Qc (1 # 4)) 1 3;
              model_of "SM2" (Q2Qc (1 # 4)) 2 1] in
  let smodel := model_of "SM3" (Q2Qc (1 # 4)) 3 2 in
  let st := default (initial_building csm_sampling)
              (result_value
                 (get_rlzs_assoc_loop 42 7 tm_num_ruptures
                    (initial_building csm_sampling) pre)) in
  let st_final := default (initial_building csm_sampling)
                    (result_value
                       (CompositeSourceModel_get_rlzs_assoc csm_sampling
                          tm_num_ruptures)) in
  let smodel1 :=
    set_sm_gsim_lt (reduced_gsim_lt tm_num_ruptures smodel) smodel in
  let g := default gsim_rlz_BA2008
             (model_rlzs 42 7 (b_idx st) smodel1 !! 1%nat) in
  let key := (3, get_gsim_by_trt (sm_gsim_lt smodel1) g active_shallow) in
  model_rlzs 42 7 (b_idx st) smodel1 !! 1%nat = Some g /\
  ((length (b_heap st) + 1)%nat
     ∈ default [] (rlzs_assoc (b_assoc st_final) !! key) <->
   key ∈ assoc_keys (sm_gsim_lt smodel1) g (sm_trt_models smodel)).
Proof.
  intros pre smodel st st_final smodel1 g key.
  assert (model_rlzs 42 7 (b_idx st) smodel1 !! 1%nat = Some g) as Hg
    by (vm_compute; reflexivity).
  split; [exact Hg |].
  eapply (get_rlzs_assoc_reverse_index csm_sampling tm_num_ruptures
            pre [] smodel st st_final).
  - reflexivity.
  - returns_by_computation.
  - returns_by_computation.
  - exact Hg.
Defined.

Lemma get_rlzs_assoc_ordinals_witness :
  let st := default (initial_building csm_sampling)
              (result_value
                 (CompositeSourceModel_get_rlzs_assoc csm_sampling
                    tm_num_ruptures)) in
  (forall (r : nat) rlz,
     b_heap st !! r = Some rlz -> ordinal rlz = Z.of_nat r) /\
  (NoDup (sm_ordinal <$> source_models csm_sampling) ->
   realizations (b_assoc st) = seq 0 (length (b_heap st)) /\
   forall (k r : nat),
     realizations (b_assoc st) !! k = Some r ->
     exists rlz, b_heap st !! r = Some rlz /\ ordinal rlz = Z.of_nat k).
Proof.
  intros st.
  apply (get_rlzs_assoc_ordinals csm_sampling tm_num_ruptures st).
  returns_by_computation.
Defined.

(** ** TrtModel: the constructor *)

Lemma TrtModel_init_loop_diverges (fuel : nat) :
  forall (self : TrtModel) (i : nat),
    (i < length (tm_sources self))%nat ->
    Forall (fun src => tectonic_region_type src = tm_trt self)
      (tm_sources self) ->
    TrtModel_init_loop fuel self i = None.
Proof.
  induction fuel as [|fuel IH]; intros self i Hi Hall; [reflexivity |].
  cbn [TrtModel_init_loop].
  destruct (lookup_lt_is_Some_2 _ _ Hi) as [src Hsrc]. rewrite Hsrc.
  assert (tectonic_region_type src = tm_trt self) as Htrt.
  { rewrite list.Forall_forall in Hall. eapply Hall, list_elem_of_lookup_2.
    exact Hsrc. }
  rewrite (TrtModel_update_same_trt self src Htrt). apply IH; cbn.
  - rewrite length_app. cbn. lia.
  - apply Forall_app. split; [exact Hall |]. now constructor.
Qed.

Lemma TrtModel_init_loop_raises (good : list Source) :
  forall (fuel : nat) (self : TrtModel) (pre rest : list Source)
         (bad : Source),
    tm_sources self = pre ++ good ++ bad :: rest ->
    Forall (fun src => tectonic_region_type src = tm_trt self) good ->
    tectonic_region_type bad <> tm_trt self ->
    (length good < fuel)%nat ->
    exists self',
      TrtModel_init_loop fuel self (length pre)
      = Some (self', Raise AssertionError) /\
      tm_sources self' = tm_sources self ++ good /\
      tm_trt self' = tm_trt self.
Proof.
  induction good as [|g good IH]; intros fuel self pre rest bad Hsrcs Hall
    Hbad Hfuel; (destruct fuel as [|fuel]; [cbn in Hfuel; lia |]);
    cbn [TrtModel_init_loop]; rewrite Hsrcs.
  - cbn [app]. rewrite list_lookup_middle by reflexivity.
    rewrite (TrtModel_update_other_trt self bad Hbad).
    exists self. now rewrite Hsrcs, app_nil_r.
  - cbn [app]. rewrite list_lookup_middle by reflexivity.
    apply list.Forall_cons in Hall as [Hg Hall].
    rewrite (TrtModel_update_same_trt self g Hg).
    match goal with
    | |- context [TrtModel_init_loop fuel ?s _] => set (self1 := s)
    end.
    destruct (IH fuel self1 (pre ++ [g]) (rest ++ [g]) bad)
      as (self' & Hloop & Hsources & Htrt).
    + subst self1. cbn. rewrite Hsrcs.
      repeat (rewrite <- app_assoc; cbn [app]). reflexivity.
    + exact Hall.
    + exact Hbad.
    + cbn in Hfuel. lia.
    + rewrite length_app, Nat.add_1_r in Hloop.
      exists self'. split; [exact Hloop |]. split; [| exact Htrt].
      rewrite Hsources. subst self1. cbn. rewrite Hsrcs.
      repeat (rewrite <- app_assoc; cbn [app]). reflexivity.
Qed.

(** X10. The constructor of [TrtModel], given a list of sources: its
    loop calls [update] on every source of the list to which [update]
    appends.  Without sources it returns at once.  With sources
    that all have the tectonic region type given, a source is appended at
    every round and the loop never ends.  With a source of another type it
    fails with [AssertionError] at the first such source, after the sources
    before it have been appended a second time. *)
Theorem TrtModel_init_sources (trt : string) (sources : list Source)
    (num_ruptures : Z) (min_mag max_mag : option Qc) (gsims : list string)
    (id : Z) :
  let init fuel :=
    TrtModel_init fuel trt sources num_ruptures min_mag max_mag gsims id in
  (sources = [] ->
   forall fuel, (0 < fuel)%nat ->
     init fuel =
     Some ({| tm_trt := trt; tm_sources := [];
              tm_num_ruptures := num_ruptures; tm_min_mag := min_mag;
              tm_max_mag := max_mag; tm_gsims := gsims; tm_id := id |},
           Ok tt)) /\
  (sources <> [] ->
   Forall (fun src => tectonic_region_type src = trt) sources ->
   forall fuel, init fuel = None) /\
  (forall good bad rest,
     sources = good ++ bad :: rest ->
     Forall (fun src => tectonic_region_type src = trt) good ->
     tectonic_region_type bad <> trt ->
     forall fuel, (length good < fuel)%nat ->
       exists self',
         init fuel = Some (self', Raise AssertionError) /\
         tm_sources self' = sources ++ good).
Proof.
  intros init. subst init. unfold TrtModel_init. split; [| split].
  - intros -> [|fuel] Hfuel; [lia | reflexivity].
  - intros Hne Hall fuel. apply TrtModel_init_loop_diverges; cbn.
    + destruct sources; [congruence | cbn; lia].
    + exact Hall.
  - intros good bad rest Hsrcs Hall Hbad fuel Hfuel.
    match goal with
    | |- context [TrtModel_init_loop fuel ?s _] => set (self := s)
    end.
    destruct (TrtModel_init_loop_raises good fuel self [] rest bad)
      as (self' & Hloop & Hsources & _); try assumption.
    exists self'. split; [exact Hloop | exact Hsources].
Qed.

(** ** Sorting the groups *)

Lemma Sorted_separated {A B : Type} (R : A -> A -> Prop) (f : A -> B)
    (l : list A) :
  Sorted R l -> NoDup (f <$> l) ->
  Sorted (fun a b => R a b /\ f a <> f b) l.
Proof.
  induction 1 as [|a l _ IH Hhd]; [constructor |].
  rewrite fmap_cons, list.NoDup_cons. intros [Ha Hnd].
  constructor; [now apply IH |].
  destruct Hhd as [|b l' Hab]; constructor. split; [exact Hab |].
  intros Heq. apply Ha. rewrite fmap_cons, Heq. left.
Qed.

Lemma TrtModel_lt_sorted_unique (l l' : list TrtModel) :
  Sorted (fun a b => TrtModel_lt a b = true) l ->
  Sorted (fun a b => TrtModel_lt a b = true) l' ->
  l' ≡ₚ l -> l' = l.
Proof.
  intros Hl Hl' Hperm.
  apply (@Sorted_unique_strong _ (fun a b => TrtModel_lt a b = true));
    [| | exact Hl' | exact Hl | exact Hperm].
  - intros a b c. apply TrtModel_lt_trans.
  - intros a b _ _ Hab Hba. apply TrtModel_lt_asym in Hab. congruence.
Qed.

Lemma sorted_values_spec (d : gmap string TrtModel) :
  (forall trt tm, d !! trt = Some tm -> tm_trt tm = trt) ->
  Sorted (fun a b => TrtModel_lt a b = true) (sorted_values d) /\
  NoDup (tm_trt <$> sorted_values d) /\
  (forall tm, tm ∈ sorted_values d <-> d !! tm_trt tm = Some tm).
Proof.
  intros Hkey. unfold sorted_values.
  pose proof (sorted_by_perm TrtModel_lt (map_to_list d).*2) as Hperm.
  assert (tm_trt <$> (map_to_list d).*2 = (map_to_list d).*1) as Htrts.
  { rewrite <- list_fmap_compose. apply list_fmap_ext.
    intros i [k tm] Hi. cbn. apply (Hkey k).
    apply elem_of_map_to_list. eapply list_elem_of_lookup_2, Hi. }
  assert (NoDup (tm_trt <$> sorted_by TrtModel_lt (map_to_list d).*2))
    as Hnd.
  { rewrite Hperm, Htrts. apply NoDup_fst_map_to_list. }
  split; [| split; [exact Hnd |]].
  - apply (Sorted_weaken
             (fun a b => TrtModel_lt b a = false /\ tm_trt a <> tm_trt b));
      [| apply (Sorted_separated (fun a b => TrtModel_lt b a = false) tm_trt);
         [apply (sorted_by_Sorted TrtModel_lt TrtModel_lt_asym) | exact Hnd]].
    intros a b [Hba Hne].
    destruct (TrtModel_lt a b) eqn:Hab; [reflexivity |].
    destruct (TrtModel_lt_total a b Hab Hba). contradiction.
  - intros tm. rewrite Hperm, list_elem_of_fmap. split.
    + intros ([k tm'] & -> & Hin). cbn.
      apply elem_of_map_to_list in Hin. now rewrite (Hkey k tm' Hin).
    + intros Hin. exists (tm_trt tm, tm). split; [reflexivity |].
      now apply elem_of_map_to_list.
Qed.

(** ** parse_source_model *)

Lemma TrtModel_update_trt (tm : TrtModel) (src : Source) :
  tm_trt (TrtModel_update tm src).1 = tm_trt tm.
Proof.
  destruct (decide (tectonic_region_type src = tm_trt tm)) as [Heq|Hne].
  - now rewrite TrtModel_update_same_trt.
  - now rewrite TrtModel_update_other_trt.
Qed.

Lemma group_of_snoc (trt : string) (ss : list Source) (s : Source) :
  group_of trt (ss ++ [s]) = (TrtModel_update (group_of trt ss) s).1.
Proof. unfold group_of. now rewrite foldl_app. Qed.

Lemma group_of_trt (trt : string) (ss : list Source) :
  tm_trt (group_of trt ss) = trt.
Proof.
  induction ss as [|s ss IH] using rev_ind; [reflexivity |].
  now rewrite group_of_snoc, TrtModel_update_trt.
Qed.

Lemma group_of_fields (trt : string) (ss : list Source) :
  Forall (fun src => tectonic_region_type src = trt) ss ->
  tm_sources (group_of trt ss) = ss /\
  tm_num_ruptures (group_of trt ss) = 0 /\
  tm_gsims (group_of trt ss) = [] /\ tm_id (group_of trt ss) = 0.
Proof.
  induction ss as [|s ss IH] using rev_ind; [now intros _ |].
  rewrite Forall_app, Forall_singleton. intros [Hss Hs].
  destruct (IH Hss) as (Hsources & Hn & Hg & Hi).
  rewrite group_of_snoc, TrtModel_update_same_trt
    by now rewrite group_of_trt.
  cbn. now rewrite Hsources.
Qed.

Lemma group_of_bounds (trt : string) (ss : list Source) :
  Forall (fun src => tectonic_region_type src = trt) ss -> ss <> [] ->
  exists lo hi,
    tm_min_mag (group_of trt ss) = Some lo /\
    tm_max_mag (group_of trt ss) = Some hi /\
    Forall (fun src => (lo <= (get_min_max_mag src).1)%Qc /\
                       ((get_min_max_mag src).2 <= hi)%Qc) ss /\
    (exists src, src ∈ ss /\ (get_min_max_mag src).1 = lo) /\
    (exists src, src ∈ ss /\ (get_min_max_mag src).2 = hi).
Proof.
  induction ss as [|s ss IH] using rev_ind; [congruence |].
  rewrite Forall_app, Forall_singleton. intros [Hss Hs] _.
  rewrite group_of_snoc, TrtModel_update_same_trt
    by now rewrite group_of_trt.
  cbn [fst tm_min_mag tm_max_mag].
  destruct ss as [|s0 ss0].
  - cbn. eexists _, _. split; [reflexivity |]. split; [reflexivity |].
    split; [| split; exists s; split; try reflexivity; left].
    constructor; [| constructor]. split; apply Qcle_refl.
  - destruct IH as (lo & hi & -> & -> & Hall & (a & Ha & Hlo) & (b & Hb & Hhi));
      [exact Hss | discriminate |].
    set (ss := s0 :: ss0) in *.
    pose proof (lower_union_step (Some lo) (get_min_max_mag s).1)
      as (Hlo1 & Hlo2 & Hlo3).
    pose proof (upper_union_step (Some hi) (get_min_max_mag s).2)
      as (Hhi1 & Hhi2 & Hhi3).
    cbn beta iota in Hlo1, Hlo2, Hlo3, Hhi1, Hhi2, Hhi3.
    remember (if bool_decide ((get_min_max_mag s).1 < lo)%Qc
              then (get_min_max_mag s).1 else lo) as lo' eqn:Elo.
    remember (if bool_decide (hi < (get_min_max_mag s).2)%Qc
              then (get_min_max_mag s).2 else hi) as hi' eqn:Ehi.
    exists lo', hi'. split; [reflexivity |]. split; [reflexivity |].
    split; [| split].
    + apply Forall_app. split; [| constructor; [split; assumption |
                                                 constructor]].
      eapply list.Forall_impl; [exact Hall |]. cbn. intros x [Hx1 Hx2].
      split; eapply Qcle_trans; eassumption.
    + destruct Hlo3 as [Hlo3 | Hlo3].
      * exists a. split; [apply elem_of_app; now left | congruence].
      * exists s. split; [apply elem_of_app; right; left | congruence].
    + destruct Hhi3 as [Hhi3 | Hhi3].
      * exists b. split; [apply elem_of_app; now left | congruence].
      * exists s. split; [apply elem_of_app; right; left | congruence].
Qed.

Lemma of_trt_snoc (trt : string) (done : list Source) (s : Source) :
  of_trt trt (done ++ [s]) =
  of_trt trt done ++
  (if bool_decide (tectonic_region_type s = trt) then [s] else []).
Proof.
  unfold of_trt. rewrite list.filter_app. f_equal.
  case_bool_decide.
  - now rewrite filter_cons_True.
  - now rewrite filter_cons_False.
Qed.

Lemma of_trt_all (trt : string) (srcs : list Source) :
  Forall (fun src => tectonic_region_type src = trt) (of_trt trt srcs).
Proof.
  apply list.Forall_forall. intros x Hx.
  now apply list_elem_of_filter in Hx as [Hx _].
Qed.

Lemma parse_step_inv (apply_uncertainties : Source -> Source)
    (st : gmap string TrtModel * gset string) (done : list Source)
    (src : Source) :
  parse_inv st done ->
  source_id src ∉ source_id <$> done ->
  exists st',
    parse_step apply_uncertainties st src = Parsed st' /\
    parse_inv st' (done ++ [apply_uncertainties src]).
Proof.
  destruct st as [d ids]. intros [Hids Hd] Hfresh. cbn [fst snd] in Hids, Hd.
  unfold parse_step.
  rewrite bool_decide_eq_false_2
    by (rewrite Hids, elem_of_list_to_set; exact Hfresh).
  set (src1 := apply_uncertainties src).
  set (trt := tectonic_region_type src1).
  set (dict1 := match d !! trt with
                | None => <[trt := TrtModel_new trt]> d
                | Some _ => d
                end).
  assert (dict1 !! trt = Some (group_of trt (of_trt trt done))) as Hlook.
  { subst dict1. rewrite (Hd trt).
    destruct (of_trt trt done) eqn:Hof.
    - now rewrite lookup_insert_eq.
    - rewrite (Hd trt), Hof. reflexivity. }
  assert (forall trt', trt' <> trt -> dict1 !! trt' = d !! trt') as Hother.
  { intros trt' Hne. subst dict1. destruct (d !! trt); [reflexivity |].
    now rewrite lookup_insert_ne. }
  rewrite Hlook.
  rewrite TrtModel_update_same_trt by now rewrite group_of_trt.
  eexists. split; [reflexivity |]. split; cbn [fst snd].
  - rewrite Hids, fmap_app, list_to_set_app_L. cbn.
    now rewrite (right_id_L ∅ (∪)).
  - intros trt'. rewrite of_trt_snoc.
    destruct (decide (trt' = trt)) as [->|Hne].
    + rewrite lookup_insert_eq.
      rewrite bool_decide_eq_true_2 by reflexivity.
      rewrite group_of_snoc.
      rewrite TrtModel_update_same_trt by now rewrite group_of_trt.
      now destruct (of_trt trt done).
    + rewrite lookup_insert_ne by congruence.
      rewrite (Hother trt' Hne), (Hd trt').
      rewrite bool_decide_eq_false_2 by (fold trt; congruence).
      now rewrite app_nil_r.
Qed.

Section ParseLoop.

Variable apply_uncertainties : Source -> Source.

Hypothesis keeps_id :
  forall src, source_id (apply_uncertainties src) = source_id src.

Lemma parse_loop_returns (srcs : list Source) :
  forall st done,
    parse_inv st done ->
    NoDup (source_id <$> done ++ srcs) ->
    exists st',
      parse_loop apply_uncertainties st srcs = Parsed st' /\
      parse_inv st' (done ++ (apply_uncertainties <$> srcs)).
Proof.
  induction srcs as [|src srcs IH]; intros st done Hinv Hnd;
    cbn [parse_loop].
  - exists st. now rewrite app_nil_r.
  - rewrite fmap_app, fmap_cons in Hnd.
    pose proof Hnd as Hnd'.
    apply list.NoDup_app in Hnd' as (_ & Hsep & _).
    destruct (parse_step_inv apply_uncertainties st done src Hinv)
      as (st1 & -> & Hinv1).
    { intros Hin. apply (Hsep _ Hin). left. }
    destruct (IH st1 (done ++ [apply_uncertainties src]) Hinv1)
      as (st' & Hloop & Hinv').
    { rewrite !fmap_app, fmap_cons, keeps_id, <- app_assoc. exact Hnd. }
    exists st'. split; [exact Hloop |].
    now rewrite fmap_cons, (cons_middle _ done), app_assoc.
Qed.

Lemma parse_loop_duplicated (pre : list Source) :
  forall st done src rest,
    parse_inv st done ->
    NoDup (source_id <$> done ++ pre) ->
    source_id src ∈ source_id <$> done ++ pre ->
    parse_loop apply_uncertainties st (pre ++ src :: rest)
    = DuplicatedID (source_id src).
Proof.
  induction pre as [|p pre IH]; intros st done src rest Hinv Hnd Hin;
    cbn [app parse_loop].
  - rewrite app_nil_r in Hin. destruct st as [d ids].
    destruct Hinv as [Hids _]. cbn [snd] in Hids. unfold parse_step.
    rewrite bool_decide_eq_true_2; [reflexivity |].
    now rewrite Hids, elem_of_list_to_set.
  - rewrite fmap_app, fmap_cons in Hnd.
    pose proof Hnd as Hnd'.
    apply list.NoDup_app in Hnd' as (_ & Hsep & _).
    destruct (parse_step_inv apply_uncertainties st done p Hinv)
      as (st1 & -> & Hinv1).
    { intros Hp. apply (Hsep _ Hp). left. }
    apply (IH st1 (done ++ [apply_uncertainties p])); [exact Hinv1 | |].
    + rewrite !fmap_app, fmap_cons, keeps_id, <- app_assoc. exact Hnd.
    + rewrite !fmap_app, fmap_cons, keeps_id, <- app_assoc.
      rewrite fmap_app, fmap_cons in Hin. exact Hin.
Qed.

End ParseLoop.

(** X11. [parse_source_model], for a function [apply_uncertainties]
    that leaves the ids of the sources alone.  When the ids of the sources
    are distinct it returns the groups of the sources after uncertainty, one
    for each tectonic region type that occurs: the group of a type holds
    the sources of this type in the order of the file, its bounds are the
    smallest lower and the largest upper magnitude of these sources, its
    number of ruptures is 0 and it has no GSIM; the groups are in strictly
    increasing order of [__lt__], and this is the only sorted arrangement of
    them, so that the order in which the dictionary gives its values plays
    no part.  When a source has the id of an earlier source, the call fails
    with [DuplicatedID] for the first such id. *)
Theorem parse_source_model_spec (apply_uncertainties : Source -> Source)
    (srcs : list Source) :
  (forall src, source_id (apply_uncertainties src) = source_id src) ->
  let srcs1 := apply_uncertainties <$> srcs in
  (NoDup (source_id <$> srcs) ->
   exists l,
     parse_source_model apply_uncertainties srcs = Parsed l /\
     Sorted (fun a b => TrtModel_lt a b = true) l /\
     (forall l',
        l' ≡ₚ l -> Sorted (fun a b => TrtModel_lt a b = true) l' -> l' = l) /\
     NoDup (tm_trt <$> l) /\
     (forall trt,
        trt ∈ tm_trt <$> l <-> trt ∈ tectonic_region_type <$> srcs1) /\
     Forall
       (fun tm =>
          tm_sources tm = of_trt (tm_trt tm) srcs1 /\
          tm_num_ruptures tm = 0 /\ tm_gsims tm = [] /\ tm_id tm = 0 /\
          exists lo hi,
            tm_min_mag tm = Some lo /\ tm_max_mag tm = Some hi /\
            Forall (fun src => (lo <= (get_min_max_mag src).1)%Qc /\
                               ((get_min_max_mag src).2 <= hi)%Qc)
              (tm_sources tm) /\
            (exists src,
               src ∈ tm_sources tm /\ (get_min_max_mag src).1 = lo) /\
            (exists src,
               src ∈ tm_sources tm /\ (get_min_max_mag src).2 = hi))
       l) /\
  (forall pre src rest,
     srcs = pre ++ src :: rest ->
     NoDup (source_id <$> pre) ->
     source_id src ∈ source_id <$> pre ->
     parse_source_model apply_uncertainties srcs
     = DuplicatedID (source_id src)).
Proof.
  intros keeps_id srcs1.
  assert (parse_inv (∅, ∅) []) as Hinv0.
  { split; [reflexivity |]. intros trt. cbn. apply lookup_empty. }
  split.
  - intros Hnd. unfold parse_source_model.
    destruct (parse_loop_returns apply_uncertainties keeps_id srcs (∅, ∅) []
                Hinv0 Hnd) as ([d ids] & -> & _ & Hd).
    cbn [app fst] in Hd. fold srcs1 in Hd.
    assert (forall trt tm, d !! trt = Some tm -> tm_trt tm = trt) as Hkey.
    { intros trt tm. rewrite (Hd trt).
      destruct (of_trt trt srcs1); [discriminate |].
      intros [= <-]. apply group_of_trt. }
    destruct (sorted_values_spec d Hkey) as (Hsorted & Hnd' & Hmem).
    exists (sorted_values d). split; [reflexivity |].
    split; [exact Hsorted |]. split.
    { intros l' Hperm Hl'. now apply TrtModel_lt_sorted_unique. }
    split; [exact Hnd' |]. split.
    + intros trt. rewrite !list_elem_of_fmap. split.
      * intros (tm & -> & Hin). apply Hmem in Hin.
        rewrite (Hd (tm_trt tm)) in Hin.
        destruct (of_trt (tm_trt tm) srcs1) as [|s ss] eqn:Hof;
          [discriminate |].
        assert (s ∈ of_trt (tm_trt tm) srcs1) as Hs by (rewrite Hof; left).
        apply list_elem_of_filter in Hs as [Hs1 Hs2]. eauto.
      * intros (s & -> & Hs).
        assert (s ∈ of_trt (tectonic_region_type s) srcs1) as Hs'
          by now apply list_elem_of_filter.
        exists (group_of (tectonic_region_type s)
                  (of_trt (tectonic_region_type s) srcs1)).
        split; [now rewrite group_of_trt |].
        apply Hmem. rewrite group_of_trt, (Hd (tectonic_region_type s)).
        destruct (of_trt (tectonic_region_type s) srcs1);
          [now apply elem_of_nil in Hs' | reflexivity].
    + apply list.Forall_forall. intros tm Hin. apply Hmem in Hin.
      rewrite (Hd (tm_trt tm)) in Hin.
      destruct (of_trt (tm_trt tm) srcs1) as [|s ss] eqn:Hof;
        [discriminate |].
      injection Hin as Htm.
      pose proof (of_trt_all (tm_trt tm) srcs1) as Hall.
      rewrite Hof in Hall.
      destruct (group_of_fields (tm_trt tm) (s :: ss) Hall)
        as (Hsources & Hn & Hg & Hi).
      destruct (group_of_bounds (tm_trt tm) (s :: ss) Hall)
        as (lo & hi & Hlo & Hhi & Hbounds & Hmin & Hmax); [discriminate |].
      rewrite Htm in Hsources, Hn, Hg, Hi, Hlo, Hhi.
      rewrite Hsources. split; [reflexivity |].
      split; [exact Hn |]. split; [exact Hg |]. split; [exact Hi |].
      exists lo, hi. auto.
  - intros pre src rest -> Hnd Hin. unfold parse_source_model.
    now rewrite (parse_loop_duplicated apply_uncertainties keeps_id pre
                   (∅, ∅) [] src rest Hinv0 Hnd Hin).
Qed.

Lemma parse_source_model_spec_witness :
  let srcs1 := (fun src : Source => src) <$> sources_of_file in
  (NoDup (source_id <$> sources_of_file) ->
   exists l,
     parse_source_model (fun src => src) sources_of_file = Parsed l /\
     Sorted (fun a b => TrtModel_lt a b = true) l /\
     (forall l',
        l' ≡ₚ l -> Sorted (fun a b => TrtModel_lt a b = true) l' -> l' = l) /\
     NoDup (tm_trt <$> l) /\
     (forall trt,
        trt ∈ tm_trt <$> l <-> trt ∈ tectonic_region_type <$> srcs1) /\
     Forall
       (fun tm =>
          tm_sources tm = of_trt (tm_trt tm) srcs1 /\
          tm_num_ruptures tm = 0 /\ tm_gsims tm = [] /\ tm_id tm = 0 /\
          exists lo hi,
            tm_min_mag tm = Some lo /\ tm_max_mag tm = Some hi /\
            Forall (fun src => (lo <= (get_min_max_mag src).1)%Qc /\
                               ((get_min_max_mag src).2 <= hi)%Qc)
              (tm_sources tm) /\
            (exists src,
               src ∈ tm_sources tm /\ (get_min_max_mag src).1 = lo) /\
            (exists src,
               src ∈ tm_sources tm /\ (get_min_max_mag src).2 = hi))
       l) /\
  (forall pre src rest,
     sources_of_file = pre ++ src :: rest ->
     NoDup (source_id <$> pre) ->
     source_id src ∈ source_id <$> pre ->
     parse_source_model (fun src => src) sources_of_file
     = DuplicatedID (source_id src)).
Proof.
  apply (parse_source_model_spec (fun src => src) sources_of_file).
  reflexivity.
Defined.

(** ** TrtModel.collect *)

Lemma collect_step_inv (d : gmap string TrtModel) (done : list Source)
    (src : Source) :
  collect_inv d done ->
  exists d', collect_step d src = Ok d' /\ collect_inv d' (done ++ [src]).
Proof.
  intros Hd. unfold collect_step.
  set (trt := tectonic_region_type src).
  pose proof (Hd trt) as Htrt.
  destruct (of_trt trt done) as [|s ss] eqn:Hof; rewrite Htrt.
  - rewrite lookup_insert_eq. cbn.
    eexists. split; [reflexivity |]. intros trt'. rewrite of_trt_snoc.
    destruct (decide (trt' = trt)) as [->|Hne].
    + rewrite lookup_insert_eq, Hof.
      now rewrite bool_decide_eq_true_2 by reflexivity.
    + rewrite !lookup_insert_ne by congruence. rewrite (Hd trt').
      rewrite bool_decide_eq_false_2 by (fold trt; congruence).
      now rewrite app_nil_r.
  - rewrite Htrt. cbn. eexists. split; [reflexivity |].
    intros trt'. rewrite of_trt_snoc, (Hd trt').
    destruct (decide (trt' = trt)) as [->|Hne].
    + rewrite Hof. now rewrite bool_decide_eq_true_2 by reflexivity.
    + rewrite bool_decide_eq_false_2 by (fold trt; congruence).
      now rewrite app_nil_r.
Qed.

Lemma collect_loop_inv (sources : list Source) :
  forall d done,
    collect_inv d done ->
    exists d',
      foldl (fun acc src => bind_result acc (fun d => collect_step d src))
            (Ok d) sources = Ok d' /\
      collect_inv d' (done ++ sources).
Proof.
  induction sources as [|src sources IH]; intros d done Hd; cbn [foldl].
  - exists d. now rewrite app_nil_r.
  - cbn [bind_result].
    destruct (collect_step_inv d done src Hd) as (d1 & -> & Hd1).
    destruct (IH d1 (done ++ [src]) Hd1) as (d' & Hloop & Hd').
    exists d'. split; [exact Hloop |].
    now rewrite (cons_middle _ done), app_assoc.
Qed.

(** X12. [TrtModel.collect] never fails and returns one group for
    each tectonic region type that occurs among the sources: the group of
    a type holds one source, the first of this type, and counts one rupture.
    As every group has one source, the order of [__lt__] is the order of the
    types: the groups come in strictly increasing order of their tectonic
    region types. *)
Theorem TrtModel_collect_spec (sources : list Source) :
  exists l,
    TrtModel_collect sources = Ok l /\
    Sorted (fun a b => String.ltb (tm_trt a) (tm_trt b) = true) l /\
    (forall trt,
       trt ∈ tm_trt <$> l <-> trt ∈ tectonic_region_type <$> sources) /\
    Forall
      (fun tm =>
         exists src rest,
           of_trt (tm_trt tm) sources = src :: rest /\
           tm = {| tm_trt := tm_trt tm; tm_sources := [src];
                   tm_num_ruptures := 1; tm_min_mag := None;
                   tm_max_mag := None; tm_gsims := []; tm_id := 0 |})
      l.
Proof.
  destruct (collect_loop_inv sources ∅ []) as (d & Hloop & Hd).
  { intros trt. cbn. apply lookup_empty. }
  cbn [app] in Hd. unfold TrtModel_collect. rewrite Hloop.
  assert (forall trt tm, d !! trt = Some tm -> tm_trt tm = trt) as Hkey.
  { intros trt tm. rewrite (Hd trt).
    destruct (of_trt trt sources); [discriminate |]. now intros [= <-]. }
  destruct (sorted_values_spec d Hkey) as (Hsorted & _ & Hmem).
  assert (forall tm,
            tm ∈ sorted_values d ->
            exists src rest,
              of_trt (tm_trt tm) sources = src :: rest /\
              tm = {| tm_trt := tm_trt tm; tm_sources := [src];
                      tm_num_ruptures := 1; tm_min_mag := None;
                      tm_max_mag := None; tm_gsims := []; tm_id := 0 |})
    as Hgroups.
  { intros tm Hin. apply Hmem in Hin. rewrite (Hd (tm_trt tm)) in Hin.
    destruct (of_trt (tm_trt tm) sources) as [|s ss]; [discriminate |].
    injection Hin as Htm. exists s, ss. split; [reflexivity |].
    rewrite <- Htm at 1. reflexivity. }
  exists (sorted_values d). split; [reflexivity |]. split; [| split].
  - assert (Forall (fun tm => length (tm_sources tm) = 1%nat)
              (sorted_values d)) as Hone.
    { apply list.Forall_forall. intros tm Hin.
      destruct (Hgroups tm Hin) as (s & ss & _ & ->). reflexivity. }
    clear Hgroups Hmem. induction Hsorted as [|a l Hl IH Hhd];
      [constructor |].
    apply list.Forall_cons in Hone as [Ha Hone].
    constructor; [now apply IH |].
    destruct Hhd as [|b l' Hab]; constructor.
    apply list.Forall_cons in Hone as [Hb _].
    unfold TrtModel_lt in Hab.
    now rewrite bool_decide_eq_true_2 in Hab by congruence.
  - intros trt. rewrite !list_elem_of_fmap. split.
    + intros (tm & -> & Hin).
      destruct (Hgroups tm Hin) as (s & ss & Hof & _).
      assert (s ∈ of_trt (tm_trt tm) sources) as Hs by (rewrite Hof; left).
      apply list_elem_of_filter in Hs as [Hs1 Hs2]. eauto.
    + intros (s & -> & Hs).
      assert (s ∈ of_trt (tectonic_region_type s) sources) as Hs'
        by now apply list_elem_of_filter.
      destruct (of_trt (tectonic_region_type s) sources) as [|s0 ss] eqn:Hof;
        [now apply elem_of_nil in Hs' |].
      exists {| tm_trt := tectonic_region_type s; tm_sources := [s0];
                tm_num_ruptures := 1; tm_min_mag := None;
                tm_max_mag := None; tm_gsims := []; tm_id := 0 |}.
      split; [reflexivity |]. apply Hmem. cbn. now rewrite Hd, Hof.
  - apply list.Forall_forall. exact Hgroups.
Qed.

(** ** CompositionInfo: the triples *)

Section SortedUnique.

Context {A : Type} (before : A -> A -> bool).

Hypothesis before_asym : forall a b, before a b = true -> before b a = false.
Hypothesis before_trans :
  forall a b c, before a b = true -> before b c = true -> before a c = true.

Lemma Sorted_weaken_in (R S : A -> A -> Prop) (l : list A) :
  (forall a b, a ∈ l -> b ∈ l -> R a b -> S a b) ->
  Sorted R l -> Sorted S l.
Proof.
  intros HRS Hl. induction Hl as [|a l _ IH Hhd]; constructor.
  - apply IH. intros x y Hx Hy. apply HRS; now right.
  - destruct Hhd as [|b l' Hab]; constructor.
    apply HRS; [left | right; left | exact Hab].
Qed.

Lemma strictly_sorted_comparable (l : list A) :
  Sorted (fun a b => before a b = true) l ->
  NoDup l /\
  forall a b, a ∈ l -> b ∈ l -> a <> b ->
              before a b = true \/ before b a = true.
Proof.
  intros Hl.
  apply (@Sorted_StronglySorted _ (fun a b => before a b = true)) in Hl;
    [| intros a b c; apply before_trans].
  induction Hl as [|a l _ [IHnd IHcmp] Hall]; [split |].
  - constructor.
  - intros a b Ha. now apply elem_of_nil in Ha.
  - rewrite list.Forall_forall in Hall. split.
    + constructor; [| exact IHnd]. intros Hin.
      pose proof (Hall a Hin) as Haa.
      pose proof (before_asym a a Haa). congruence.
    + intros x y Hx Hy Hne.
      apply elem_of_cons in Hx as [->|Hx];
        apply elem_of_cons in Hy as [->|Hy].
      * congruence.
      * left. now apply Hall.
      * right. now apply Hall.
      * now apply IHcmp.
Qed.

Lemma sorted_by_unique (l l' : list A) :
  Sorted (fun a b => before a b = true) l' -> l ≡ₚ l' ->
  sorted_by before l = l'.
Proof.
  intros Hl' Hperm.
  destruct (strictly_sorted_comparable l' Hl') as [Hnd Hcmp].
  pose proof (sorted_by_perm before l) as Hs.
  assert (sorted_by before l ≡ₚ l') as Hsl by now rewrite Hs.
  apply (@Sorted_unique_strong _ (fun a b => before a b = true));
    [intros a b c; apply before_trans | | | exact Hl' | exact Hsl].
  - intros a b _ _ Hab Hba. apply before_asym in Hab. congruence.
  - apply (Sorted_weaken_in (fun a b => before b a = false /\ a <> b)).
    + intros a b Ha Hb [Hba Hne]. rewrite Hsl in Ha, Hb.
      destruct (Hcmp a b Ha Hb Hne) as [Hab|Hab]; [exact Hab | congruence].
    + apply (Sorted_separated (fun a b => before b a = false) id).
      * apply (sorted_by_Sorted before before_asym).
      * rewrite list_fmap_id, Hsl. exact Hnd.
Qed.

End SortedUnique.

Lemma item_lt_asym (x y : Z * Z * Z) :
  item_lt x y = true -> item_lt y x = false.
Proof.
  unfold item_lt. intros Hxy. apply bool_decide_eq_true in Hxy.
  apply bool_decide_eq_false. lia.
Qed.

Lemma item_lt_trans (x y z : Z * Z * Z) :
  item_lt x y = true -> item_lt y z = true -> item_lt x z = true.
Proof.
  unfold item_lt. intros Hxy Hyz. apply bool_decide_eq_true in Hxy.
  apply bool_decide_eq_true in Hyz. apply bool_decide_eq_true. lia.
Qed.

Lemma item_lt_key (x y : Z * Z * Z) :
  item_lt y x = false -> x.1 <> y.1 -> key_lt x.1 y.1.
Proof.
  unfold item_lt, key_lt. intros Hyx Hne.
  apply bool_decide_eq_false in Hyx.
  destruct x as [[a b] c], y as [[a' b'] c']. cbn in *.
  assert (a <> a' \/ b <> b') as Hdiff.
  { destruct (decide (a = a')); [| now left].
    destruct (decide (b = b')); [| now right]. congruence. }
  lia.
Qed.

Section TriplesProperties.

Context {LT : LogicTree}.

Lemma CompositionInfo_get_triples_eq (self : CompositionInfo) :
  CompositionInfo_get_triples self =
  sorted_by item_lt (map_to_list (col_dict self)).
Proof.
  unfold CompositionInfo_get_triples.
  rewrite <- (list_fmap_id (sorted_by _ _)) at 2.
  apply list_fmap_ext. now intros i [[t idx] c] _.
Qed.

(** X13. [get_triples] yields the entries of [_col_dict], each one
    once: a triple is yielded exactly when [get_col_id] gives its third
    component for the first two.  The triples come in the order of their
    pairs (group id, sample index), the group id first. *)
Theorem CompositionInfo_get_triples_spec (self : CompositionInfo) :
  Sorted (fun x y => key_lt x.1 y.1) (CompositionInfo_get_triples self) /\
  NoDup (CompositionInfo_get_triples self).*1 /\
  (forall trt_id idx col_id,
     (trt_id, idx, col_id) ∈ CompositionInfo_get_triples self <->
     CompositionInfo_get_col_id self trt_id idx = Ok col_id).
Proof.
  rewrite CompositionInfo_get_triples_eq.
  pose proof (sorted_by_perm item_lt (map_to_list (col_dict self))) as Hperm.
  assert (NoDup (sorted_by item_lt (map_to_list (col_dict self))).*1)
    as Hnd.
  { rewrite Hperm. apply NoDup_fst_map_to_list. }
  split; [| split; [exact Hnd |]].
  - apply (Sorted_weaken (fun x y => item_lt y x = false /\ x.1 <> y.1)).
    + intros x y [Hyx Hne]. now apply item_lt_key.
    + apply (Sorted_separated (fun x y => item_lt y x = false) fst);
        [apply (sorted_by_Sorted item_lt item_lt_asym) | exact Hnd].
  - intros t i c. rewrite Hperm, elem_of_map_to_list.
    unfold CompositionInfo_get_col_id.
    destruct (col_dict self !! (t, i)); split; congruence.
Qed.

Lemma StronglySorted_seq (a n : nat) : StronglySorted lt (seq a n).
Proof.
  revert a. induction n as [|n IH]; intros a; cbn; constructor.
  - apply IH.
  - apply list.Forall_forall. intros x Hx.
    apply list_elem_of_In, in_seq in Hx. lia.
Qed.

Lemma StronglySorted_seqZ (m n : Z) : StronglySorted Z.lt (seqZ m n).
Proof.
  unfold seqZ.
  apply (StronglySorted_fmap _ lt Z.lt); [| apply StronglySorted_seq].
  intros x y Hxy. lia.
Qed.

Lemma walk_groups_sorted (samples : Z) (tms : list TrtModel) :
  StronglySorted Z.lt (tm_id <$> tms) ->
  StronglySorted key_lt
    (tm ← tms; idx ← seqZ 0 samples; [(tm_id tm, idx)]) /\
  forall key,
    key ∈ (tm ← tms; idx ← seqZ 0 samples; [(tm_id tm, idx)]) ->
    key.1 ∈ tm_id <$> tms.
Proof.
  induction tms as [|tm tms IH]; [intros _; split |].
  - constructor.
  - intros key Hkey. now apply elem_of_nil in Hkey.
  - rewrite fmap_cons, StronglySorted_cons, list.Forall_forall.
    intros [Hlt Hss]. destruct (IH Hss) as [IHs IHin].
    rewrite bind_cons, bind_singleton_map.
    assert (forall key,
              key ∈ map (fun idx => (tm_id tm, idx)) (seqZ 0 samples) ->
              key.1 = tm_id tm) as Hrow.
    { intros key Hkey. apply list_elem_of_fmap in Hkey as (idx & -> & _).
      reflexivity. }
    split.
    + apply StronglySorted_app. split; [| split; [| exact IHs]].
      * intros x1 x2 Hx1 Hx2. left. rewrite (Hrow x1 Hx1).
        apply Hlt, IHin, Hx2.
      * apply (StronglySorted_fmap _ Z.lt key_lt);
          [| apply StronglySorted_seqZ].
        intros x y Hxy. right. now split.
    + intros key Hkey. apply elem_of_app in Hkey as [Hkey|Hkey].
      * rewrite (Hrow key Hkey). left.
      * right. now apply IHin.
Qed.

Lemma walk_sorted (sms : list SourceModel) :
  StronglySorted Z.lt (tm_id <$> (sm ← sms; sm_trt_models sm)) ->
  StronglySorted key_lt (walk sms) /\
  forall key,
    key ∈ walk sms -> key.1 ∈ tm_id <$> (sm ← sms; sm_trt_models sm).
Proof.
  unfold walk. induction sms as [|sm sms IH]; [intros _; split |].
  - constructor.
  - intros key Hkey. now apply elem_of_nil in Hkey.
  - rewrite !bind_cons, fmap_app, StronglySorted_app.
    intros (Hlt & Hsm & Hsms). destruct (IH Hsms) as [IHs IHin].
    destruct (walk_groups_sorted (sm_samples sm) (sm_trt_models sm) Hsm)
      as [Hs Hin].
    split.
    + apply StronglySorted_app. split; [| split; assumption].
      intros x1 x2 Hx1 Hx2. left. apply Hlt; [now apply Hin | now apply IHin].
    + intros key Hkey. apply elem_of_app.
      apply elem_of_app in Hkey as [Hkey|Hkey]; [left | right]; auto.
Qed.

Lemma key_lt_irrefl (a : Z * Z) : ~ key_lt a a.
Proof. unfold key_lt. lia. Qed.

Lemma StronglySorted_NoDup {B : Type} (R : B -> B -> Prop) (l : list B) :
  (forall a, ~ R a a) -> StronglySorted R l -> NoDup l.
Proof.
  intros Hirr. induction 1 as [|a l _ IH Hall]; constructor; [| exact IH].
  intros Hin. rewrite list.Forall_forall in Hall.
  exact (Hirr a (Hall a Hin)).
Qed.

Lemma imap_numbered_snd {B : Type} (l : list B) :
  forall g : nat -> Z,
    (imap (fun k key => (key, g k)) l).*2 = g <$> seq 0 (length l).
Proof.
  induction l as [|x l IH]; intros g; [reflexivity |].
  cbn. f_equal. rewrite <- fmap_S_seq, <- list_fmap_compose.
  apply (IH (g ∘ S)).
Qed.

(** X14. When the ids of the groups increase strictly along the
    source models and their groups, [get_triples] yields the pairs (group
    id, sample index) in the order in which the constructor has numbered
    them: the collection id of the k-th triple is k. *)
Theorem CompositionInfo_get_triples_numbered (sms : list SourceModel) :
  Sorted Z.lt (tm_id <$> (sm ← sms; sm_trt_models sm)) ->
  CompositionInfo_get_triples (CompositionInfo_init sms) =
    imap (fun k key => (key, Z.of_nat k)) (walk sms) /\
  (CompositionInfo_get_triples (CompositionInfo_init sms)).*2 =
    seqZ 0 (num_collections (CompositionInfo_init sms)).
Proof.
  intros Hids.
  apply (@Sorted_StronglySorted _ Z.lt) in Hids;
    [| intros a b c; apply Z.lt_trans].
  destruct (walk_sorted sms Hids) as [Hsorted _].
  pose proof (StronglySorted_NoDup key_lt (walk sms) key_lt_irrefl Hsorted)
    as Hnd.
  destruct (CompositionInfo_init_col_dict sms) as [Hdict Hnum].
  set (items := imap (fun k key => (key, Z.of_nat k)) (walk sms)).
  assert (items.*1 = walk sms) as Hfst.
  { subst items. generalize (walk sms) as keys. generalize Z.of_nat as g.
    intros g keys. revert g.
    induction keys as [|key keys IH]; intros g; [reflexivity |].
    cbn. f_equal. apply (IH (g ∘ S)). }
  assert (CompositionInfo_get_triples (CompositionInfo_init sms) = items)
    as Htriples.
  { rewrite CompositionInfo_get_triples_eq.
    apply (sorted_by_unique item_lt item_lt_asym item_lt_trans).
    - apply (Sorted_weaken_in
               (fun x y : Z * Z * Z => key_lt x.1 y.1)); [| ].
      + intros x y _ _ Hxy. unfold key_lt in Hxy. unfold item_lt.
        apply bool_decide_eq_true. lia.
      + apply StronglySorted_Sorted.
        assert (StronglySorted key_lt items.*1) as Hitems
          by now rewrite Hfst.
        clear -Hitems. induction items as [|x items IH]; [constructor |].
        rewrite fmap_cons, StronglySorted_cons in Hitems.
        destruct Hitems as [Hall Hss].
        constructor; [now apply IH |].
        now rewrite Forall_fmap in Hall.
    - apply NoDup_Permutation.
      + apply NoDup_map_to_list.
      + apply NoDup_fmap_1 with (f := fst). now rewrite Hfst.
      + intros [key v]. rewrite elem_of_map_to_list, Hdict.
        subst items. rewrite elem_of_lookup_imap. split.
        * intros Hv. apply numbered_inserts_some in Hv as (k & -> & Hk).
          exists k, key. split; [f_equal; lia | exact Hk].
        * intros (k & key' & [= -> ->] & Hk).
          rewrite (numbered_inserts_last 0 (walk sms) ∅ k key' Hk);
            [f_equal; lia |].
          intros k' Hlt Hk'.
          pose proof (NoDup_lookup _ _ _ _ Hnd Hk Hk'). lia. }
  split; [exact Htriples |].
  rewrite Htriples, Hnum. subst items. rewrite imap_numbered_snd.
  unfold seqZ. rewrite Nat2Z.id. apply list_fmap_ext. intros i x _. lia.
Qed.

End TriplesProperties.

Lemma CompositionInfo_get_triples_numbered_witness :
  CompositionInfo_get_triples (CompositionInfo_init models_1_3_1_2) =
    imap (fun k key => (key, Z.of_nat k)) (walk models_1_3_1_2) /\
  (CompositionInfo_get_triples (CompositionInfo_init models_1_3_1_2)).*2 =
    seqZ 0 (num_collections (CompositionInfo_init models_1_3_1_2)).
Proof.
  apply (CompositionInfo_get_triples_numbered models_1_3_1_2).
  cbn. repeat constructor.
Defined.

(** ** SourceProcessor: failures and the rows of [source_info] *)

Section ProcessorFurther.

Context {LT : LogicTree} {HL : HazardLib}.

Lemma filter_and_split_raises (self : SourceProcessor) (src : Source) :
  trt_model_id src = None ->
  filter_and_split src self = Raise AttributeError.
Proof.
  intros Hnone. unfold filter_and_split. rewrite Hnone.
  now destruct (sitecol self) as [sites|].
Qed.

Lemma map_result_filter_and_split (self : SourceProcessor)
    (l : list Source) :
  match map_result (fun src => filter_and_split src self) l with
  | Ok outs =>
      Forall (fun src => is_Some (trt_model_id src)) l /\
      (fun src => filter_and_split src self) <$> l = Ok <$> outs
  | Raise e =>
      e = AttributeError /\ Exists (fun src => trt_model_id src = None) l
  end.
Proof.
  induction l as [|src l IH]; cbn [map_result]; [now split |].
  destruct (trt_model_id src) as [i|] eqn:Hid.
  - destruct (filter_and_split_returns self src) as [out Hout];
      [now rewrite Hid |].
    rewrite Hout.
    destruct (map_result _ l) as [outs|e].
    + destruct IH as [IH1 IH2]. split.
      * constructor; [now rewrite Hid | exact IH1].
      * rewrite !fmap_cons, Hout, IH2. reflexivity.
    + destruct IH as [-> IH]. split; [reflexivity | now right].
  - rewrite (filter_and_split_raises self src Hid).
    split; [reflexivity | now left].
Qed.

Lemma get_sources_eq (csm : CompositeSourceModel) :
  (CompositeSourceModel_get_sources csm).2 =
  tm ← CompositeSourceModel_trt_models csm; tag_source tm <$> tm_sources tm.
Proof.
  unfold CompositeSourceModel_get_sources, CompositeSourceModel_trt_models.
  cbn [snd source_models set_source_models].
  induction (source_models csm) as [|sm sms IH]; [reflexivity |].
  cbn [map]. rewrite !bind_cons, !bind_app, IH. f_equal.
  cbn [sm_trt_models set_sm_trt_models].
  induction (sm_trt_models sm) as [|tm tms IHt]; [reflexivity |].
  rewrite fmap_cons, !bind_cons, IHt. reflexivity.
Qed.

Lemma get_sources_elem_of (csm : CompositeSourceModel) (src' : Source) :
  src' ∈ (CompositeSourceModel_get_sources csm).2 <->
  exists tm src,
    tm ∈ CompositeSourceModel_trt_models csm /\ src ∈ tm_sources tm /\
    src' = tag_source tm src.
Proof.
  rewrite get_sources_eq, list_elem_of_bind. split.
  - intros (tm & Hsrc & Htm).
    apply list_elem_of_fmap in Hsrc as (src & -> & Hsrc). eauto.
  - intros (tm & src & Htm & Hsrc & ->). exists tm.
    split; [now apply list_elem_of_fmap_2 | exact Htm].
Qed.

Lemma tag_source_attribute (tm : TrtModel) (src : Source) :
  trt_model_id (tag_source tm src) =
  match trt_model_id src with Some _ => Some (tm_id tm) | None => None end.
Proof. unfold tag_source. now destruct (trt_model_id src) eqn:Hid. Qed.


Lemma omap_result_value_Ok {A : Type} (l : list A) :
  omap result_value (Ok <$> l) = l.
Proof. induction l as [|x l IH]; [reflexivity |]. cbn. now rewrite IH. Qed.

Lemma process_rows (self : SourceProcessor)
    (csm csm' : CompositeSourceModel) times log :
  SourceProcessor_process self csm = Ok (csm', times, log) ->
  exists fast_outs slow_outs,
    map_result (fun src => filter_and_split src self)
      (filter (fun src => is_fast src = true)
         (CompositeSourceModel_get_sources csm).2) = Ok fast_outs /\
    map_result (fun src => filter_and_split src self)
      (filter (fun src => is_fast src <> true)
         (CompositeSourceModel_get_sources csm).2) = Ok slow_outs /\
    source_info csm' =
      sorted_by
        (fun y x =>
           bool_decide
             (row_filter_time x + row_split_time x
              < row_filter_time y + row_split_time y)%Qc)
        (row_of <$> fast_outs ++ completion_order SourceInfo slow_outs).
Proof.
  unfold SourceProcessor_process.
  destruct (CompositeSourceModel_get_sources csm) as [csm1 sources].
  cbn [snd].
  destruct (map_result _ (filter (fun src => is_fast src = true) sources))
    as [fast_outs|e] eqn:Hfast; [| discriminate].
  pose proof (proj1 (foldl_agg_source_info fast_outs ([], ∅))) as H1.
  destruct (foldl agg_source_info ([], ∅) fast_outs) as [outs1 fast_acc].
  destruct (map_result _ (filter (fun src => is_fast src <> true) sources))
    as [slow_outs|e] eqn:Hslow; [| discriminate].
  pose proof (proj1 (foldl_agg_source_info
                       (completion_order SourceInfo slow_outs) (outs1, ∅)))
    as H2.
  destruct (foldl agg_source_info (outs1, ∅) _) as [outs2 slow_acc].
  cbn [fst] in H1, H2. intros [= <- _ _].
  exists fast_outs, slow_outs. split; [reflexivity |].
  split; [reflexivity |]. cbn [source_info set_source_info].
  now rewrite H2, H1.
Qed.

Lemma process_rows_perm (self : SourceProcessor)
    (csm csm' : CompositeSourceModel) times log :
  SourceProcessor_process self csm = Ok (csm', times, log) ->
  exists outs,
    map_result (fun src => filter_and_split src self)
      (CompositeSourceModel_get_sources csm).2 = Ok outs /\
    source_info csm' ≡ₚ row_of <$> outs.
Proof.
  intros Hproc.
  apply process_rows in Hproc as (fast_outs & slow_outs & Hfast & Hslow & ->).
  set (sources := (CompositeSourceModel_get_sources csm).2) in *.
  pose proof (map_result_filter_and_split self
                (filter (fun src => is_fast src = true) sources)) as Hf.
  pose proof (map_result_filter_and_split self
                (filter (fun src => is_fast src <> true) sources)) as Hs.
  rewrite Hfast in Hf. rewrite Hslow in Hs.
  destruct Hf as [Hf1 Hf2], Hs as [Hs1 Hs2].
  pose proof (map_result_filter_and_split self sources) as Hall.
  destruct (map_result _ sources) as [outs|e].
  - destruct Hall as [_ Hall]. exists outs. split; [reflexivity |].
    rewrite sorted_by_perm.
    rewrite (completion_order_perm SourceInfo slow_outs).
    apply fmap_Permutation.
    rewrite <- (omap_result_value_Ok (fast_outs ++ slow_outs)).
    rewrite <- (omap_result_value_Ok outs).
    apply omap_Permutation.
    rewrite fmap_app, <- Hf2, <- Hs2, <- Hall, <- fmap_app.
    apply fmap_Permutation.
    apply (filter_app_complement (fun src => is_fast src = true)).
  - exfalso. destruct Hall as [_ Hex].
    apply Exists_exists in Hex as (src & Hin & Hnone).
    apply list_elem_of_In in Hin.
    rewrite list.Forall_forall in Hf1, Hs1.
    destruct (decide (is_fast src = true)) as [Hfa|Hfa].
    + specialize (Hf1 src). rewrite Hnone in Hf1.
      destruct Hf1 as [? [=]]. now apply list_elem_of_filter.
    + specialize (Hs1 src). rewrite Hnone in Hs1.
      destruct Hs1 as [? [=]]. now apply list_elem_of_filter.
Qed.

(** X16. When [process] returns, [source_info] has one row for each
    source of the model, made of the result of [filter_and_split] for this
    source: the id of its group, its id and its class cut to 20 characters,
    the number of sources it was split in and the two times.  The rows are
    in the order of decreasing total time. *)
Theorem SourceProcessor_process_source_info (self : SourceProcessor)
    (csm csm' : CompositeSourceModel) (times : Qc * Qc) (log : list event) :
  SourceProcessor_process self csm = Ok (csm', times, log) ->
  (exists outs,
     map_result (fun src => filter_and_split src self)
       (CompositeSourceModel_get_sources csm).2 = Ok outs /\
     source_info csm' ≡ₚ row_of <$> outs) /\
  Sorted (fun a b =>
            (row_filter_time b + row_split_time b
             <= row_filter_time a + row_split_time a)%Qc)
    (source_info csm').
Proof.
  intros Hproc. split; [eapply process_rows_perm; exact Hproc |].
  apply process_rows in Hproc as (fast_outs & slow_outs & _ & _ & ->).
  match goal with
  | |- Sorted _ (sorted_by ?before ?l) =>
      apply (Sorted_weaken (fun a b => before b a = false));
        [| apply (sorted_by_Sorted before)]
  end.
  - intros a b Hab. apply bool_decide_eq_false in Hab.
    now apply Qcnot_lt_le.
  - intros a b Hab. apply bool_decide_eq_true in Hab.
    apply bool_decide_eq_false. apply Qcle_not_lt.
    now apply Qclt_le_weak.
Qed.

(** *** The number of sources after [process] *)

Lemma length_bind {A B : Type} (f : A -> list B) (l : list A) :
  length (x ← l; f x) = sum_list_with (fun x => length (f x)) l.
Proof.
  induction l as [|x l IH]; [reflexivity |].
  rewrite bind_cons, length_app, IH. reflexivity.
Qed.

Lemma sum_list_with_ext {A : Type} (f g : A -> nat) (l : list A) :
  (forall x, x ∈ l -> f x = g x) -> sum_list_with f l = sum_list_with g l.
Proof.
  induction l as [|x l IH]; intros Hfg; [reflexivity |].
  cbn. rewrite (Hfg x) by left. rewrite IH; [reflexivity |].
  intros y Hy. apply Hfg. now right.
Qed.

Lemma sum_list_with_fmap {A B : Type} (f : B -> nat) (g : A -> B)
    (l : list A) :
  sum_list_with f (g <$> l) = sum_list_with (fun x => f (g x)) l.
Proof. induction l as [|x l IH]; [reflexivity |]. cbn. now rewrite IH. Qed.

Lemma sum_list_with_add {A : Type} (f g : A -> nat) (l : list A) :
  sum_list_with (fun x => (f x + g x)%nat) l =
  (sum_list_with f l + sum_list_with g l)%nat.
Proof. induction l as [|x l IH]; [reflexivity |]. cbn. rewrite IH. lia. Qed.

Lemma sum_list_with_indicator (k : Z) (n : nat) (ids : list Z) :
  NoDup ids -> k ∈ ids ->
  sum_list_with (fun i => if bool_decide (k = i) then n else 0%nat) ids = n.
Proof.
  induction 1 as [|i ids Hi Hnd IH]; intros Hk.
  - now apply elem_of_nil in Hk.
  - cbn. apply elem_of_cons in Hk as [->|Hk].
    + rewrite bool_decide_eq_true_2 by reflexivity.
      rewrite (sum_list_with_ext _ (fun _ => 0%nat)).
      * clear. induction ids as [|? ? IH]; cbn; lia.
      * intros j Hj. rewrite bool_decide_eq_false_2; [reflexivity |].
        intros ->. contradiction.
    + rewrite bool_decide_eq_false_2 by (intros ->; contradiction).
      now rewrite IH.
Qed.

Lemma sources_of_id_count (ids : list Z) (outs : list SourceInfo) :
  NoDup ids ->
  (forall out, out ∈ outs -> si_trt_model_id out ∈ ids) ->
  sum_list_with (fun i => length (sources_of_id outs i)) ids =
  sum_list_with (fun out => length (si_sources out)) outs.
Proof.
  intros Hnd. induction outs as [|out outs IH]; intros Hin.
  - cbn. clear. induction ids as [|? ? IH]; cbn; [reflexivity | exact IH].
  - cbn [sum_list_with]. rewrite <- IH
      by (intros o Ho; apply Hin; now right).
    rewrite <- (sum_list_with_indicator (si_trt_model_id out)
                  (length (si_sources out)) ids Hnd) at 1
      by (apply Hin; left).
    rewrite <- sum_list_with_add. apply sum_list_with_ext. intros i _.
    unfold sources_of_id. rewrite bind_cons, length_app.
    now case_bool_decide.
Qed.

Lemma map_result_elem_of {A B : Type} (f : A -> result B) (l : list A) :
  forall ys y,
    map_result f l = Ok ys -> y ∈ ys -> exists x, x ∈ l /\ f x = Ok y.
Proof.
  induction l as [|x l IH]; intros ys y; cbn [map_result].
  - intros [= <-] Hy. now apply elem_of_nil in Hy.
  - destruct (f x) as [y0|e] eqn:Hx; [| discriminate].
    destruct (map_result f l) as [ys'|e]; [| discriminate].
    intros [= <-] Hy. apply elem_of_cons in Hy as [->|Hy].
    + exists x. split; [left | exact Hx].
    + destruct (IH ys' y eq_refl Hy) as (x' & Hx' & Hfx').
      exists x'. split; [now right | exact Hfx'].
Qed.

Lemma filter_and_split_trt_model_id (self : SourceProcessor) (src : Source)
    (out : SourceInfo) :
  filter_and_split src self = Ok out ->
  trt_model_id src = Some (si_trt_model_id out).
Proof.
  unfold filter_and_split.
  destruct (sitecol self) as [sites|];
    destruct (trt_model_id src) as [i|]; try discriminate.
  - destruct (filter_sites_by_distance_to_source _ _ _);
      now intros [= <-].
  - now intros [= <-].
Qed.

Lemma sum_groups_map (F : SourceModel -> SourceModel)
    (G : TrtModel -> TrtModel) (w w' : TrtModel -> nat)
    (sms : list SourceModel) :
  (forall sm, sm_trt_models (F sm) = G <$> sm_trt_models sm) ->
  (forall tm, w (G tm) = w' tm) ->
  sum_list_with w (sm ← F <$> sms; sm_trt_models sm) =
  sum_list_with w' (sm ← sms; sm_trt_models sm).
Proof.
  intros HF HG. induction sms as [|sm sms IH]; [reflexivity |].
  rewrite fmap_cons, !bind_cons, !sum_list_with_app, IH, HF.
  rewrite sum_list_with_fmap. f_equal. apply sum_list_with_ext.
  intros tm _. apply HG.
Qed.

Lemma foldr_Z_add_perm (l l' : list Z) :
  l ≡ₚ l' -> foldr Z.add 0 l = foldr Z.add 0 l'.
Proof. induction 1; cbn; lia. Qed.

Lemma foldr_Z_add_lengths {A : Type} (f : A -> nat) (l : list A) :
  foldr Z.add 0 ((fun x => Z.of_nat (f x)) <$> l) =
  Z.of_nat (sum_list_with f l).
Proof. induction l as [|x l IH]; [reflexivity |]. cbn. rewrite IH. lia. Qed.

(** X17. When the groups of the model have distinct ids, [process]
    neither loses nor repeats a source: after the call the model has as many
    sources as the rows of [source_info] count, the numbers [split_num]
    summed over all rows. *)
Theorem SourceProcessor_process_conserves (self : SourceProcessor)
    (csm csm' : CompositeSourceModel) (times : Qc * Qc) (log : list event) :
  SourceProcessor_process self csm = Ok (csm', times, log) ->
  NoDup (tm_id <$> CompositeSourceModel_trt_models csm) ->
  CompositeSourceModel_get_num_sources csm' =
  foldr Z.add 0 (row_split_num <$> source_info csm').
Proof.
  intros Hproc Hnd.
  destruct (process_rows_perm _ _ _ _ _ Hproc) as (outs & Hmr & Hrows).
  apply SourceProcessor_process_spec in Hproc
    as (sbt & log0 & Hsbt & Hmodels & _).
  rewrite (foldr_Z_add_perm _ (row_split_num <$> (row_of <$> outs)))
    by now rewrite Hrows.
  replace (row_split_num <$> (row_of <$> outs))
    with ((fun out => Z.of_nat (length (si_sources out))) <$> outs)
    by (rewrite <- list_fmap_compose; reflexivity).
  rewrite (foldr_Z_add_lengths (fun out => length (si_sources out)) outs).
  unfold CompositeSourceModel_get_num_sources. f_equal.
  rewrite get_sources_eq, length_bind.
  rewrite (sum_list_with_ext _ (fun tm => length (tm_sources tm)))
    by (intros tm _; apply length_fmap).
  unfold CompositeSourceModel_trt_models at 1.
  rewrite Hmodels, get_sources_source_models, <- list_fmap_compose.
  rewrite (sum_groups_map _
             (fun tm =>
                set_tm_sources
                  (sorted_by
                     (fun y x => String.ltb (source_id y) (source_id x))
                     (default [] (sbt !! tm_id tm))) tm)
             _ (fun tm => length (default [] (sbt !! tm_id tm))));
    [| reflexivity
     | intros tm; cbn; apply Permutation_length, sorted_by_perm].
  rewrite (sum_groups_map _
             (fun tm => set_tm_sources (tag_source tm <$> tm_sources tm) tm)
             _ (fun tm => length (default [] (sbt !! tm_id tm))));
    [| reflexivity | reflexivity].
  fold (CompositeSourceModel_trt_models csm).
  rewrite <- (sum_list_with_fmap
                (fun i => length (default [] (sbt !! i))) tm_id).
  rewrite (sum_list_with_ext _
             (fun i => length (sources_of_id outs i))).
  - apply sources_of_id_count; [exact Hnd |].
    intros out Hout.
    destruct (map_result_elem_of _ _ _ _ Hmr Hout) as (src' & Hin & Hfs).
    apply filter_and_split_trt_model_id in Hfs.
    apply get_sources_elem_of in Hin as (tm & src & Htm & _ & ->).
    rewrite tag_source_attribute in Hfs.
    destruct (trt_model_id src); [| discriminate].
    injection Hfs as <-. now apply list_elem_of_fmap_2.
  - intros i _. rewrite (map_result_sources_of_id self _ _ Hmr i).
    apply Permutation_length, Hsbt.
Qed.

End ProcessorFurther.

Lemma SourceProcessor_process_source_info_witness :
  let out := default (csm_two_groups, (0%Qc, 0%Qc), [])
               (result_value
                  (SourceProcessor_process processor_200km csm_two_groups)) in
  (exists outs,
     map_result (fun src => filter_and_split src processor_200km)
       (CompositeSourceModel_get_sources csm_two_groups).2 = Ok outs /\
     source_info out.1.1 ≡ₚ row_of <$> outs) /\
  Sorted (fun a b =>
            (row_filter_time b + row_split_time b
             <= row_filter_time a + row_split_time a)%Qc)
    (source_info out.1.1).
Proof.
  intros out.
  apply (SourceProcessor_process_source_info processor_200km csm_two_groups
           out.1.1 out.1.2 out.2).
  replace (out.1.1, out.1.2, out.2) with out by now destruct out as [[? ?] ?].
  apply result_value_default. vm_compute. reflexivity.
Defined.

Lemma SourceProcessor_process_conserves_witness :
  let out := default (csm_two_groups, (0%Qc, 0%Qc), [])
               (result_value
                  (SourceProcessor_process processor_200km csm_two_groups)) in
  CompositeSourceModel_get_num_sources out.1.1 =
  foldr Z.add 0 (row_split_num <$> source_info out.1.1).
Proof.
  intros out.
  apply (SourceProcessor_process_conserves processor_200km csm_two_groups
           out.1.1 out.1.2 out.2).
  - replace (out.1.1, out.1.2, out.2) with out
      by now destruct out as [[? ?] ?].
    apply result_value_default. vm_compute. reflexivity.
  - refine (bool_decide_unpack _ _). vm_compute. exact I.
Defined.

(** ** CompositeSourceModel: the sources and the ruptures *)

Section SourcesAndRuptures.

Context {LT : LogicTree}.

Lemma map_groups_compose (f g : TrtModel -> TrtModel)
    (sms : list SourceModel) :
  map (fun sm => set_sm_trt_models (g <$> sm_trt_models sm) sm)
    (map (fun sm => set_sm_trt_models (f <$> sm_trt_models sm) sm) sms) =
  map (fun sm => set_sm_trt_models ((g ∘ f) <$> sm_trt_models sm) sm) sms.
Proof.
  rewrite map_map. apply map_ext. intros sm. cbn.
  now rewrite <- list_fmap_compose.
Qed.

Lemma map_groups_ext (f g : TrtModel -> TrtModel) (sms : list SourceModel) :
  (forall tm, f tm = g tm) ->
  map (fun sm => set_sm_trt_models (f <$> sm_trt_models sm) sm) sms =
  map (fun sm => set_sm_trt_models (g <$> sm_trt_models sm) sm) sms.
Proof.
  intros Hfg. apply map_ext. intros sm. f_equal.
  apply list_fmap_ext. intros i tm _. apply Hfg.
Qed.

Lemma fmap_groups_compose (f g : TrtModel -> TrtModel)
    (sms : list SourceModel) :
  (fun sm => set_sm_trt_models (g <$> sm_trt_models sm) sm) <$>
    ((fun sm => set_sm_trt_models (f <$> sm_trt_models sm) sm) <$> sms) =
  (fun sm => set_sm_trt_models ((g ∘ f) <$> sm_trt_models sm) sm) <$> sms.
Proof. exact (map_groups_compose f g sms). Qed.

Lemma fmap_groups_ext (f g : TrtModel -> TrtModel) (sms : list SourceModel) :
  (forall tm, f tm = g tm) ->
  (fun sm => set_sm_trt_models (f <$> sm_trt_models sm) sm) <$> sms =
  (fun sm => set_sm_trt_models (g <$> sm_trt_models sm) sm) <$> sms.
Proof. exact (map_groups_ext f g sms). Qed.

Lemma trt_models_map_groups (f : TrtModel -> TrtModel)
    (csm : CompositeSourceModel) :
  CompositeSourceModel_trt_models
    (set_source_models
       (map (fun sm => set_sm_trt_models (f <$> sm_trt_models sm) sm)
          (source_models csm)) csm) =
  f <$> CompositeSourceModel_trt_models csm.
Proof.
  unfold CompositeSourceModel_trt_models. cbn [source_models set_source_models].
  induction (source_models csm) as [|sm sms IH]; [reflexivity |].
  cbn [map]. rewrite !bind_cons, fmap_app, IH. reflexivity.
Qed.

(** X18. [get_sources] returns the sources of the model group after
    group and marks them on the way: a source that has the attribute
    [trt_model_id] gets the id of its group, in the list returned as in the
    model.  So after the call every source of the model that has the
    attribute carries the id of its group, and a second call changes
    nothing and returns the same list. *)
Theorem CompositeSourceModel_get_sources_spec (csm : CompositeSourceModel) :
  let csm' := (CompositeSourceModel_get_sources csm).1 in
  let sources := (CompositeSourceModel_get_sources csm).2 in
  sources =
    (tm ← CompositeSourceModel_trt_models csm;
     tag_source tm <$> tm_sources tm) /\
  CompositeSourceModel_trt_models csm' =
    (fun tm => set_tm_sources (tag_source tm <$> tm_sources tm) tm) <$>
    CompositeSourceModel_trt_models csm /\
  Forall
    (fun tm =>
       Forall (fun src => trt_model_id src = None \/
                          trt_model_id src = Some (tm_id tm))
         (tm_sources tm))
    (CompositeSourceModel_trt_models csm') /\
  CompositeSourceModel_get_sources csm' = (csm', sources).
Proof.
  intros csm' sources.
  set (tag_group := fun tm : TrtModel =>
         set_tm_sources (tag_source tm <$> tm_sources tm) tm).
  assert (CompositeSourceModel_trt_models csm' =
          tag_group <$> CompositeSourceModel_trt_models csm) as Hgroups
    by apply trt_models_map_groups.
  assert (forall tm, tag_group (tag_group tm) = tag_group tm) as Hidem.
  { intros tm. unfold tag_group. cbn. unfold set_tm_sources. cbn. f_equal.
    rewrite <- list_fmap_compose. apply list_fmap_ext. intros i src _.
    cbn. unfold tag_source. cbn.
    destruct (trt_model_id src) eqn:Hid; cbn; [reflexivity |].
    now rewrite Hid. }
  split; [apply get_sources_eq |]. split; [exact Hgroups |]. split.
  - rewrite Hgroups. apply list.Forall_forall. intros tm' Htm'.
    apply list_elem_of_fmap in Htm' as (tm & -> & _).
    apply list.Forall_forall. intros src' Hsrc'. cbn in Hsrc'.
    apply list_elem_of_fmap in Hsrc' as (src & -> & _).
    rewrite tag_source_attribute. cbn.
    destruct (trt_model_id src); auto.
  - assert (source_models
              (CompositeSourceModel_get_sources csm').1 =
            source_models csm') as Hsame.
    { rewrite get_sources_source_models. subst csm'.
      rewrite get_sources_source_models.
      rewrite (fmap_groups_compose tag_group tag_group).
      apply fmap_groups_ext. exact Hidem. }
    assert ((CompositeSourceModel_get_sources csm').1 = csm') as Hfst.
    { revert Hsame. unfold CompositeSourceModel_get_sources at 1 2.
      cbn [fst]. destruct csm' as [lt sms i rows]. cbn. now intros ->. }
    rewrite (surjective_pairing (CompositeSourceModel_get_sources csm')).
    rewrite Hfst. f_equal.
    unfold CompositeSourceModel_get_sources at 1. cbn [snd].
    fold (fst (CompositeSourceModel_get_sources csm')).
    change (set_source_models _ csm')
      with (CompositeSourceModel_get_sources csm').1.
    now rewrite Hfst.
Qed.

(** X19. [count_ruptures] with [really] set gives every group the
    number of ruptures of its sources.  Without it, a group whose number is
    not 0 is left as it is, whatever its sources are.  A second call without
    [really] changes nothing, and a call with [really] wipes out what
    earlier calls have done. *)
Theorem CompositeSourceModel_count_ruptures_spec
    (csm : CompositeSourceModel) :
  let counted tm := foldl Z.add 0 (count_ruptures <$> tm_sources tm) in
  CompositeSourceModel_trt_models
    (CompositeSourceModel_count_ruptures csm true) =
    (fun tm => set_tm_num_ruptures (counted tm) tm) <$>
    CompositeSourceModel_trt_models csm /\
  Forall2 (fun tm tm' =>
             (tm_num_ruptures tm <> 0 -> tm' = tm) /\
             (tm_num_ruptures tm = 0 ->
              tm' = set_tm_num_ruptures (counted tm) tm))
    (CompositeSourceModel_trt_models csm)
    (CompositeSourceModel_trt_models
       (CompositeSourceModel_count_ruptures csm false)) /\
  (forall really,
     CompositeSourceModel_count_ruptures
       (CompositeSourceModel_count_ruptures csm really) false =
     CompositeSourceModel_count_ruptures csm really) /\
  (forall really,
     CompositeSourceModel_count_ruptures
       (CompositeSourceModel_count_ruptures csm really) true =
     CompositeSourceModel_count_ruptures csm true).
Proof.
  intros counted.
  set (count := fun (really : bool) (tm : TrtModel) =>
         if bool_decide (tm_num_ruptures tm = 0) || really
         then set_tm_num_ruptures (counted tm) tm else tm).
  assert (forall really,
            CompositeSourceModel_count_ruptures csm really =
            set_source_models
              (map (fun sm =>
                      set_sm_trt_models (count really <$> sm_trt_models sm) sm)
                 (source_models csm)) csm) as Hcount by reflexivity.
  assert (forall really really' (c : CompositeSourceModel),
            (forall tm, count really' (count really tm) =
                        count (really' || really) tm) ->
            CompositeSourceModel_count_ruptures
              (CompositeSourceModel_count_ruptures c really) really' =
            CompositeSourceModel_count_ruptures c (really' || really))
    as Htwice.
  { intros really really' c Hpoint.
    unfold CompositeSourceModel_count_ruptures.
    cbn [source_models set_source_models]. unfold set_source_models. cbn.
    f_equal.
    rewrite (map_groups_compose (count really) (count really')).
    apply map_groups_ext. exact Hpoint. }
  assert (forall really really' tm,
            count really' (count really tm) = count (really' || really) tm)
    as Hpoint.
  { intros really really' tm. unfold count.
    destruct (bool_decide (tm_num_ruptures tm = 0)) eqn:H0;
      destruct really, really'; cbn [orb];
      cbn [tm_num_ruptures set_tm_num_ruptures tm_sources];
      rewrite ?H0; cbn [orb]; rewrite ?orb_true_r, ?orb_false_r;
      try reflexivity;
      destruct (bool_decide (counted tm = 0)); reflexivity. }
  split; [| split; [| split]].
  - rewrite Hcount, trt_models_map_groups. apply list_fmap_ext.
    intros i tm _. unfold count. now rewrite orb_true_r.
  - rewrite Hcount, trt_models_map_groups. apply Forall2_fmap_r.
    apply Forall_Forall2_diag, list.Forall_forall. intros tm _.
    unfold count, compose. cbv beta. rewrite orb_false_r.
    split; intros H0.
    + now rewrite bool_decide_eq_false_2.
    + now rewrite bool_decide_eq_true_2.
  - intros really. now rewrite (Htwice really false csm (Hpoint _ _)).
  - intros really. now rewrite (Htwice really true csm (Hpoint _ _)).
Qed.

End SourcesAndRuptures.

(** ** SourceProcessor: the weights *)

Section ProcessorWeights.

Context {LT : LogicTree} {HL : HazardLib}.

Lemma filter_and_split_weights (self : SourceProcessor) (src : Source)
    (out : SourceInfo) (s : Source) :
  filter_and_split src self = Ok out -> s ∈ si_sources out ->
  src_weight s = get_weight s.
Proof.
  unfold filter_and_split.
  assert (forall l : list Source,
            s ∈ map (fun ss => set_src_weight (get_weight ss) ss) l ->
            src_weight s = get_weight s) as Hmap.
  { intros l Hs. apply list_elem_of_fmap in Hs as (ss & -> & _).
    reflexivity. }
  destruct (sitecol self) as [sites|];
    destruct (trt_model_id src) as [i|]; try discriminate.
  - destruct (filter_sites_by_distance_to_source _ _ _).
    + intros [= <-]. cbn. apply Hmap.
    + intros [= <-]. cbn. intros Hs. now apply elem_of_nil in Hs.
  - intros [= <-]. cbn. apply Hmap.
Qed.

Lemma derived_sources_weights (self : SourceProcessor)
    (sources : list Source) (i : Z) (s : Source) :
  s ∈ derived_sources self sources i -> src_weight s = get_weight s.
Proof.
  unfold derived_sources. intros Hs.
  apply list_elem_of_bind in Hs as (src & Hs & _).
  destruct (filter_and_split src self) as [out|e] eqn:Hout;
    [| now apply elem_of_nil in Hs].
  case_bool_decide; [| now apply elem_of_nil in Hs].
  eapply filter_and_split_weights; eassumption.
Qed.

(** X20. When [process] returns, every source of every group of the
    model has for weight what [get_weight] gives for it: its number of
    ruptures, divided by 40 for a point source. *)
Theorem SourceProcessor_process_weights (self : SourceProcessor)
    (csm csm' : CompositeSourceModel) (times : Qc * Qc) (log : list event) :
  SourceProcessor_process self csm = Ok (csm', times, log) ->
  Forall
    (fun tm => Forall (fun s => src_weight s = get_weight s) (tm_sources tm))
    (CompositeSourceModel_trt_models csm').
Proof.
  intros Hproc.
  apply SourceProcessor_process_spec in Hproc
    as (sbt & log0 & Hsbt & Hmodels & _).
  apply list.Forall_forall. intros tm' Htm'.
  unfold CompositeSourceModel_trt_models in Htm'. rewrite Hmodels in Htm'.
  apply list_elem_of_bind in Htm' as (sm' & Htm' & Hsm').
  apply list_elem_of_fmap in Hsm' as ([sm'' warnings] & -> & Hsm').
  apply list_elem_of_fmap in Hsm' as (sm & Hupd & _).
  unfold update_trt_models in Hupd. injection Hupd as -> _.
  cbn in Htm'. apply list_elem_of_fmap in Htm' as (tm & -> & _).
  cbn. apply list.Forall_forall. intros s Hs.
  rewrite sorted_by_perm, (Hsbt (tm_id tm)) in Hs.
  eapply derived_sources_weights. exact Hs.
Qed.

End ProcessorWeights.

Lemma SourceProcessor_process_weights_witness :
  let out := default (csm_two_groups, (0%Qc, 0%Qc), [])
               (result_value
                  (SourceProcessor_process processor_200km csm_two_groups)) in
  Forall
    (fun tm => Forall (fun s => src_weight s = get_weight s) (tm_sources tm))
    (CompositeSourceModel_trt_models out.1.1).
Proof.
  intros out.
  apply (SourceProcessor_process_weights processor_200km csm_two_groups
           out.1.1 out.1.2 out.2).
  replace (out.1.1, out.1.2, out.2) with out by now destruct out as [[? ?] ?].
  apply result_value_default. vm_compute. reflexivity.
Defined.

(** ** RlzsAssoc: the GSIMs by realization *)

Section GsimByTrt.

Context {LT : LogicTree}.

Lemma add_realization_groups_gsim_by_trt lt_model i gsim_rlz r trt_models :
  forall heap self heap' self' trt_models',
    add_realization_groups lt_model i gsim_rlz r heap self trt_models
    = Ok (heap', self', trt_models') ->
    gsim_by_trt self' = gsim_by_trt self.
Proof.
  induction trt_models as [|tm rest IH]; intros heap self heap' self' tms';
    cbn [add_realization_groups].
  - now intros [= _ <- _].
  - destruct (rlzs_assoc_getitem self _) as [self1 [rlzs|e]] eqn:Hget;
      [| discriminate].
    assert (gsim_by_trt self1 = gsim_by_trt self) as Hself1.
    { revert Hget. unfold rlzs_assoc_getitem.
      destruct (rlzs_assoc self !! _); [now intros [= <- _] |].
      destruct (rlzs_assoc_default self); now intros [= <- _]. }
    destruct (values (sm_gsim_lt lt_model) !! tm_trt tm) as [gsims|];
      [| discriminate].
    destruct (if bool_decide (sm_samples lt_model > 1) then _ else _)
      as [heap1|e] eqn:Hover; [| discriminate].
    destruct (add_realization_groups _ _ _ _ heap1 _ rest)
      as [[[heap2 self2] rest']|e] eqn:Hrec; [| discriminate].
    intros [= _ <- _]. apply IH in Hrec. rewrite Hrec. exact Hself1.
Qed.

Lemma add_realizations_loop_gsim_by_trt lt_model realizations :
  forall i idx heap self tms rlzs idx' heap' self' tms' rlzs',
    add_realizations_loop lt_model i idx heap self tms rlzs realizations
    = Ok (idx', heap', self', tms', rlzs') ->
    gsim_by_trt self' =
    gsim_by_trt self ++
    ((fun g => dict_zip (all_trts (sm_gsim_lt lt_model)) (gr_value g)) <$>
     realizations).
Proof.
  induction realizations as [|g rest IH];
    intros i idx heap self tms rlzs idx' heap' self' tms' rlzs';
    cbn [add_realizations_loop].
  - intros [= _ _ <- _ _]. now rewrite app_nil_r.
  - destruct (add_realization_groups _ _ _ _ _ _ _)
      as [[[heap2 self2] tms2]|e] eqn:Hgroups; [| discriminate].
    apply add_realization_groups_gsim_by_trt in Hgroups.
    intros Hrec. apply IH in Hrec. rewrite Hrec, Hgroups. cbn.
    now rewrite <- app_assoc.
Qed.

Lemma get_rlzs_assoc_step_gsim_by_trt random_seed n get_weight st smodel
    st1 :
  get_rlzs_assoc_step random_seed n get_weight st smodel = Ok st1 ->
  let smodel1 := set_sm_gsim_lt (reduced_gsim_lt get_weight smodel) smodel in
  gsim_by_trt (b_assoc st1) =
  gsim_by_trt (b_assoc st) ++
  ((fun g => dict_zip (all_trts (sm_gsim_lt smodel1)) (gr_value g)) <$>
   model_rlzs random_seed n (b_idx st) smodel1).
Proof.
  intros Hstep smodel1. unfold get_rlzs_assoc_step in Hstep.
  fold smodel1 in Hstep.
  destruct (model_rlzs random_seed n (b_idx st) smodel1) as [|g0 rest]
    eqn:Hrlzs.
  - injection Hstep as <-. cbn. now rewrite app_nil_r.
  - unfold RlzsAssoc_add_realizations in Hstep.
    destruct (add_realizations_loop _ _ _ _ _ _ _ _)
      as [[[[[idx1 heap1] self1] tms1] rlzs1]|e] eqn:Hloop; [| discriminate].
    injection Hstep as <-. cbn.
    now apply add_realizations_loop_gsim_by_trt in Hloop.
Qed.

Lemma get_rlzs_assoc_loop_gsim_by_trt random_seed n get_weight smodels :
  forall st st',
    get_rlzs_assoc_loop random_seed n get_weight st smodels = Ok st' ->
    length (gsim_by_trt (b_assoc st)) = length (b_heap st) ->
    length (gsim_by_trt (b_assoc st')) = length (b_heap st') /\
    exists more,
      gsim_by_trt (b_assoc st') = gsim_by_trt (b_assoc st) ++ more.
Proof.
  induction smodels as [|sm rest IH]; intros st st';
    cbn [get_rlzs_assoc_loop].
  - intros [= <-] Hlen. split; [exact Hlen |]. exists [].
    now rewrite app_nil_r.
  - destruct (get_rlzs_assoc_step _ _ _ _ _) as [st1|e] eqn:Hstep;
      [| discriminate].
    intros Hloop Hlen.
    pose proof (get_rlzs_assoc_step_gsim_by_trt _ _ _ _ _ _ Hstep) as Hg.
    apply get_rlzs_assoc_step_objects in Hstep as (Hheap & _).
    cbv zeta in Hg, Hheap.
    destruct (IH st1 st' Hloop) as (Hlen' & more & Hmore).
    { rewrite Hg, Hheap, length_app, length_fmap, Hlen. reflexivity. }
    split; [exact Hlen' |].
    eexists. rewrite Hmore, Hg, <- app_assoc. reflexivity.
Qed.

(** X21. The list [gsim_by_trt] of the association goes by ordinal:
    when [get_rlzs_assoc] returns, it has one dictionary for each
    realization object, and the dictionary at the place of the k-th
    realization of a source model is the one that pairs the tectonic region
    types of the logic tree of the model with the GSIMs of this
    realization. *)
Theorem get_rlzs_assoc_gsim_by_trt (self : CompositeSourceModel)
    (get_weight : TrtModel -> Z) (pre post : list SourceModel)
    (smodel : SourceModel) (st st_final : Building) :
  let random_seed := seed (source_model_lt self) in
  let n := num_samples (source_model_lt self) in
  source_models self = pre ++ smodel :: post ->
  get_rlzs_assoc_loop random_seed n get_weight (initial_building self) pre
  = Ok st ->
  CompositeSourceModel_get_rlzs_assoc self get_weight = Ok st_final ->
  let smodel1 := set_sm_gsim_lt (reduced_gsim_lt get_weight smodel) smodel in
  length (gsim_by_trt (b_assoc st_final)) = length (b_heap st_final) /\
  forall (k : nat) g,
    model_rlzs random_seed n (b_idx st) smodel1 !! k = Some g ->
    gsim_by_trt (b_assoc st_final) !! (length (b_heap st) + k)%nat =
    Some (dict_zip (all_trts (sm_gsim_lt smodel1)) (gr_value g)).
Proof.
  intros random_seed n Hsplit Hpre Hfinal smodel1.
  destruct (get_rlzs_assoc_cut _ _ _ _ _ _ _ Hsplit Hpre Hfinal)
    as (st1 & st2 & Hstep & Hpost & Hweights).
  apply get_rlzs_assoc_weights_keeps in Hweights as (-> & Hlen' & _).
  destruct (get_rlzs_assoc_loop_gsim_by_trt _ _ _ _ _ _ Hpre eq_refl)
    as (Hlen & _).
  pose proof (get_rlzs_assoc_step_gsim_by_trt _ _ _ _ _ _ Hstep) as Hg.
  apply get_rlzs_assoc_step_objects in Hstep as (Hheap & _).
  cbv zeta in Hg, Hheap. fold smodel1 random_seed n in Hg, Hheap.
  destruct (get_rlzs_assoc_loop_gsim_by_trt _ _ _ _ _ _ Hpost)
    as (Hlen2 & more & Hmore).
  { rewrite Hg, Hheap, length_app, length_fmap, Hlen. reflexivity. }
  split; [now rewrite Hlen2, Hlen' |].
  intros k g Hk. rewrite Hmore, Hg, <- Hlen.
  pose proof (lookup_lt_Some _ _ _ Hk) as Hlt.
  rewrite lookup_app_l by (rewrite length_app, length_fmap; lia).
  rewrite lookup_app_r by lia.
  replace (length (gsim_by_trt (b_assoc st)) + k
           - length (gsim_by_trt (b_assoc st)))%nat with k by lia.
  now rewrite list_lookup_fmap, Hk.
Qed.

End GsimByTrt.

Lemma get_rlzs_assoc_gsim_by_trt_witness :
  let pre := [model_of "SM0" (Q2Qc (1 # 4)) 0 1] in
  let smodel := model_of "SM1" (Q2Qc (1 # 4)) 1 3 in
  let st := default (initial_building csm_sampling)
              (result_value
                 (get_rlzs_assoc_loop 42 7 tm_num_ruptures
                    (initial_building csm_sampling) pre)) in
  let st_final := default (initial_building csm_sampling)
                    (result_value
                       (CompositeSourceModel_get_rlzs_assoc csm_sampling
                          tm_num_ruptures)) in
  let smodel1 :=
    set_sm_gsim_lt (reduced_gsim_lt tm_num_ruptures smodel) smodel in
  length (gsim_by_trt (b_assoc st_final)) = length (b_heap st_final) /\
  forall (k : nat) g,
    model_rlzs 42 7 (b_idx st) smodel1 !! k = Some g ->
    gsim_by_trt (b_assoc st_final) !! (length (b_heap st) + k)%nat =
    Some (dict_zip (all_trts (sm_gsim_lt smodel1)) (gr_value g)).
Proof.
  intros pre smodel st st_final.
  apply (get_rlzs_assoc_gsim_by_trt csm_sampling tm_num_ruptures
           pre
           [model_of "SM2" (Q2Qc (1 # 4)) 2 1;
            model_of "SM3" (Q2Qc (1 # 4)) 3 2] smodel st st_final).
  - reflexivity.
  - returns_by_computation.
  - returns_by_computation.
Defined.

(** ** From get_rlzs_assoc to combine_curves *)

Section CombineAfterBuilding.

Context {LT : LogicTree}.

Lemma add_realization_groups_default lt_model i gsim_rlz r trt_models :
  forall heap self heap' self' trt_models',
    add_realization_groups lt_model i gsim_rlz r heap self trt_models
    = Ok (heap', self', trt_models') ->
    rlzs_assoc_default self' = rlzs_assoc_default self.
Proof.
  induction trt_models as [|tm rest IH]; intros heap self heap' self' tms';
    cbn [add_realization_groups].
  - now intros [= _ <- _].
  - destruct (rlzs_assoc_getitem self _) as [self1 [rlzs|e]] eqn:Hget;
      [| discriminate].
    assert (rlzs_assoc_default self1 = rlzs_assoc_default self) as Hself1.
    { revert Hget. unfold rlzs_assoc_getitem.
      destruct (rlzs_assoc self !! _); [now intros [= <- _] |].
      destruct (rlzs_assoc_default self) eqn:Hd; intros [= <- _].
      cbn. congruence. }
    destruct (values (sm_gsim_lt lt_model) !! tm_trt tm) as [gsims|];
      [| discriminate].
    destruct (if bool_decide (sm_samples lt_model > 1) then _ else _)
      as [heap1|e] eqn:Hover; [| discriminate].
    destruct (add_realization_groups _ _ _ _ heap1 _ rest)
      as [[[heap2 self2] rest']|e] eqn:Hrec; [| discriminate].
    intros [= _ <- _]. apply IH in Hrec. rewrite Hrec. exact Hself1.
Qed.

Lemma add_realizations_loop_default lt_model realizations :
  forall i idx heap self tms rlzs idx' heap' self' tms' rlzs',
    add_realizations_loop lt_model i idx heap self tms rlzs realizations
    = Ok (idx', heap', self', tms', rlzs') ->
    rlzs_assoc_default self' = rlzs_assoc_default self.
Proof.
  induction realizations as [|g rest IH];
    intros i idx heap self tms rlzs idx' heap' self' tms' rlzs';
    cbn [add_realizations_loop].
  - now intros [= _ _ <- _ _].
  - destruct (add_realization_groups _ _ _ _ _ _ _)
      as [[[heap2 self2] tms2]|e] eqn:Hgroups; [| discriminate].
    apply add_realization_groups_default in Hgroups.
    intros Hrec. apply IH in Hrec. now rewrite Hrec, Hgroups.
Qed.

Lemma get_rlzs_assoc_loop_default random_seed n get_weight smodels :
  forall st st',
    get_rlzs_assoc_loop random_seed n get_weight st smodels = Ok st' ->
    rlzs_assoc_default (b_assoc st') = rlzs_assoc_default (b_assoc st).
Proof.
  induction smodels as [|sm rest IH]; intros st st';
    cbn [get_rlzs_assoc_loop].
  - now intros [= <-].
  - destruct (get_rlzs_assoc_step _ _ _ _ _) as [st1|e] eqn:Hstep;
      [| discriminate].
    intros Hloop. rewrite (IH _ _ Hloop). clear Hloop IH.
    unfold get_rlzs_assoc_step in Hstep.
    destruct (model_rlzs _ _ _ _) as [|g0 rlzs].
    + now injection Hstep as <-.
    + unfold RlzsAssoc_add_realizations in Hstep.
      destruct (add_realizations_loop _ _ _ _ _ _ _ _)
        as [[[[[idx1 heap1] self1] tms1] rlzs1]|e] eqn:Hloop;
        [| discriminate].
      injection Hstep as <-. cbn.
      now apply add_realizations_loop_default in Hloop.
Qed.

(** X22. An association built by [get_rlzs_assoc] from source models
    with distinct ordinals can always be used by [combine_curves]: whatever
    the keys and the values of the results, whatever the aggregation
    function and whatever realizations are told apart as keys of the
    accumulator, the call returns; no [KeyError] comes from a key that
    [rlzs_assoc] does not have, nor from a realization that the accumulator
    does not have. *)
Theorem get_rlzs_assoc_combine_curves_returns (self : CompositeSourceModel)
    (get_weight : TrtModel -> Z) (st : Building)
    {K : Type} `{Countable K} (rlz_key : nat -> K) {V : Type}
    (results : list (Z * string * V)) (agg : V -> V -> V) (acc : V) :
  CompositeSourceModel_get_rlzs_assoc self get_weight = Ok st ->
  NoDup (sm_ordinal <$> source_models self) ->
  exists assoc ad,
    RlzsAssoc_combine_curves rlz_key (b_assoc st) results agg acc
    = (assoc, Ok ad).
Proof.
  unfold CompositeSourceModel_get_rlzs_assoc.
  destruct (get_rlzs_assoc_loop _ _ _ _ _) as [st2|e] eqn:Hloop;
    [| discriminate].
  intros Hweights Hnd.
  apply get_rlzs_assoc_weights_keeps in Hweights as (Hassoc & Hlen & _).
  rewrite Hassoc.
  pose proof (get_rlzs_assoc_loop_default _ _ _ _ _ _ Hloop) as Hdefault.
  assert (realizations (b_assoc st2) = seq 0 (length (b_heap st2)))
    as Hflat.
  { apply (get_rlzs_assoc_loop_flat _ _ _ _ _ _ Hloop Hnd);
      [| reflexivity].
    intros i Hi. cbn in Hi. now apply elem_of_nil in Hi. }
  apply get_rlzs_assoc_loop_keeps in Hloop as (_ & _ & _ & Hvalid & _);
    [| apply initial_building_refs_valid].
  unfold RlzsAssoc_combine_curves.
  apply combine_curves_loop_returns; [left; exact Hdefault |].
  intros [k v] Hkv.
  apply elem_of_contributions in Hkv as (key & rlzs & rlz & _ & Hkey & Hin & <-).
  cbn [fst]. rewrite init_accumulators_lookup.
  rewrite bool_decide_eq_true_2; [eauto |].
  apply list_elem_of_fmap_2. rewrite Hflat.
  apply list_elem_of_In, in_seq.
  specialize (Hvalid key rlz). rewrite Hkey in Hvalid. cbn in Hvalid.
  specialize (Hvalid Hin). lia.
Qed.

End CombineAfterBuilding.

Lemma get_rlzs_assoc_combine_curves_returns_witness :
  let st := default (initial_building csm_sampling)
              (result_value
                 (CompositeSourceModel_get_rlzs_assoc csm_sampling
                    tm_num_ruptures)) in
  exists assoc ad,
    RlzsAssoc_combine_curves (fun r : nat => r) (b_assoc st)
      [((1, "BooreAtkinson2008"), Q2Qc (1 # 10));
       ((9, "ChiouYoungs2008"), Q2Qc (1 # 5))]
      agg_prob 0%Qc
    = (assoc, Ok ad).
Proof.
  intros st.
  apply (get_rlzs_assoc_combine_curves_returns csm_sampling tm_num_ruptures
           st).
  - returns_by_computation.
  - refine (bool_decide_unpack _ _). vm_compute. exact I.
Defined.
